(** * A shallow embedding of the TierOne tar reader

    The development follows the C++ sources of the library:
    [error.hpp], [stream.hpp], [metadata.hpp], [header_parser.{hpp,cpp}],
    [gnu_tar.{hpp,cpp}], [sparse.{hpp,cpp}], [sparse_reader.hpp],
    [pax_parser.{hpp,cpp}], [archive_entry.{hpp,cpp}] and
    [archive_reader.{hpp,cpp}].

    Conventions.
    - [char] and [std::byte] are [ascii]; raw buffers are [list ascii];
      [std::string] and [std::string_view] values are [string].
    - [size_t], [uint64_t] are [Z] with the wrap-around written [wrap64];
      [uint32_t] uses [wrap32].
    - [std::expected<T, error>] is [expected T].
    - [std::map<std::string, std::string>] is [gmap string string].
    - Code that mutates the stream is written in a small state-and-error
      monad: the state survives an error, as it does in the source. *)

From Stdlib Require Import ZArith Ascii String List Bool Lia.
From stdpp Require Import base tactics option list gmap strings pretty sorting.

Local Open Scope Z_scope.
Local Open Scope list_scope.

(** ** error.hpp *)

Inductive error_code : Type :=
  | invalid_header
  | corrupt_archive
  | io_error
  | unsupported_feature
  | invalid_operation
  | end_of_archive.

Record error : Type := mk_error { code : error_code; message : string }.

Inductive expected (A : Type) : Type :=
  | Ok (a : A)
  | Unexpected (e : error).
Arguments Ok {A} a.
Arguments Unexpected {A} e.

Definition has_value {A} (r : expected A) : bool :=
  match r with Ok _ => true | Unexpected _ => false end.

Definition error_code_eqb (a b : error_code) : bool :=
  match a, b with
  | invalid_header, invalid_header | corrupt_archive, corrupt_archive
  | io_error, io_error | unsupported_feature, unsupported_feature
  | invalid_operation, invalid_operation | end_of_archive, end_of_archive => true
  | _, _ => false
  end.

(** ** Machine integers *)

Definition wrap64 (x : Z) : Z := x mod 2 ^ 64.
Definition wrap32 (x : Z) : Z := x mod 2 ^ 32.
Definition UINT64_MAX : Z := 2 ^ 64 - 1.
(** The value of a 64-bit pattern read as a signed integer ([std::time_t],
    the count of a [std::chrono] duration). *)
Definition to_int64 (x : Z) : Z := (x + 2 ^ 63) mod 2 ^ 64 - 2 ^ 63.

Definition zlen {A} (l : list A) : Z := Z.of_nat (length l).
Definition ztake {A} (n : Z) (l : list A) : list A := take (Z.to_nat n) l.
Definition zdrop {A} (n : Z) (l : list A) : list A := drop (Z.to_nat n) l.

(** ** Characters *)

Definition NUL : ascii := "000"%char.
Definition SP : ascii := " "%char.
Definition LF : ascii := "010"%char.
Definition TAB : ascii := "009"%char.

Definition ord (c : ascii) : Z := Z.of_N (N_of_ascii c).
Definition chr (z : Z) : ascii := ascii_of_N (Z.to_N (z mod 256)).

Definition is_octal_digit (c : ascii) : bool :=
  (ord "0" <=? ord c) && (ord c <=? ord "7").
Definition is_decimal_digit (c : ascii) : bool :=
  (ord "0" <=? ord c) && (ord c <=? ord "9").

Definition str (l : list ascii) : string := string_of_list_ascii l.
Definition bytes (s : string) : list ascii := list_ascii_of_string s.

(** ** A state-and-error monad

    A computation over a state [S] returns its result together with the
    state it left behind; an error does not roll the state back.  Loops of
    the source that are not bounded by their input take a [fuel] argument.
    [None] says that the call returns no value: the fuel is exhausted, an
    exception leaves the function ([throws]), or the C++ is undefined at
    this point.  It is never an answer of the code. *)

Definition M (S A : Type) : Type := S -> option (expected A * S).

Definition ret {S A} (a : A) : M S A := fun s => Some (Ok a, s).
Definition fail {S A} (e : error) : M S A := fun s => Some (Unexpected e, s).
Definition bind {S A B} (m : M S A) (k : A -> M S B) : M S B :=
  fun s => match m s with
           | Some (Ok a, s') => k a s'
           | Some (Unexpected e, s') => Some (Unexpected e, s')
           | None => None
           end.
Definition get {S} : M S S := fun s => Some (Ok s, s).
Definition modify {S} (f : S -> S) : M S unit := fun s => Some (Ok tt, f s).
(** Run [m] and hand its outcome, error included, to the continuation. *)
Definition try {S A} (m : M S A) : M S (expected A) :=
  fun s => match m s with
           | Some (r, s') => Some (Ok r, s')
           | None => None
           end.
Definition out_of_fuel {S A} : M S A := fun _ => None.
(** An exception ([std::length_error]) propagates to the caller: the
    function returns no [std::expected] value. *)
Definition throws {S A} : M S A := fun _ => None.
(** Turn a finished [expected] value into a computation. *)
Definition lift {S A} (r : expected A) : M S A := fun s => Some (r, s).
(** The same for a value computed by a loop with its own fuel. *)
Definition lift_fuel {S A} (o : option (expected A)) : M S A := fun s =>
  match o with
  | Some r => Some (r, s)
  | None => None
  end.

Declare Scope m_scope.
Delimit Scope m_scope with M.
Notation "x <- m ;; k" := (bind m (fun x => k))
  (at level 100, m at next level, right associativity) : m_scope.
Notation "m ;;; k" := (bind m (fun _ => k))
  (at level 100, right associativity) : m_scope.

(** ** stream.hpp *)

(** The abstract interface [input_stream]: [read] fills a buffer of the
    given size and returns the bytes produced, [skip] moves forward,
    [at_end] is the end-of-stream query. *)
Class InputStream (S : Type) : Type := {
  stream_read : Z -> S -> expected (list ascii) * S;
  stream_skip : Z -> S -> expected unit * S;
  stream_at_end : S -> bool
}.

(** [memory_mapped_stream]: a span of bytes and a position. *)
Record memory_mapped_stream : Type := mk_mms {
  data_ : list ascii;
  position_ : Z
}.

Definition mms_read (n : Z) (s : memory_mapped_stream)
    : expected (list ascii) * memory_mapped_stream :=
  let available := wrap64 (zlen (data_ s) - position_ s) in
  let to_read := Z.min n available in
  (Ok (ztake to_read (zdrop (position_ s) (data_ s))),
   mk_mms (data_ s) (wrap64 (position_ s + to_read))).

Definition mms_skip (n : Z) (s : memory_mapped_stream)
    : expected unit * memory_mapped_stream :=
  if wrap64 (position_ s + n) >? zlen (data_ s)
  then (Unexpected (mk_error io_error "Skip past end of stream"), s)
  else (Ok tt, mk_mms (data_ s) (wrap64 (position_ s + n))).

Definition mms_at_end (s : memory_mapped_stream) : bool :=
  position_ s >=? zlen (data_ s).

#[export] Instance memory_mapped_input_stream : InputStream memory_mapped_stream := {
  stream_read := mms_read;
  stream_skip := mms_skip;
  stream_at_end := mms_at_end
}.

Definition open_memory (d : list ascii) : memory_mapped_stream := mk_mms d 0.

(** Stream operations as computations. *)
Definition read {S} `{!InputStream S} (n : Z) : M S (list ascii) :=
  fun s => Some (stream_read n s).
Definition skip {S} `{!InputStream S} (n : Z) : M S unit :=
  fun s => Some (stream_skip n s).
Definition at_end {S} `{!InputStream S} : M S bool :=
  fun s => Some (Ok (stream_at_end s), s).

(** ** sparse.hpp: the sparse descriptor *)

Record sparse_entry : Type := mk_sparse_entry {
  seg_offset : Z;   (* offset in the logical file *)
  seg_size : Z      (* size of the data segment *)
}.

Record sparse_metadata : Type := mk_sparse_metadata {
  real_size : Z;
  segments : list sparse_entry
}.

(** [sparse_metadata::total_data_size]: a [uint64_t] accumulator. *)
Definition total_data_size (sm : sparse_metadata) : Z :=
  fold_left (fun total seg => wrap64 (total + seg_size seg)) (segments sm) 0.

Fixpoint find_segment_from (i : Z) (segs : list sparse_entry) (offset : Z) : option Z :=
  match segs with
  | [] => None
  | seg :: rest =>
      if (offset >=? seg_offset seg) && (offset <? wrap64 (seg_offset seg + seg_size seg))
      then Some i
      else find_segment_from (i + 1) rest offset
  end.

(** [sparse_metadata::find_segment] *)
Definition find_segment (sm : sparse_metadata) (offset : Z) : option Z :=
  find_segment_from 0 (segments sm) offset.

(** ** metadata.hpp *)

Inductive acl_type : Type :=
  | acl_user | acl_group | acl_mask | acl_other | acl_user_obj | acl_group_obj.

(** [acl_entry::perm]: read = 4, write = 2, execute = 1. *)
Definition perm_read : Z := 4.
Definition perm_write : Z := 2.
Definition perm_execute : Z := 1.

Record acl_entry : Type := mk_acl_entry {
  acl_entry_type : acl_type;
  acl_id : Z;
  acl_permissions : Z;
  acl_name : string
}.

Inductive entry_type : Type :=
  | regular_file          (* '0' *)
  | regular_file_old      (* NUL *)
  | hard_link             (* '1' *)
  | symbolic_link         (* '2' *)
  | character_device      (* '3' *)
  | block_device          (* '4' *)
  | directory             (* '5' *)
  | fifo                  (* '6' *)
  | contiguous_file       (* '7' *)
  | pax_extended_header   (* 'x' *)
  | pax_global_header     (* 'g' *)
  | gnu_longname          (* 'L' *)
  | gnu_longlink          (* 'K' *)
  | gnu_sparse            (* 'S' *)
  | gnu_volhdr            (* 'V' *)
  | gnu_multivol.         (* 'M' *)

Definition entry_type_eqb (a b : entry_type) : bool :=
  match a, b with
  | regular_file, regular_file | regular_file_old, regular_file_old
  | hard_link, hard_link | symbolic_link, symbolic_link
  | character_device, character_device | block_device, block_device
  | directory, directory | fifo, fifo | contiguous_file, contiguous_file
  | pax_extended_header, pax_extended_header
  | pax_global_header, pax_global_header
  | gnu_longname, gnu_longname | gnu_longlink, gnu_longlink
  | gnu_sparse, gnu_sparse | gnu_volhdr, gnu_volhdr
  | gnu_multivol, gnu_multivol => true
  | _, _ => false
  end.

(** [std::to_underlying] on [entry_type]. *)
Definition to_underlying (t : entry_type) : ascii :=
  match t with
  | regular_file => "0" | regular_file_old => NUL
  | hard_link => "1" | symbolic_link => "2"
  | character_device => "3" | block_device => "4"
  | directory => "5" | fifo => "6" | contiguous_file => "7"
  | pax_extended_header => "x" | pax_global_header => "g"
  | gnu_longname => "L" | gnu_longlink => "K"
  | gnu_sparse => "S" | gnu_volhdr => "V" | gnu_multivol => "M"
  end%char.

Definition all_entry_types : list entry_type :=
  [ regular_file; regular_file_old; hard_link; symbolic_link; character_device;
    block_device; directory; fifo; contiguous_file; pax_extended_header;
    pax_global_header; gnu_longname; gnu_longlink; gnu_sparse; gnu_volhdr;
    gnu_multivol ].

(** [static_cast<entry_type>(typeflag)]: the enumerators the validating
    [switch] of [parse_header] knows; any other byte is [None]. *)
Definition entry_type_of_char (c : ascii) : option entry_type :=
  List.find (fun t => Ascii.eqb (to_underlying t) c) all_entry_types.

Record file_metadata : Type := mk_file_metadata {
  path : string;
  type : entry_type;
  permissions : Z;
  owner_id : Z;
  group_id : Z;
  size : Z;
  modification_time : Z;   (* a [system_clock::time_point]: nanoseconds since the epoch *)
  owner_name : string;
  group_name : string;
  link_target : option string;
  device_major : Z;
  device_minor : Z;
  sparse_info : option sparse_metadata;
  xattrs : gmap string string;
  access_acl : list acl_entry;
  default_acl : list acl_entry
}.

Definition is_regular_file (m : file_metadata) : bool :=
  entry_type_eqb (type m) regular_file || entry_type_eqb (type m) regular_file_old.
Definition is_gnu_longname (m : file_metadata) : bool :=
  entry_type_eqb (type m) gnu_longname.
Definition is_gnu_longlink (m : file_metadata) : bool :=
  entry_type_eqb (type m) gnu_longlink.
Definition is_gnu_extension (m : file_metadata) : bool :=
  is_gnu_longname m || is_gnu_longlink m
  || entry_type_eqb (type m) gnu_sparse
  || entry_type_eqb (type m) gnu_volhdr
  || entry_type_eqb (type m) gnu_multivol.
Definition is_pax_header (m : file_metadata) : bool :=
  entry_type_eqb (type m) pax_extended_header
  || entry_type_eqb (type m) pax_global_header.

(** Field setters, for the assignments of the source. *)
Definition set_path (p : string) (m : file_metadata) : file_metadata :=
  mk_file_metadata p (type m) (permissions m) (owner_id m) (group_id m) (size m)
    (modification_time m) (owner_name m) (group_name m) (link_target m)
    (device_major m) (device_minor m) (sparse_info m) (xattrs m)
    (access_acl m) (default_acl m).
Definition set_link_target (l : option string) (m : file_metadata) : file_metadata :=
  mk_file_metadata (path m) (type m) (permissions m) (owner_id m) (group_id m) (size m)
    (modification_time m) (owner_name m) (group_name m) l
    (device_major m) (device_minor m) (sparse_info m) (xattrs m)
    (access_acl m) (default_acl m).
Definition set_size (n : Z) (m : file_metadata) : file_metadata :=
  mk_file_metadata (path m) (type m) (permissions m) (owner_id m) (group_id m) n
    (modification_time m) (owner_name m) (group_name m) (link_target m)
    (device_major m) (device_minor m) (sparse_info m) (xattrs m)
    (access_acl m) (default_acl m).
Definition set_sparse_info (sp : option sparse_metadata) (m : file_metadata) : file_metadata :=
  mk_file_metadata (path m) (type m) (permissions m) (owner_id m) (group_id m) (size m)
    (modification_time m) (owner_name m) (group_name m) (link_target m)
    (device_major m) (device_minor m) sp (xattrs m)
    (access_acl m) (default_acl m).
Definition set_xattrs_acls (x : gmap string string) (a d : list acl_entry)
    (m : file_metadata) : file_metadata :=
  mk_file_metadata (path m) (type m) (permissions m) (owner_id m) (group_id m) (size m)
    (modification_time m) (owner_name m) (group_name m) (link_target m)
    (device_major m) (device_minor m) (sparse_info m) x a d.

(** The [ustar_header] layout: each field is a window of the 512-byte
    record. *)
Definition BLOCK_SIZE : Z := 512.

Definition field (off len : nat) (block : list ascii) : list ascii :=
  take len (drop off block).

Definition hdr_name := field 0 100.
Definition hdr_mode := field 100 8.
Definition hdr_uid := field 108 8.
Definition hdr_gid := field 116 8.
Definition hdr_size := field 124 12.
Definition hdr_mtime := field 136 12.
Definition hdr_checksum := field 148 8.
Definition hdr_typeflag (block : list ascii) : ascii := nth 156 block NUL.
Definition hdr_linkname := field 157 100.
Definition hdr_magic := field 257 6.
Definition hdr_version := field 263 2.
Definition hdr_uname := field 265 32.
Definition hdr_gname := field 297 32.
Definition hdr_devmajor := field 329 8.
Definition hdr_devminor := field 337 8.
Definition hdr_prefix := field 345 155.

(** The [gnu_sparse_header] overlay of sparse.hpp. *)
Definition sp_offset (i : nat) := field (384 + 24 * i) 12.
Definition sp_numbytes (i : nat) := field (384 + 24 * i + 12) 12.
Definition sp_isextended (block : list ascii) : ascii := nth 480 block NUL.
Definition sp_realsize := field 481 12.

(** ** header_parser.hpp / header_parser.cpp *)

Definition err {A} (c : error_code) (msg : string) : expected A :=
  Unexpected (mk_error c msg).

(** [parse_octal]: the loop over the field carries [result] and
    [found_digit]; [break] returns what the tail of the function returns. *)
Fixpoint parse_octal_loop (fld : list ascii) (result : Z) (found_digit : bool)
    : expected Z :=
  match fld with
  | [] => Ok (if found_digit then result else 0)
  | c :: rest =>
      if Ascii.eqb c NUL || Ascii.eqb c SP then
        if negb found_digit then parse_octal_loop rest result found_digit
        else Ok (if found_digit then result else 0)
      else if (ord c <? ord "0") || (ord c >? ord "7") then
        err invalid_header "Invalid octal digit"
      else if result >? Z.shiftr UINT64_MAX 3 then
        err invalid_header "Octal value overflow"
      else
        parse_octal_loop rest (Z.lor (Z.shiftl result 3) (ord c - ord "0")) true
  end.

Definition parse_octal (fld : list ascii) : expected Z :=
  parse_octal_loop fld 0 false.

(** [calculate_checksum]: the eight checksum bytes count as spaces; the
    accumulator is a [uint32_t]. *)
Definition calculate_checksum (block : list ascii) : Z :=
  let temp_block := take 148 block ++ replicate 8 SP ++ drop 156 block in
  fold_left (fun sum b => wrap32 (sum + ord b)) temp_block 0.

Fixpoint until_nul (fld : list ascii) : list ascii :=
  match fld with
  | [] => []
  | c :: rest => if Ascii.eqb c NUL then [] else c :: until_nul rest
  end.

(** [extract_string]: the bytes before the first NUL, or the whole field. *)
Definition extract_string (fld : list ascii) : string := str (until_nul fld).

Definition is_zero_block (block : list ascii) : bool :=
  forallb (fun b => Ascii.eqb b NUL) block.

(** [gnu::is_gnu_tar_magic] (gnu_tar.cpp) *)
Definition is_gnu_tar_magic (magic : string) : bool :=
  String.eqb magic "ustar " || String.eqb magic "ustar".

(** *** sparse.cpp: the old GNU sparse map in the header overlay *)

(** The inner loop of [parse_sparse_octal]: the run of octal digits that
    starts at the head of [l]. *)
Fixpoint octal_run (l : list ascii) (value len : Z) : Z * Z :=
  match l with
  | c :: rest =>
      if is_octal_digit c
      then octal_run rest (wrap64 (value * 8 + (ord c - ord "0"))) (len + 1)
      else (value, len)
  | [] => (value, len)
  end.

Fixpoint parse_sparse_octal_loop (fld : list ascii) (best_value best_len : Z)
    : Z * Z :=
  match fld with
  | [] => (best_value, best_len)
  | c :: rest =>
      let '(bv, bl) :=
        if is_octal_digit c then
          let '(value, len) := octal_run fld 0 0 in
          if len >? best_len then (value, len) else (best_value, best_len)
        else (best_value, best_len) in
      parse_sparse_octal_loop rest bv bl
  end.

(** [parse_sparse_octal]: the longest run of octal digits in the field,
    the first one among runs of equal length. *)
Definition parse_sparse_octal (fld : list ascii) : option Z :=
  let '(best_value, best_len) := parse_sparse_octal_loop fld 0 0 in
  if best_len >? 0 then Some best_value else None.

(** The loop over the map slots of a record ([offset_of i], [numbytes_of i]
    are the two 12-byte fields of slot [i]); it stops at the first slot
    that does not parse or has size zero. *)
Fixpoint sparse_slots (offset_of numbytes_of : nat -> list ascii -> list ascii)
    (block : list ascii) (slots : list nat) : list sparse_entry :=
  match slots with
  | [] => []
  | i :: rest =>
      match parse_sparse_octal (offset_of i block),
            parse_sparse_octal (numbytes_of i block) with
      | Some offset, Some sz =>
          if sz =? 0 then []
          else mk_sparse_entry offset sz
                 :: sparse_slots offset_of numbytes_of block rest
      | _, _ => []
      end
  end.

(** The four slots of the header overlay. *)
Definition old_sparse_segments (block : list ascii) : list sparse_entry :=
  sparse_slots sp_offset sp_numbytes block (seq 0 4).

Definition last_segment_end (segs : list sparse_entry) : option Z :=
  match last segs with
  | Some l => Some (wrap64 (seg_offset l + seg_size l))
  | None => None
  end.

Definition parse_old_sparse_header (block : list ascii) : expected sparse_metadata :=
  let segs := old_sparse_segments block in
  let rs :=
    match parse_sparse_octal (sp_realsize block) with
    | Some r => r
    | None => match last_segment_end segs with Some e => e | None => 0 end
    end in
  Ok (mk_sparse_metadata rs segs).

(** *** parse_header *)

(** [std::filesystem::path{prefix} / name] on a POSIX system: an absolute
    right operand (or an empty left one) replaces the path; otherwise a
    separator is added unless the left operand already ends with one. *)
Definition ends_with_slash (s : string) : bool :=
  match last (bytes s) with
  | Some c => Ascii.eqb c "/"
  | None => false
  end.
Definition starts_with_slash (s : string) : bool :=
  match s with
  | String c _ => Ascii.eqb c "/"
  | EmptyString => false
  end.
Definition path_append (p1 p2 : string) : string :=
  if starts_with_slash p2 || String.eqb p1 "" then p2
  else if ends_with_slash p1 then (p1 ++ p2)%string
  else (p1 ++ "/" ++ p2)%string.

(** A [char] promoted to [int], as [std::to_string] prints it ([char] is
    signed on the x86-64 targets of the library). *)
Definition char_to_int (c : ascii) : Z :=
  if ord c >=? 128 then ord c - 256 else ord c.

Definition is_ok {A} (r : expected A) : bool := has_value r.

Definition value_or {A} (r : expected A) (d : A) : A :=
  match r with Ok a => a | Unexpected _ => d end.

(** [std::chrono::system_clock::from_time_t]: the time point counts
    nanoseconds in a signed 64-bit integer.  From 9223372037 seconds on
    the multiplication does not fit; C++ leaves that overflow undefined,
    and the 64-bit targets of the library wrap around. *)
Definition from_time_t (t : Z) : Z := to_int64 (t * 1000000000).

Definition parse_header (block : list ascii) : expected file_metadata :=
  (* Verify magic number for POSIX ustar or GNU tar format *)
  let magic := extract_string (hdr_magic block) in
  let is_ustar := String.eqb magic "ustar" in
  let is_gnu := is_gnu_tar_magic magic in
  if negb is_ustar && negb is_gnu then
    err invalid_header
      ("Not a POSIX ustar or GNU tar archive (magic: '" ++ magic ++ "')")
  else
  (* Verify version *)
  let version := extract_string (hdr_version block) in
  if negb (String.eqb version "00") && negb (String.eqb version " ") then
    err invalid_header "Unsupported tar version"
  else
  (* Parse and verify checksum *)
  match parse_octal (hdr_checksum block) with
  | Unexpected e => Unexpected e
  | Ok stored_checksum =>
  let calculated_checksum := calculate_checksum block in
  if negb (calculated_checksum =? stored_checksum) then
    err corrupt_archive "Header checksum mismatch"
  else
  (* Parse numeric fields *)
  match parse_octal (hdr_mode block), parse_octal (hdr_uid block),
        parse_octal (hdr_gid block), parse_octal (hdr_size block),
        parse_octal (hdr_mtime block) with
  | Ok mode, Ok uid, Ok gid, Ok sz, Ok mtime =>
      (* Build path from prefix + name *)
      let prefix := extract_string (hdr_prefix block) in
      let name := extract_string (hdr_name block) in
      let meta_path :=
        if negb (String.eqb prefix "") then path_append prefix name else name in
      (* Sparse detection in the GNU overlay *)
      let typeflag := hdr_typeflag block in
      let sparse :=
        if is_gnu
           && (Ascii.eqb typeflag (to_underlying regular_file)
               || Ascii.eqb typeflag (to_underlying gnu_sparse))
        then match parse_old_sparse_header block with
             | Ok sr => match segments sr with [] => None | _ :: _ => Some sr end
             | Unexpected _ => None
             end
        else None in
      (* Validate path *)
      if String.eqb meta_path "" then err invalid_header "Empty file path"
      else
      (* The type is regular_file when a sparse map was found (the default
         of the struct, or the explicit retyping of 'S'), else the cast of
         the type flag. *)
      let meta_type : option entry_type :=
        match sparse with
        | Some _ => Some regular_file
        | None => entry_type_of_char typeflag
        end in
      let is_type t :=
        match meta_type with Some t' => entry_type_eqb t' t | None => false end in
      let is_dev := is_type character_device || is_type block_device in
      let major := parse_octal (hdr_devmajor block) in
      let minor := parse_octal (hdr_devminor block) in
      let dev_major := if is_dev then wrap32 (value_or major 0) else 0 in
      let dev_minor := if is_dev then wrap32 (value_or minor 0) else 0 in
      let linkname := extract_string (hdr_linkname block) in
      let link :=
        if (is_type symbolic_link || is_type hard_link) && negb (String.eqb linkname "")
        then Some linkname else None in
      (* Validate entry type *)
      match meta_type with
      | None =>
          err unsupported_feature
            ("Unsupported entry type: " ++ pretty (char_to_int typeflag))
      | Some ty =>
          Ok (mk_file_metadata meta_path ty (Z.land mode 4095) (wrap32 uid)
                (wrap32 gid) sz (from_time_t (to_int64 mtime))
                (extract_string (hdr_uname block))
                (extract_string (hdr_gname block))
                link dev_major dev_minor sparse ∅ [] [])
      end
  | _, _, _, _, _ => err invalid_header "Failed to parse numeric fields"
  end
  end.

(** ** gnu_tar.hpp / gnu_tar.cpp *)

Record gnu_extension_data : Type := mk_gnu_extension_data {
  longname : string;   (* from 'L' type entries *)
  longlink : string    (* from 'K' type entries *)
}.

Definition has_longname (g : gnu_extension_data) : bool :=
  negb (String.eqb (longname g) "").
Definition has_longlink (g : gnu_extension_data) : bool :=
  negb (String.eqb (longlink g) "").
Definition gnu_clear : gnu_extension_data := mk_gnu_extension_data "" "".

(** [while (!result.empty() && result.back() == '\0') result.pop_back();] *)
Fixpoint pop_trailing_nuls (s : string) : string :=
  match s with
  | EmptyString => EmptyString
  | String c rest =>
      match pop_trailing_nuls rest with
      | EmptyString => if Ascii.eqb c NUL then EmptyString else String c EmptyString
      | t => String c t
      end
  end.

(** [(BLOCK_SIZE - (data_size % BLOCK_SIZE)) % BLOCK_SIZE] *)
Definition padding_of (data_size : Z) : Z :=
  (BLOCK_SIZE - data_size mod BLOCK_SIZE) mod BLOCK_SIZE.

Section GnuTar.
Context {S : Type} `{!InputStream S}.
Local Open Scope m_scope.

(** The read loop of [read_gnu_extension_data]; one unit of fuel per
    call of [stream.read]. *)
Fixpoint read_gnu_loop (fuel : nat) (remaining : Z) (result : list ascii)
    : M S (list ascii) :=
  if remaining >? 0 then
    match fuel with
    | O => out_of_fuel
    | Datatypes.S fuel' =>
        let to_read := Z.min remaining BLOCK_SIZE in
        chunk <- read to_read ;;
        if zlen chunk =? 0 then
          fail (mk_error corrupt_archive
                  "Unexpected end of stream while reading GNU extension data")
        else
          read_gnu_loop fuel' (wrap64 (remaining - zlen chunk)) (result ++ chunk)
    end
  else ret result.

Definition read_gnu_extension_data (fuel : nat) (data_size : Z) : M S string :=
  if data_size =? 0 then ret EmptyString
  else
    result <- read_gnu_loop fuel data_size [] ;;
    (* Skip padding to next block boundary *)
    let padding := padding_of data_size in
    (if padding >? 0 then skip padding else ret tt) ;;;
    (* GNU extensions are null-terminated, so remove trailing nulls *)
    ret (pop_trailing_nuls (str result)).

End GnuTar.

Definition apply_gnu_extensions (metadata : file_metadata)
    (extensions : gnu_extension_data) : file_metadata :=
  let m1 := if has_longname extensions
            then set_path (longname extensions) metadata else metadata in
  if has_longlink extensions
  then set_link_target (Some (longlink extensions)) m1 else m1.

(** ** <charconv>: [std::from_chars] in base 10

    The longest prefix of digits is converted (for a signed type after an
    optional minus sign); the call fails when there is no digit or when
    the value does not fit the type, and then leaves the target untouched.
    Characters after the digits are not an error. *)

Fixpoint decimal_prefix (l : list ascii) : list ascii :=
  match l with
  | c :: rest => if is_decimal_digit c then c :: decimal_prefix rest else []
  | [] => []
  end.

Definition decimal_value (ds : list ascii) : Z :=
  fold_left (fun acc c => acc * 10 + (ord c - ord "0")) ds 0.

Definition from_chars_unsigned (max : Z) (s : list ascii) : option Z :=
  match decimal_prefix s with
  | [] => None
  | ds => let v := decimal_value ds in if v >? max then None else Some v
  end.

Definition from_chars_u64 (s : string) : option Z :=
  from_chars_unsigned UINT64_MAX (bytes s).
Definition from_chars_u32 (s : string) : option Z :=
  from_chars_unsigned (2 ^ 32 - 1) (bytes s).

Definition from_chars_int (s : string) : option Z :=
  let '(neg, body) :=
    match bytes s with
    | c :: rest => if Ascii.eqb c "-" then (true, rest) else (false, c :: rest)
    | [] => (false, [])
    end in
  match decimal_prefix body with
  | [] => None
  | ds =>
      let v := if neg : bool then - decimal_value ds else decimal_value ds in
      if (v <? - 2 ^ 31) || (v >? 2 ^ 31 - 1) then None else Some v
  end.

(** ** pax_parser.hpp / pax_parser.cpp *)

Fixpoint split_first (d : ascii) (l : list ascii) : option (list ascii * list ascii) :=
  match l with
  | [] => None
  | c :: rest =>
      if Ascii.eqb c d then Some ([], rest)
      else match split_first d rest with
           | Some (a, b) => Some (c :: a, b)
           | None => None
           end
  end.

(** One record of [parse_pax_headers]; [rest] runs from [pos] to [end] and
    is not empty.  On success the key, the value and the record length.

    The source works on pointers: [record_end = record_start + length].
    Two of its steps have no defined outcome and give [None] here.
    - A record that would end behind the data is caught by the test
      [record_end > end] as long as the sum does not wrap around the
      address space.  The data lies in the lower half of the address
      space, so a length below 2^63 cannot wrap; for a longer one the
      outcome depends on the address of the data.
    - A length smaller than the length field and its space puts
      [record_end] before [key_start], and [std::find] is then called on
      a range whose end precedes its start. *)
Definition parse_pax_record (rest : list ascii)
    : option (expected (string * string * Z)) :=
  (* Parse length field *)
  let digits := decimal_prefix rest in
  let after := drop (length digits) rest in
  let bad_length :=
    err invalid_header
      ("Invalid PAX header length field, found: '" ++ str digits ++ "'") in
  match digits, after with
  | [], _ | _, [] => Some bad_length
  | _ :: _, c :: _ =>
    if negb (Ascii.eqb c SP) then Some bad_length else
    match from_chars_unsigned UINT64_MAX digits with
    | None => Some (err invalid_header "Failed to parse PAX header length")
    | Some len =>
      if len =? 0 then
        Some (err invalid_header "PAX header record length cannot be zero")
      else if len >? zlen rest then
        if len <? 2 ^ 63 then
          Some (err corrupt_archive "PAX header record extends beyond data")
        else None
      else
        let key_start := zlen digits + 1 in
        if len <? key_start then None else
        (* Skip the newline at the end when looking for '=' *)
        let value_end :=
          if (len >? key_start) && Ascii.eqb (nth (Z.to_nat (len - 1)) rest NUL) LF
          then len - 1 else len in
        let kv := ztake (value_end - key_start) (zdrop key_start rest) in
        match split_first "=" kv with
        | None => Some (err invalid_header "PAX header missing '=' separator")
        | Some (key, value) => Some (Ok (str key, str value, len))
        end
    end
  end.

(** The [while (pos < end && *pos != '\0')] loop.  Every record that is
    accepted is at least one byte long, so [length rest] steps suffice. *)
Fixpoint parse_pax_loop (fuel : nat) (rest : list ascii)
    (result : gmap string string) : option (expected (gmap string string)) :=
  match rest with
  | [] => Some (Ok result)
  | c :: _ =>
      if Ascii.eqb c NUL then Some (Ok result)
      else match fuel with
           | O => None
           | Datatypes.S fuel' =>
               match parse_pax_record rest with
               | None => None
               | Some (Unexpected e) => Some (Unexpected e)
               | Some (Ok (key, value, len)) =>
                   parse_pax_loop fuel' (zdrop len rest) (<[key := value]> result)
               end
           end
  end.

Definition parse_pax_headers (data : list ascii)
    : option (expected (gmap string string)) :=
  parse_pax_loop (length data) data ∅.

Definition contains (headers : gmap string string) (k : string) : bool :=
  bool_decide (is_Some (headers !! k)).

Definition has_gnu_sparse_markers (headers : gmap string string) : bool :=
  contains headers "GNU.sparse.major"
  || contains headers "GNU.sparse.minor"
  || contains headers "GNU.sparse.map".

Definition get_gnu_sparse_version (headers : gmap string string) : Z * Z :=
  let get k :=
    match headers !! k with
    | Some v => match from_chars_int v with Some n => n | None => 0 end
    | None => 0
    end in
  (get "GNU.sparse.major"%string, get "GNU.sparse.minor"%string).

Fixpoint strip_prefix (p s : string) : option string :=
  match p, s with
  | EmptyString, _ => Some s
  | String a p', String b s' => if Ascii.eqb a b then strip_prefix p' s' else None
  | String _ _, EmptyString => None
  end.

(** [std::map<std::string, std::string>] keeps its bindings in the order
    of [std::less<std::string>]: byte by byte, a proper prefix first. *)
Definition key_le (a b : string * string) : Prop :=
  String.leb (fst a) (fst b) = true.

#[export] Instance key_le_dec : RelDecision key_le :=
  fun a b => decide (String.leb (fst a) (fst b) = true).

(** The bindings of a map in the order in which a range-for loop visits
    them. *)
Definition in_key_order (headers : gmap string string) : list (string * string) :=
  merge_sort key_le (map_to_list headers).

(** The body of the loop of [extract_extended_attributes]:
    [result[attr_name] = value] for a key with one of the two prefixes,
    [attr_name] being the key without the prefix. *)
Definition store_xattr (result : gmap string string) (kv : string * string)
    : gmap string string :=
  match strip_prefix "SCHILY.xattr." (fst kv) with
  | Some attr_name => <[attr_name := snd kv]> result
  | None =>
      match strip_prefix "LIBARCHIVE.xattr." (fst kv) with
      | Some attr_name => <[attr_name := snd kv]> result
      | None => result
      end
  end.

(** [extract_extended_attributes] walks the [std::map] in key order; a
    later assignment to the same attribute name overwrites an earlier
    one. *)
Definition extract_extended_attributes (headers : gmap string string)
    : gmap string string :=
  fold_left store_xattr (in_key_order headers) ∅.

(** *** ACL text *)

Definition is_blank (c : ascii) : bool := Ascii.eqb c SP || Ascii.eqb c TAB.

Fixpoint drop_blanks (l : list ascii) : list ascii :=
  match l with
  | c :: rest => if is_blank c then drop_blanks rest else l
  | [] => []
  end.

(** [erase(0, find_first_not_of(" \t"))] then
    [erase(find_last_not_of(" \t") + 1)]. *)
Definition trim (l : list ascii) : list ascii :=
  rev (drop_blanks (rev (drop_blanks l))).

(** [std::getline(stream, s, d)] on what is left of a string stream: it
    fails when nothing is left; otherwise it takes the characters before
    the first [d] (all of them when there is none) and discards the [d]. *)
Definition getline (d : ascii) (l : list ascii) : option (list ascii * list ascii) :=
  match l with
  | [] => None
  | _ :: _ => Some (match split_first d l with
                    | Some ab => ab
                    | None => (l, [])
                    end)
  end.

(** The pieces that [while (std::getline(stream, entry_str, ','))] sees. *)
Fixpoint getline_all (d : ascii) (l : list ascii) : list (list ascii) :=
  match l with
  | [] => []
  | c :: rest =>
      if Ascii.eqb c d then [] :: getline_all d rest
      else match getline_all d rest with
           | [] => [[c]]
           | p :: ps => (c :: p) :: ps
           end
  end.

(** The three parts of one entry, ["type:id:permissions"]. *)
Definition split_acl_entry (entry_str : list ascii)
    : option (list ascii * list ascii * list ascii) :=
  match getline ":" entry_str with
  | None => None
  | Some (type_str, r1) =>
      match getline ":" r1 with
      | None => None
      | Some (id_str, r2) =>
          match getline LF r2 with
          | None => None
          | Some (perm_str, _) => Some (type_str, id_str, perm_str)
          end
      end
  end.

(** The permission bits of a three-character permission string. *)
Definition parse_perms (perm_str : list ascii) : Z :=
  let bit (i : nat) (c : ascii) (v : Z) :=
    if Ascii.eqb (nth i perm_str NUL) c then v else 0 in
  Z.lor (Z.lor (bit 0%nat "r"%char perm_read) (bit 1%nat "w"%char perm_write))
        (bit 2%nat "x"%char perm_execute).

Definition parse_acl_entry (entry_str : list ascii) : expected acl_entry :=
  match split_acl_entry entry_str with
  | None => err invalid_header ("Invalid ACL entry format: " ++ str entry_str)
  | Some (type_str, id_str, perm_str) =>
    let id_empty := match id_str with [] => true | _ => false end in
    let ty : option acl_type :=
      if String.eqb (str type_str) "user" then
        Some (if id_empty then acl_user_obj else acl_user)
      else if String.eqb (str type_str) "group" then
        Some (if id_empty then acl_group_obj else acl_group)
      else if String.eqb (str type_str) "mask" then Some acl_mask
      else if String.eqb (str type_str) "other" then Some acl_other
      else None in
    match ty with
    | None => err invalid_header ("Unknown ACL entry type: " ++ str type_str)
    | Some entry_type =>
      (* Parse ID (if present) *)
      let id : expected Z :=
        if id_empty then Ok 0
        else match from_chars_u32 (str id_str) with
             | Some n => Ok n
             | None => err invalid_header ("Invalid ACL ID: " ++ str id_str)
             end in
      match id with
      | Unexpected e => Unexpected e
      | Ok n =>
        (* Parse permissions *)
        if negb (zlen perm_str =? 3) then
          err invalid_header ("Invalid ACL permission format: " ++ str perm_str)
        else Ok (mk_acl_entry entry_type n (parse_perms perm_str) "")
      end
    end
  end.

(** The body of the loop of [parse_acl_text] over the comma-separated
    pieces: blank pieces are skipped, the first error ends the parse. *)
Fixpoint parse_acl_entries (pieces : list (list ascii)) (result : list acl_entry)
    : expected (list acl_entry) :=
  match pieces with
  | [] => Ok result
  | piece :: rest =>
      let entry_str := trim piece in
      match entry_str with
      | [] => parse_acl_entries rest result
      | _ :: _ =>
          match parse_acl_entry entry_str with
          | Unexpected e => Unexpected e
          | Ok entry => parse_acl_entries rest (result ++ [entry])
          end
      end
  end.

Definition parse_acl_text (acl_text : string) : expected (list acl_entry) :=
  parse_acl_entries (getline_all "," (bytes acl_text)) [].

(** [extract_acls]: a text that does not parse leaves its list empty. *)
Definition extract_acls (headers : gmap string string)
    : list acl_entry * list acl_entry :=
  let get k :=
    match headers !! k with
    | Some text => value_or (parse_acl_text text) []
    | None => []
    end in
  (get "SCHILY.acl.access"%string, get "SCHILY.acl.default"%string).

(** ** sparse.cpp: maps read from the stream *)

(** [data.find("\n\n")] *)
Fixpoint find_double_newline (l : list ascii) (i : Z) : option Z :=
  match l with
  | a :: rest =>
      match rest with
      | b :: _ =>
          if Ascii.eqb a LF && Ascii.eqb b LF then Some i
          else find_double_newline rest (i + 1)
      | [] => None
      end
  | [] => None
  end.

(** [data.find('\0')] *)
Fixpoint find_nul (l : list ascii) (i : Z) : option Z :=
  match l with
  | a :: rest => if Ascii.eqb a NUL then Some i else find_nul rest (i + 1)
  | [] => None
  end.

Definition is_map_space (c : ascii) : bool :=
  Ascii.eqb c SP || Ascii.eqb c LF || Ascii.eqb c TAB.

Fixpoint skip_map_space (l : list ascii) : list ascii :=
  match l with
  | c :: rest => if is_map_space c then skip_map_space rest else l
  | [] => []
  end.

(** The number-collecting loop of [parse_sparse_1_0_data_map]; every
    round consumes at least one digit, so [length map_data] rounds
    suffice. *)
Fixpoint collect_numbers (fuel : nat) (map_data : list ascii) (numbers : list Z)
    : option (expected (list Z)) :=
  match skip_map_space map_data with
  | [] => Some (Ok numbers)
  | rest =>
      match decimal_prefix rest with
      | [] => Some (Ok numbers)            (* no more numbers *)
      | ds =>
          match from_chars_unsigned UINT64_MAX ds with
          | None => Some (err invalid_header
                            "Invalid number in sparse map data block")
          | Some number =>
              match fuel with
              | O => None
              | Datatypes.S fuel' =>
                  collect_numbers fuel' (drop (length ds) rest) (numbers ++ [number])
              end
          end
      end
  end.

(** [for (size_t i = 1; i + 1 < numbers.size(); i += 2)]: [l] is
    [numbers] from index [i] on. *)
Fixpoint sparse_1_0_pairs (real_size : Z) (l : list Z) : list sparse_entry :=
  match l with
  | offset :: sz :: rest =>
      if (sz =? 0) || (sz >? real_size)
         || (wrap64 (offset + sz) >? wrap64 (real_size * 2))
      then []
      else mk_sparse_entry offset sz :: sparse_1_0_pairs real_size rest
  | _ => []
  end.

(** The part of [parse_sparse_1_0_data_map] that follows the read: from
    the bytes of the block to the descriptor. *)
Definition sparse_1_0_of_block (data : list ascii) (real_size : Z)
    : option (expected sparse_metadata) :=
  let map_end :=
    match find_double_newline data 0 with
    | Some i => i
    | None => match find_nul data 0 with
              | Some i => i
              | None => zlen data
              end
    end in
  let map_data := ztake map_end data in
  match collect_numbers (length map_data) map_data [] with
  | None => None
  | Some (Unexpected e) => Some (Unexpected e)
  | Some (Ok numbers) =>
      Some (Ok (mk_sparse_metadata real_size
                  (if zlen numbers >=? 4
                   then sparse_1_0_pairs real_size (drop 1 numbers)
                   else [])))
  end.

(** The 21 slots of an extended sparse record and its continuation flag. *)
Definition ext_offset (i : nat) := field (24 * i) 12.
Definition ext_numbytes (i : nat) := field (24 * i + 12) 12.
Definition SPARSE_EXT_ENTRIES : nat := 21.
Definition ext_isextended (block : list ascii) : ascii :=
  nth (SPARSE_EXT_ENTRIES * 24) block NUL.

Section SparseStream.
Context {S : Type} `{!InputStream S}.
Local Open Scope m_scope.

Definition parse_sparse_1_0_data_map (real_size : Z) : M S sparse_metadata :=
  (* Read one block to get the sparse map *)
  block <- read 512 ;;
  if zlen block =? 0 then ret (mk_sparse_metadata real_size [])   (* empty file *)
  else lift_fuel (sparse_1_0_of_block block real_size).

(** [read_sparse_map_continuation]: one unit of fuel per record read. *)
Fixpoint read_sparse_map_continuation_loop (fuel : nat) (result : list sparse_entry)
    : M S (list sparse_entry) :=
  match fuel with
  | O => out_of_fuel
  | Datatypes.S fuel' =>
      block <- read 512 ;;
      if negb (zlen block =? 512) then
        fail (mk_error corrupt_archive "Incomplete sparse extension block")
      else
        let result' :=
          result ++ sparse_slots ext_offset ext_numbytes block
                      (seq 0 SPARSE_EXT_ENTRIES) in
        if negb (Ascii.eqb (ext_isextended block) "1") then ret result'
        else read_sparse_map_continuation_loop fuel' result'
  end.

Definition read_sparse_map_continuation (fuel : nat) : M S (list sparse_entry) :=
  read_sparse_map_continuation_loop fuel [].

End SparseStream.

(** ** archive_entry.hpp *)

(** What an entry reads its data from.  In streaming mode the source holds
    a closure over the reader's stream and its two counters; the closure
    built by [make_sparse_reader] also holds a copy of the descriptor.
    The closures are kept as data and run against the reader by
    [read_data] below. *)
Inductive data_source : Type :=
  | base_reader_fn
  | sparse_reader_fn (sparse : sparse_metadata)
  | mapped_span (data : list ascii).

Record archive_entry : Type := mk_archive_entry {
  metadata_ : file_metadata;
  data_source_ : data_source
}.

Definition entry_path (e : archive_entry) : string := path (metadata_ e).
Definition entry_size (e : archive_entry) : Z := size (metadata_ e).
Definition entry_link_target (e : archive_entry) : option string :=
  link_target (metadata_ e).

(** ** archive_reader.hpp / archive_reader.cpp *)

Record archive_reader (S : Type) : Type := mk_archive_reader {
  stream_ : S;
  current_entry_ : option archive_entry;
  current_entry_data_remaining_ : Z;
  current_entry_data_consumed_ : Z;
  finished_ : bool;
  pending_gnu_extensions_ : gnu_extension_data;
  pending_sparse_info_ : option sparse_metadata;
  pending_pax_headers_ : gmap string string;
  needs_sparse_1_0_processing_ : bool
}.
Arguments mk_archive_reader {S}.
Arguments stream_ {S}.
Arguments current_entry_ {S}.
Arguments current_entry_data_remaining_ {S}.
Arguments current_entry_data_consumed_ {S}.
Arguments finished_ {S}.
Arguments pending_gnu_extensions_ {S}.
Arguments pending_sparse_info_ {S}.
Arguments pending_pax_headers_ {S}.
Arguments needs_sparse_1_0_processing_ {S}.

(** The constructor [archive_reader(std::unique_ptr<input_stream>)]. *)
Definition new_reader {S} (s : S) : archive_reader S :=
  mk_archive_reader s None 0 0 false gnu_clear None ∅ false.

Section Reader.
Context {S : Type} `{!InputStream S}.
Local Open Scope m_scope.

Abbreviation R := (archive_reader S).

Definition set_stream (s : S) (r : R) : R :=
  mk_archive_reader s (current_entry_ r) (current_entry_data_remaining_ r)
    (current_entry_data_consumed_ r) (finished_ r) (pending_gnu_extensions_ r)
    (pending_sparse_info_ r) (pending_pax_headers_ r)
    (needs_sparse_1_0_processing_ r).
Definition set_current_entry (e : option archive_entry) (r : R) : R :=
  mk_archive_reader (stream_ r) e (current_entry_data_remaining_ r)
    (current_entry_data_consumed_ r) (finished_ r) (pending_gnu_extensions_ r)
    (pending_sparse_info_ r) (pending_pax_headers_ r)
    (needs_sparse_1_0_processing_ r).
Definition set_counters (remaining consumed : Z) (r : R) : R :=
  mk_archive_reader (stream_ r) (current_entry_ r) remaining consumed
    (finished_ r) (pending_gnu_extensions_ r)
    (pending_sparse_info_ r) (pending_pax_headers_ r)
    (needs_sparse_1_0_processing_ r).
Definition set_finished (b : bool) (r : R) : R :=
  mk_archive_reader (stream_ r) (current_entry_ r) (current_entry_data_remaining_ r)
    (current_entry_data_consumed_ r) b (pending_gnu_extensions_ r)
    (pending_sparse_info_ r) (pending_pax_headers_ r)
    (needs_sparse_1_0_processing_ r).
Definition set_pending_gnu (g : gnu_extension_data) (r : R) : R :=
  mk_archive_reader (stream_ r) (current_entry_ r) (current_entry_data_remaining_ r)
    (current_entry_data_consumed_ r) (finished_ r) g
    (pending_sparse_info_ r) (pending_pax_headers_ r)
    (needs_sparse_1_0_processing_ r).
Definition set_pending_sparse (sp : option sparse_metadata) (r : R) : R :=
  mk_archive_reader (stream_ r) (current_entry_ r) (current_entry_data_remaining_ r)
    (current_entry_data_consumed_ r) (finished_ r) (pending_gnu_extensions_ r)
    sp (pending_pax_headers_ r) (needs_sparse_1_0_processing_ r).
Definition set_pending_pax (p : gmap string string) (r : R) : R :=
  mk_archive_reader (stream_ r) (current_entry_ r) (current_entry_data_remaining_ r)
    (current_entry_data_consumed_ r) (finished_ r) (pending_gnu_extensions_ r)
    (pending_sparse_info_ r) p (needs_sparse_1_0_processing_ r).
Definition set_needs_sparse_1_0 (b : bool) (r : R) : R :=
  mk_archive_reader (stream_ r) (current_entry_ r) (current_entry_data_remaining_ r)
    (current_entry_data_consumed_ r) (finished_ r) (pending_gnu_extensions_ r)
    (pending_sparse_info_ r) (pending_pax_headers_ r) b.

(** Run a stream computation on [stream_]. *)
Definition on_stream {A} (m : M S A) : M R A := fun r =>
  match m (stream_ r) with
  | Some (res, s') => Some (res, set_stream s' r)
  | None => None
  end.

Definition read_block : M R (list ascii) :=
  block <- on_stream (read BLOCK_SIZE) ;;
  if negb (zlen block =? BLOCK_SIZE) then
    ended <- on_stream at_end ;;
    if (zlen block =? 0) && ended then
      fail (mk_error end_of_archive "Unexpected end of archive")
    else fail (mk_error corrupt_archive "Incomplete block read")
  else ret block.

Definition skip_padding (data_size : Z) : M R unit :=
  let padding := padding_of data_size in
  if padding >? 0 then on_stream (skip padding) else ret tt.

Definition skip_current_entry_data : M R unit :=
  r <- get ;;
  (* Calculate how much data still needs to be skipped *)
  let total_entry_size :=
    match current_entry_ r with Some e => entry_size e | None => 0 end in
  let data_to_skip := current_entry_data_remaining_ r in
  (* Skip any remaining data *)
  (if data_to_skip >? 0 then on_stream (skip data_to_skip) else ret tt) ;;;
  (* ALWAYS skip padding if we had any data (even if it was all consumed) *)
  (if total_entry_size >? 0 then skip_padding total_entry_size else ret tt) ;;;
  modify (set_counters 0 0).

Definition process_sparse_file (fuel : nat) (meta : file_metadata) : M R unit :=
  match sparse_info meta with
  | None => fail (mk_error invalid_header "Sparse file entry without sparse info")
  | Some info =>
      (* Read extended sparse headers *)
      extended_segments <- on_stream (read_sparse_map_continuation fuel) ;;
      (* Add the extended segments to our sparse info *)
      let segs := segments info ++ extended_segments in
      (* Recalculate real size based on all segments *)
      let rs := match last_segment_end segs with
                | Some e => e
                | None => real_size info
                end in
      modify (set_pending_sparse (Some (mk_sparse_metadata rs segs)))
  end.

Definition process_gnu_extension (fuel : nat) (meta : file_metadata) : M R bool :=
  if is_gnu_longname meta then
    (* Read the long filename *)
    name <- on_stream (read_gnu_extension_data fuel (size meta)) ;;
    modify (fun r => set_pending_gnu
              (mk_gnu_extension_data name (longlink (pending_gnu_extensions_ r))) r) ;;;
    ret true
  else if is_gnu_longlink meta then
    (* Read the long link target *)
    link <- on_stream (read_gnu_extension_data fuel (size meta)) ;;
    modify (fun r => set_pending_gnu
              (mk_gnu_extension_data (longname (pending_gnu_extensions_ r)) link) r) ;;;
    ret true
  else if entry_type_eqb (type meta) gnu_sparse then
    process_sparse_file fuel meta ;;;
    ret true
  else if entry_type_eqb (type meta) gnu_volhdr
          || entry_type_eqb (type meta) gnu_multivol then
    (* Skip the data for unsupported GNU extensions *)
    on_stream (skip (size meta)) ;;;
    skip_padding (size meta) ;;;
    ret true
  else ret false.

Definition process_pax_header (meta : file_metadata) : M R bool :=
  if entry_type_eqb (type meta) pax_extended_header then
    (* Read PAX header data *)
    pax_data <- on_stream (read (size meta)) ;;
    if negb (zlen pax_data =? size meta) then
      fail (mk_error corrupt_archive "Incomplete PAX header data")
    else
      (* Parse PAX headers *)
      parsed <- lift_fuel (parse_pax_headers pax_data) ;;
      (* Store PAX headers for the next entry *)
      modify (set_pending_pax parsed) ;;;
      skip_padding (size meta) ;;;
      ret true
  else if entry_type_eqb (type meta) pax_global_header then
    (* For now, skip global PAX headers *)
    on_stream (skip (size meta)) ;;;
    skip_padding (size meta) ;;;
    ret true
  else ret false.

(** The block of [next_entry] guarded by [!pending_pax_headers_.empty()],
    as a function of the pending headers and the metadata: the new
    metadata, and whether the sparse 1.0 map in the data block is armed. *)
Definition apply_pax_headers (pax : gmap string string) (m : file_metadata)
    : file_metadata * bool :=
  (* Apply standard PAX header overrides *)
  let m1 := match pax !! "path"%string with
            | Some p => set_path p m
            | None => m
            end in
  let m2 := match pax !! "size"%string with
            | Some v => match from_chars_u64 v with
                        | Some pax_size => set_size pax_size m1
                        | None => m1
                        end
            | None => m1
            end in
  (* Check for GNU sparse format 1.0 *)
  let version := get_gnu_sparse_version pax in
  let '(m3, armed) :=
    if has_gnu_sparse_markers pax && (fst version =? 1) && (snd version =? 0) then
      let rs := match pax !! "GNU.sparse.realsize"%string with
                | Some v => match from_chars_u64 v with
                            | Some n => n
                            | None => size m2
                            end
                | None => size m2
                end in
      (set_sparse_info (Some (mk_sparse_metadata rs [])) (set_size rs m2), true)
    else (m2, false) in
  (* Extract extended attributes and POSIX ACLs from PAX headers *)
  let acls := extract_acls pax in
  (set_xattrs_acls (extract_extended_attributes pax) (fst acls) (snd acls) m3,
   armed).

Definition pax_is_empty (pax : gmap string string) : bool :=
  match map_to_list pax with [] => true | _ :: _ => false end.

(** [next_entry], from "Apply any pending GNU extensions" to the end: the
    header [meta] is that of a real entry. *)
Definition emit_entry (meta : file_metadata) : M R (option archive_entry) :=
  (* Apply any pending GNU extensions to the metadata *)
  r <- get ;;
  let final0 := apply_gnu_extensions meta (pending_gnu_extensions_ r) in
  modify (set_pending_gnu gnu_clear) ;;;
  (* Apply PAX headers to metadata *)
  final1 <-
    (if negb (pax_is_empty (pending_pax_headers_ r)) then
       let '(m, armed) := apply_pax_headers (pending_pax_headers_ r) final0 in
       modify (fun r => set_pending_pax ∅
                 (if armed then set_needs_sparse_1_0 true r else r)) ;;;
       ret m
     else ret final0) ;;
  (* Apply pending sparse info if we have any (from the old format) *)
  final2 <-
    (match pending_sparse_info_ r with
     | Some sp =>
         if is_regular_file final1 then
           modify (set_pending_sparse None) ;;;
           ret (set_sparse_info (Some sp) final1)
         else ret final1
     | None => ret final1
     end) ;;
  (* Handle GNU sparse format 1.0 data block processing *)
  r2 <- get ;;
  final3 <-
    (match needs_sparse_1_0_processing_ r2, sparse_info final2 with
     | true, Some sp =>
         res <- try (on_stream (parse_sparse_1_0_data_map (real_size sp))) ;;
         modify (set_needs_sparse_1_0 false) ;;;
         ret (match res with
              | Ok sm => set_sparse_info (Some sm) final2
              | Unexpected _ => final2
              end)
     | _, _ => ret final2
     end) ;;
  (* Create entry with data reader *)
  let '(final4, remaining) :=
    match sparse_info final3 with
    | Some sp => (set_size (real_size sp) final3, total_data_size sp)
    | None => (final3, size final3)
    end in
  modify (set_counters remaining 0) ;;;
  let reader := match sparse_info final4 with
                | Some sp => sparse_reader_fn sp
                | None => base_reader_fn
                end in
  let entry := mk_archive_entry final4 reader in
  modify (set_current_entry (Some entry)) ;;;
  ret (Some entry).

(** [next_entry], from "Skip any remaining data from the previous entry"
    to "Parse header": [None] when the archive ended, else the header. *)
Definition read_header : M R (option file_metadata) :=
  skip_current_entry_data ;;;
  modify (fun r => set_counters 0 0 (set_current_entry None r)) ;;;
  (* Read header block *)
  block_result <- try read_block ;;
  match block_result with
  | Unexpected e =>
      if error_code_eqb (code e) end_of_archive then
        modify (set_finished true) ;;; ret None
      else fail e
  | Ok block =>
      (* Check for end-of-archive (two zero blocks) *)
      if is_zero_block block then
        second_block <- try read_block ;;
        if match second_block with
           | Ok b2 => is_zero_block b2
           | Unexpected _ => false
           end
        then modify (set_finished true) ;;; ret None   (* normal end of archive *)
        else fail (mk_error corrupt_archive "Single zero block in archive")
      else
        meta <- lift (parse_header block) ;;
        ret (Some meta)
  end.

(** [next_entry]; each call, the recursive ones after an extension record
    included, costs one unit of fuel. *)
Fixpoint next_entry (fuel : nat) : M R (option archive_entry) :=
  match fuel with
  | O => out_of_fuel
  | Datatypes.S fuel' =>
      r <- get ;;
      if finished_ r then ret None else
      h <- read_header ;;
      match h with
      | None => ret None
      | Some meta =>
          (* Check if this is a GNU extension entry *)
          gnu <- (if is_gnu_extension meta
                  then process_gnu_extension fuel' meta else ret false) ;;
          if gnu then next_entry fuel' else
          (* Check if this is a PAX extended header entry *)
          pax <- (if is_pax_header meta
                  then process_pax_header meta else ret false) ;;
          if pax then next_entry fuel' else
          emit_entry meta
      end
  end.

(** *** Reading the data of an entry *)

(** The [base_reader] closure of [next_entry]; it works on the stream and
    the two counters of the reader. *)
Definition base_reader (offset length : Z) : M R (list ascii) :=
  if offset >? 0 then
    fail (mk_error unsupported_feature "Streaming mode doesn't support offset reads")
  else
  r <- get ;;
  (* Only read from where we left off *)
  if offset <? current_entry_data_consumed_ r then
    fail (mk_error invalid_operation "Cannot seek backwards in streaming mode")
  else
  (* Skip any gap between consumed and requested offset *)
  let skip_amount := wrap64 (offset - current_entry_data_consumed_ r) in
  (if skip_amount >? 0 then
     on_stream (skip skip_amount) ;;;
     modify (fun r => set_counters
               (wrap64 (current_entry_data_remaining_ r - skip_amount))
               (wrap64 (current_entry_data_consumed_ r + skip_amount)) r)
   else ret tt) ;;;
  r <- get ;;
  let to_read := Z.min length (current_entry_data_remaining_ r) in
  if to_read =? 0 then ret []
  else
    result <- on_stream (read to_read) ;;
    modify (fun r => set_counters
              (wrap64 (current_entry_data_remaining_ r - zlen result))
              (wrap64 (current_entry_data_consumed_ r + zlen result)) r) ;;;
    ret result.

(** sparse_reader.hpp: the start of the next segment after [current_offset],
    or the real size. *)
Fixpoint next_segment_start (segs : list sparse_entry) (current_offset dflt : Z) : Z :=
  match segs with
  | seg :: rest =>
      if seg_offset seg >? current_offset then seg_offset seg
      else next_segment_start rest current_offset dflt
  | [] => dflt
  end.

(** The sum of the sizes of the first [idx] segments. *)
Definition sparse_data_offset_before (segs : list sparse_entry) (idx : Z) : Z :=
  fold_left (fun acc seg => wrap64 (acc + seg_size seg)) (ztake idx segs) 0.

(** [std::vector<std::byte>::max_size()] on the 64-bit targets of the
    library.  [reserve], [resize] and [insert] throw [std::length_error]
    when the vector would have to hold more. *)
Definition VECTOR_MAX_SIZE : Z := 2 ^ 63 - 1.

(** The [while (remaining > 0)] loop of the closure returned by
    [make_sparse_reader]; one unit of fuel per round.  [result_buffer] is
    the thread-local vector the closure fills; [zero_buffer] holds zeros
    only and grows on demand. *)
Fixpoint sparse_read_loop (fuel : nat) (sparse_info : sparse_metadata)
    (current_offset remaining : Z) (result_buffer : list ascii) : M R (list ascii) :=
  if remaining >? 0 then
    match fuel with
    | O => out_of_fuel
    | Datatypes.S fuel' =>
        match find_segment sparse_info current_offset with
        | Some segment_idx =>
            (* We're in a data segment *)
            let segment :=
              nth (Z.to_nat segment_idx) (segments sparse_info) (mk_sparse_entry 0 0) in
            let segment_offset := wrap64 (current_offset - seg_offset segment) in
            let segment_remaining := wrap64 (seg_size segment - segment_offset) in
            let to_read := Z.min remaining segment_remaining in
            (* Calculate the actual offset in the sparse data *)
            let sparse_data_offset :=
              wrap64 (sparse_data_offset_before (segments sparse_info) segment_idx
                      + segment_offset) in
            (* Read from the underlying reader *)
            read_result <- base_reader sparse_data_offset to_read ;;
            (* Append to result *)
            if zlen result_buffer + zlen read_result >? VECTOR_MAX_SIZE then throws
            else
            sparse_read_loop fuel' sparse_info
              (wrap64 (current_offset + zlen read_result))
              (wrap64 (remaining - zlen read_result))
              (result_buffer ++ read_result)
        | None =>
            (* We're in a hole - return zeros *)
            let next_start :=
              next_segment_start (segments sparse_info) current_offset
                (real_size sparse_info) in
            let hole_size := wrap64 (next_start - current_offset) in
            let to_fill := Z.min remaining hole_size in
            (* Resize zero buffer if needed *)
            if to_fill >? VECTOR_MAX_SIZE then throws
            (* Append zeros to result *)
            else if zlen result_buffer + to_fill >? VECTOR_MAX_SIZE then throws
            else
            sparse_read_loop fuel' sparse_info
              (wrap64 (current_offset + to_fill))
              (wrap64 (remaining - to_fill))
              (result_buffer ++ replicate (Z.to_nat to_fill) NUL)
        end
    end
  else ret result_buffer.

(** The closure returned by [make_sparse_reader]. *)
Definition sparse_reader (fuel : nat) (sparse_info : sparse_metadata)
    (offset length : Z) : M R (list ascii) :=
  if offset >=? real_size sparse_info then ret []
  else
    let max_readable := wrap64 (real_size sparse_info - offset) in
    let length := Z.min length max_readable in
    (* result_buffer.reserve(length) *)
    if length >? VECTOR_MAX_SIZE then throws
    else sparse_read_loop fuel sparse_info offset length [].

(** [archive_entry::read_data] *)
Definition read_data (fuel : nat) (e : archive_entry) (offset length : Z)
    : M R (list ascii) :=
  if negb (is_regular_file (metadata_ e)) then
    fail (mk_error invalid_operation "Entry is not a regular file")
  else
    match data_source_ e with
    | mapped_span source =>
        let start_offset := Z.min offset (zlen source) in
        let available := zlen source - start_offset in
        ret (ztake (Z.min length available) (zdrop start_offset source))
    | base_reader_fn => base_reader offset length
    | sparse_reader_fn sp => sparse_reader fuel sp offset length
    end.

(** *** archive_reader::iterator *)

(** [reader_] points to the reader or is null; the reader it points to is
    passed to [operator++] as the state. *)
Record iterator : Type := mk_iterator {
  reader_ : option positive;
  current_ : option archive_entry;
  error_occurred_ : bool
}.

(** The default-constructed iterator, returned by [end()]. *)
Definition end_iterator : iterator := mk_iterator None None false.

(** [iterator::operator++] *)
Definition iterator_increment (fuel : nat) (it : iterator) (r : R)
    : option (iterator * R) :=
  match reader_ it with
  | Some this =>
      if error_occurred_ it then Some (it, r)
      else match next_entry fuel r with
           | None => None
           | Some (Ok (Some entry), r') =>
               Some (mk_iterator (Some this) (Some entry) (error_occurred_ it), r')
           | Some (Ok None, r') =>
               Some (mk_iterator None None (error_occurred_ it), r')
           | Some (Unexpected _, r') =>
               Some (mk_iterator None None true, r')
           end
  | None => Some (it, r)
  end.

(** [iterator::operator==] *)
Definition iterator_eq (a b : iterator) : bool :=
  bool_decide (reader_ a = reader_ b).

Definition has_error (it : iterator) : bool := error_occurred_ it.

(** [archive_reader::begin]: [iterator{this}] loads the first entry. *)
Definition begin (fuel : nat) (this : positive) (r : R) : option (iterator * R) :=
  iterator_increment fuel (mk_iterator (Some this) None false) r.


End Reader.

(** *** The text of a sparse 1.0 map *)

(** A decimal number as it stands in the map: digits, at least one, with
    a value that fits 64 bits. *)
Definition is_number_token (ds : list ascii) : Prop :=
  ds <> [] /\ forallb is_decimal_digit ds = true /\ decimal_value ds <= UINT64_MAX.



Definition segment_of_pair (p : list ascii * list ascii) : sparse_entry :=
  mk_sparse_entry (decimal_value (fst p)) (decimal_value (snd p)).


(** ** Archives for the examples

    The fixtures follow [create_header_with_fields] of the header-parser
    tests: every field is copied at its offset of a zeroed record and the
    checksum is stored as six octal digits, a space and a NUL. *)
Module Fixtures.

(** [strncpy(dst, src, n)] into a field of [n] bytes. *)
Definition strncpy (n : nat) (src : string) : list ascii :=
  take n (bytes src ++ replicate n NUL).

Fixpoint octal_digits (n : nat) (v : Z) : list ascii :=
  match n with
  | O => []
  | Datatypes.S n' => octal_digits n' (v / 8) ++ [chr (ord "0" + v mod 8)]
  end.

(** [patch off new block]: [block] with [new] written at offset [off]. *)
Definition patch (off : nat) (new block : list ascii) : list ascii :=
  take off block ++ new ++ drop (off + length new) block.

Record fields : Type := mk_fields {
  f_name : string; f_mode : string; f_uid : string; f_gid : string;
  f_size : string; f_mtime : string; f_typeflag : ascii; f_linkname : string;
  f_magic : string; f_version : string; f_uname : string; f_gname : string;
  f_prefix : string
}.

Definition default_fields : fields :=
  mk_fields "test.txt" "0000644" "0001000" "0001000" "00000000010" "14371573624"
            "0" "" "ustar" "00" "testuser" "testgroup" "".

Definition with_checksum (block : list ascii) : list ascii :=
  patch 148 (octal_digits 6 (calculate_checksum block) ++ [SP; NUL]) block.

Definition raw_header (f : fields) : list ascii :=
  patch 0 (strncpy 100 (f_name f))
  (patch 100 (strncpy 8 (f_mode f))
  (patch 108 (strncpy 8 (f_uid f))
  (patch 116 (strncpy 8 (f_gid f))
  (patch 124 (strncpy 12 (f_size f))
  (patch 136 (strncpy 12 (f_mtime f))
  (patch 156 [f_typeflag f]
  (patch 157 (strncpy 100 (f_linkname f))
  (patch 257 (strncpy 6 (f_magic f))
  (patch 263 (strncpy 2 (f_version f))
  (patch 265 (strncpy 32 (f_uname f))
  (patch 297 (strncpy 32 (f_gname f))
  (patch 345 (strncpy 155 (f_prefix f))
         (replicate 512 NUL))))))))))))).

Definition create_header (f : fields) : list ascii := with_checksum (raw_header f).

(** A payload followed by the padding to the next record boundary. *)
Definition padded (payload : list ascii) : list ascii :=
  payload ++ replicate (Z.to_nat (padding_of (zlen payload))) NUL.

Definition zero_block : list ascii := replicate 512 NUL.

Definition file_header (name size : string) (typeflag : ascii) : list ascii :=
  create_header
    (mk_fields name "0000644" "0001000" "0001000" size "14371573624"
               typeflag "" "ustar" "00" "testuser" "testgroup" "").

(** A size as the eleven octal digits of the header field. *)
Definition octal11 (n : Z) : string := str (octal_digits 11 n).



End Fixtures.

(** ** Concrete archives used as examples *)
Module Examples.
Import Fixtures.


(** A header whose version field is empty (two NUL bytes); everything
    else is as in the default test header. *)
Definition empty_version_header : list ascii :=
  create_header
    (mk_fields "test.txt" "0000644" "0001000" "0001000" "00000000010"
               "14371573624" "0" "" "ustar" "" "testuser" "testgroup" "").

(** GNU style: magic "ustar " and version " " followed by NUL. *)
Definition gnu_version_header : list ascii :=
  create_header
    (mk_fields "test.txt" "0000644" "0001000" "0001000" "00000000010"
               "14371573624" "0" "" "ustar " " " "testuser" "testgroup" "").

Definition long_name_payload : list ascii := bytes "long/name" ++ [NUL; NUL; NUL].
Definition pax_data : list ascii := replicate 42 "d"%char.



(** A GNU long-name record whose payload ends with three NUL bytes,
    before an entry whose ustar name is "short". *)
Definition long_name_archive : list ascii :=
  file_header "././@LongLink" (octal11 (zlen long_name_payload)) "L"
  ++ padded long_name_payload
  ++ file_header "short" (octal11 0) "0"
  ++ zero_block ++ zero_block.


(** The same with two segments, of a file of real size 2048. *)
Definition two_segment_pairs : list (list ascii * list ascii) :=
  [(bytes "0", bytes "512"); (bytes "1536", bytes "512")].

(** An old-format GNU sparse entry: type flag S, the segments (0, 100)
    and (1000, 50) in the header overlay, real size 1100, 150 bytes
    stored (100 times A, 50 times B); then an empty file "after.txt". *)
Definition sparse_overlay : list ascii :=
  strncpy 12 (octal11 0) ++ strncpy 12 (octal11 100)
  ++ strncpy 12 (octal11 1000) ++ strncpy 12 (octal11 50).
Definition sparse_header : list ascii :=
  with_checksum
    (patch 384 sparse_overlay
       (patch 481 (strncpy 12 (octal11 1100))
          (raw_header
             (mk_fields "sparse.dat" "0000644" "0001000" "0001000" (octal11 150)
                        "14371573624" "S" "" "ustar " " " "testuser" "testgroup" "")))).
Definition sparse_content : list ascii :=
  replicate 100 "A"%char ++ replicate 50 "B"%char.
Definition sparse_archive : list ascii :=
  sparse_header ++ padded sparse_content
  ++ file_header "after.txt" (octal11 0) "0"
  ++ zero_block ++ zero_block.
Definition sparse_descriptor : sparse_metadata :=
  mk_sparse_metadata 1100 [mk_sparse_entry 0 100; mk_sparse_entry 1000 50].

(** The metadata of the header at offset [off] of an archive. *)
Definition empty_metadata : file_metadata :=
  mk_file_metadata "" regular_file 0 0 0 0 0 "" "" None 0 0 None ∅ [] [].
Definition header_at (off : nat) (archive : list ascii) : file_metadata :=
  value_or (parse_header (take 512 (drop off archive))) empty_metadata.

(** The empty archive: two zero records. *)
Definition terminator_only : list ascii := zero_block ++ zero_block.

End Examples.

(** ** Notions used in the statements *)

(** The magic test of [parse_header]. *)
Definition magic_recognized (block : list ascii) : bool :=
  let magic := extract_string (hdr_magic block) in
  String.eqb magic "ustar" || is_gnu_tar_magic magic.

(** The error of the version test of [parse_header]. *)
Definition version_unsupported : error :=
  mk_error invalid_header "Unsupported tar version".



Section StreamNotions.
Context {S : Type} `{!InputStream S}.





Definition single_zero_block_error : error :=
  mk_error corrupt_archive "Single zero block in archive".

End StreamNotions.

Section Observations.
Context {S : Type} `{!InputStream S}.

(** The headers a call of [next_entry] reads, in order: the extension
    records it consumes and, last, the header of the entry it yields (when
    it gets that far). *)
Fixpoint next_entry_headers (fuel : nat) (r : archive_reader S) : list file_metadata :=
  match fuel with
  | O => []
  | Datatypes.S fuel' =>
      if finished_ r then []
      else match read_header r with
           | Some (Ok (Some meta), r1) =>
               meta ::
               (if is_gnu_extension meta then
                  match process_gnu_extension fuel' meta r1 with
                  | Some (Ok true, r2) => next_entry_headers fuel' r2
                  | _ => []
                  end
                else if is_pax_header meta then
                  match process_pax_header meta r1 with
                  | Some (Ok true, r2) => next_entry_headers fuel' r2
                  | _ => []
                  end
                else [])
           | _ => []
           end
  end.

(** A header that [next_entry] turns into an entry. *)
Definition is_entry_header (m : file_metadata) : bool :=
  negb (is_gnu_extension m) && negb (is_pax_header m).

(** The metadata after the GNU and PAX overrides of [emit_entry]. *)
Definition overridden (meta : file_metadata) (r : archive_reader S) : file_metadata :=
  let final0 := apply_gnu_extensions meta (pending_gnu_extensions_ r) in
  if pax_is_empty (pending_pax_headers_ r) then final0
  else fst (apply_pax_headers (pending_pax_headers_ r) final0).

(** The computation [m] never changes the observation [f] of the reader. *)
Definition preserves {X A} (f : archive_reader S -> X)
    (m : M (archive_reader S) A) : Prop :=
  forall r res r', m r = Some (res, r') -> f r' = f r.

End Observations.

(** ** stream.hpp: random access on a memory stream

    [memory_mapped_stream] also implements [random_access_stream]; the
    three methods of [mmap_stream] in stream.cpp have the same bodies. *)

Definition mms_seek (position : Z) (s : memory_mapped_stream)
    : expected unit * memory_mapped_stream :=
  if position >? zlen (data_ s)
  then (Unexpected (mk_error io_error "Seek past end of stream"), s)
  else (Ok tt, mk_mms (data_ s) position).

Definition mms_position (s : memory_mapped_stream) : Z := position_ s.

Definition mms_size (s : memory_mapped_stream) : option Z := Some (zlen (data_ s)).

(** The position lies inside the data, and the data fits a [size_t]. *)
Definition mms_wf (s : memory_mapped_stream) : Prop :=
  0 <= position_ s <= zlen (data_ s) /\ zlen (data_ s) < 2 ^ 64.

(** ** Notions for the header fields *)

(** The value of a run of octal digits. *)
Definition octal_value (ds : list ascii) : Z :=
  fold_left (fun acc c => acc * 8 + (ord c - ord "0")) ds 0.

(** The two bytes that [parse_octal] skips before a number and stops at
    after it. *)
Definition is_field_blank (c : ascii) : bool := Ascii.eqb c NUL || Ascii.eqb c SP.

(** The sum of the bytes of a list, without any wrap-around. *)
Definition byte_sum (l : list ascii) : Z := foldr (fun b s => ord b + s) 0 l.

(** ** metadata.hpp: the other type tests of [file_metadata] *)

Definition is_directory (m : file_metadata) : bool :=
  entry_type_eqb (type m) directory.
Definition is_symbolic_link (m : file_metadata) : bool :=
  entry_type_eqb (type m) symbolic_link.
Definition is_hard_link (m : file_metadata) : bool :=
  entry_type_eqb (type m) hard_link.
Definition is_sparse (m : file_metadata) : bool :=
  entry_type_eqb (type m) gnu_sparse.
Definition is_character_device (m : file_metadata) : bool :=
  entry_type_eqb (type m) character_device.
Definition is_block_device (m : file_metadata) : bool :=
  entry_type_eqb (type m) block_device.
Definition is_device (m : file_metadata) : bool :=
  is_character_device m || is_block_device m.
Definition has_extended_attributes (m : file_metadata) : bool :=
  negb (pax_is_empty (xattrs m)).
Definition has_acls (m : file_metadata) : bool :=
  negb (match access_acl m with [] => true | _ => false end)
  || negb (match default_acl m with [] => true | _ => false end).

(** ** sparse.cpp: the sparse map of the PAX records *)

(** The loop of [parse_sparse_1_0_header] over ["offset,size,offset,size"]:
    [rest] runs from [pos] to the end of the string.  Every round
    consumes a comma, so [length map_str] rounds suffice. *)
Fixpoint sparse_map_pairs (fuel : nat) (rest : list ascii) (segs : list sparse_entry)
    : option (expected (list sparse_entry)) :=
  match rest with
  | [] => Some (Ok segs)
  | _ :: _ =>
      (* Parse offset *)
      match split_first "," rest with
      | None => Some (Ok segs)
      | Some (offset_str, after) =>
          match from_chars_unsigned UINT64_MAX offset_str with
          | None => Some (err invalid_header "Invalid sparse map offset")
          | Some offset =>
              (* Parse size *)
              let '(size_str, rest') :=
                match split_first "," after with
                | Some ab => ab
                | None => (after, [])
                end in
              match from_chars_unsigned UINT64_MAX size_str with
              | None => Some (err invalid_header "Invalid sparse map size")
              | Some sz =>
                  match fuel with
                  | O => None
                  | Datatypes.S fuel' =>
                      sparse_map_pairs fuel' rest' (segs ++ [mk_sparse_entry offset sz])
                  end
              end
          end
      end
  end.

Definition parse_sparse_1_0_header (pax_headers : gmap string string)
    : option (expected sparse_metadata) :=
  match pax_headers !! "GNU.sparse.major"%string,
        pax_headers !! "GNU.sparse.minor"%string with
  | Some major, Some minor =>
      if negb (String.eqb major "1") || negb (String.eqb minor "0") then
        Some (err unsupported_feature
                ("Unsupported GNU sparse version: " ++ major ++ "." ++ minor))
      else
        (* Parse real size *)
        let rs : expected Z :=
          match pax_headers !! "GNU.sparse.realsize"%string with
          | Some v => match from_chars_u64 v with
                      | Some n => Ok n
                      | None => err invalid_header "Invalid GNU.sparse.realsize"
                      end
          | None => Ok 0
          end in
        match rs with
        | Unexpected e => Some (Unexpected e)
        | Ok real_size =>
            (* Parse sparse map *)
            match pax_headers !! "GNU.sparse.map"%string with
            | Some map_str =>
                match sparse_map_pairs (String.length map_str) (bytes map_str) [] with
                | None => None
                | Some (Unexpected e) => Some (Unexpected e)
                | Some (Ok segs) => Some (Ok (mk_sparse_metadata real_size segs))
                end
            | None => Some (Ok (mk_sparse_metadata real_size []))
            end
        end
  | _, _ => Some (err invalid_header "Missing GNU sparse version headers")
  end.

(** The text of such a map: the numbers of the pairs, separated by commas. *)
Fixpoint render_comma_map (pairs : list (list ascii * list ascii)) : list ascii :=
  match pairs with
  | [] => []
  | [p] => fst p ++ bytes "," ++ snd p
  | p :: rest => fst p ++ bytes "," ++ snd p ++ bytes "," ++ render_comma_map rest
  end.

(** ** Notions for the sparse and PAX texts *)

(** No byte of the list is an octal digit. *)
Definition no_octal_digit (l : list ascii) : Prop :=
  forallb (fun c => negb (is_octal_digit c)) l = true.

(** The three parts of a PAX record [<length> <key>=<value>\n]. *)
Record pax_record_text : Type := mk_pax_record_text {
  rec_length : list ascii;
  rec_key : list ascii;
  rec_value : list ascii
}.

Definition render_pax_record (p : pax_record_text) : list ascii :=
  rec_length p ++ [SP] ++ rec_key p ++ bytes "=" ++ rec_value p ++ [LF].

(** The length field is a decimal number that counts the whole record,
    itself included, and the key holds no [=]. *)
Definition pax_record_ok (p : pax_record_text) : Prop :=
  is_number_token (rec_length p)
  /\ decimal_value (rec_length p) = zlen (render_pax_record p)
  /\ forallb (fun c => negb (Ascii.eqb c "=")) (rec_key p) = true.

(** The records assigned in order to a map, as [result[key] = value]. *)
Definition pax_bindings (ps : list pax_record_text) (acc : gmap string string)
    : gmap string string :=
  fold_left (fun m p => <[str (rec_key p) := str (rec_value p)]> m) ps acc.

(** ** archive_entry.hpp: reading through an entry *)

Definition SIZE_MAX : Z := 2 ^ 64 - 1.

(** [archive_entry::copy_data_to]: [read_data()] with its default
    arguments; the bytes go to the output iterator and their number is
    returned. *)
Definition copy_data_to {S} `{!InputStream S} (fuel : nat) (e : archive_entry)
    : M (archive_reader S) (list ascii * Z) :=
  bind (read_data fuel e 0 SIZE_MAX) (fun data => ret (data, zlen data)).

(** The reads a caller issues on an entry, one after the other, each
    given by its offset and length; a read that fails does not stop the
    caller. *)
Fixpoint read_requests {S} `{!InputStream S} (fuel : nat) (e : archive_entry)
    (reqs : list (Z * Z)) : M (archive_reader S) unit :=
  match reqs with
  | [] => ret tt
  | req :: rest =>
      bind (try (read_data fuel e (fst req) (snd req)))
           (fun _ => read_requests fuel e rest)
  end.

(** ** The reader on a memory stream *)

Abbreviation mreader := (archive_reader memory_mapped_stream).

(** The reader stands inside the payload of its current entry: the
    stored bytes not yet consumed are all in the data and end at
    [data_end]. *)
Definition in_payload (data : list ascii) (data_end : Z) (r : mreader) : Prop :=
  data_ (stream_ r) = data
  /\ 0 <= current_entry_data_consumed_ r
  /\ 0 <= current_entry_data_remaining_ r
  /\ 0 <= position_ (stream_ r)
  /\ position_ (stream_ r) + current_entry_data_remaining_ r = data_end
  /\ data_end <= zlen data /\ zlen data < 2 ^ 64.

(** ** Walking an archive

    The range-for loop of the examples, [for (const auto& entry :
    *reader)], with a body that reads the whole data of the entry: it
    starts from [begin()], compares with [end()], dereferences and
    increments the iterator.  The result lists the path of every entry
    with the outcome of its [read_data()], and tells whether the
    iterator stopped on an error. *)
Section Walk.
Context {S : Type} `{!InputStream S}.

Definition run_iterator (step : archive_reader S -> option (iterator * archive_reader S))
    : M (archive_reader S) iterator := fun r =>
  match step r with
  | Some (it, r') => Some (Ok it, r')
  | None => None
  end.

Fixpoint for_each_entry (fuel : nat) (it : iterator)
    : M (archive_reader S) (list (string * expected (list ascii)) * bool) :=
  if iterator_eq it end_iterator then ret ([], has_error it)
  else
    match fuel with
    | O => out_of_fuel
    | Datatypes.S fuel' =>
        match current_ it with
        | None => ret ([], has_error it)   (* an iterator that is not at the end holds an entry *)
        | Some entry =>
            bind (try (read_data fuel entry 0 SIZE_MAX)) (fun data =>
            bind (run_iterator (iterator_increment fuel it)) (fun it' =>
            bind (for_each_entry fuel' it') (fun rest =>
            ret ((entry_path entry, data) :: fst rest, snd rest))))
        end
    end.

Definition walk_archive (fuel : nat) (this : positive)
    : M (archive_reader S) (list (string * expected (list ascii)) * bool) :=
  bind (run_iterator (begin fuel this)) (for_each_entry fuel).

End Walk.

(** ** Archives of plain files, written as the tests write headers *)

(** A C string: no NUL byte inside. *)
Definition c_string (s : string) : Prop :=
  forallb (fun c => negb (Ascii.eqb c NUL)) (bytes s) = true.

(** The fields of the test headers, with a name, a size, a type flag and
    a link name of one's own. *)
Definition test_fields (name size : string) (typeflag : ascii) (linkname : string)
    : Fixtures.fields :=
  Fixtures.mk_fields name "0000644" "0001000" "0001000" size "14371573624"
                     typeflag linkname "ustar" "00" "testuser" "testgroup" "".

(** The metadata such a header stands for. *)
Definition test_metadata (name : string) (ty : entry_type) (n : Z)
    (link : option string) : file_metadata :=
  mk_file_metadata name ty 420 512 512 n (from_time_t 1676081044) "testuser" "testgroup"
                   link 0 0 None ∅ [] [].

(** A regular file in an archive: its header, its content and the
    padding to the next record. *)
Definition file_record (name : string) (content : list ascii) : list ascii :=
  Fixtures.create_header (test_fields name (Fixtures.octal11 (zlen content)) "0" "")
  ++ Fixtures.padded content.

Definition archive_of (files : list (string * list ascii)) : list ascii :=
  concat (map (fun f => file_record (fst f) (snd f)) files)
  ++ Fixtures.zero_block ++ Fixtures.zero_block.

(** A reader with nothing pending. *)
Definition clean (s : memory_mapped_stream) (cur : option archive_entry)
    (remaining consumed : Z) (fin : bool) : mreader :=
  mk_archive_reader s cur remaining consumed fin gnu_clear None ∅ false.

(** The reader stands between two records: nothing is pending, and
    skipping what is left of its current entry leads to offset [q]. *)
Definition between_records (data : list ascii) (q : Z) (r : mreader) : Prop :=
  finished_ r = false
  /\ skip_current_entry_data r
     = Some (Ok tt, clean (mk_mms data q) (current_entry_ r) 0 0 false).

(** A file that fits a header: a name of 1 to 100 bytes without NUL and a
    size that fits the eleven octal digits of the size field. *)
Definition valid_file (f : string * list ascii) : Prop :=
  fst f <> ""%string /\ c_string (fst f) /\ (String.length (fst f) <= 100)%nat
  /\ zlen (snd f) < 8 ^ 11.

(** The entry that stands for a file. *)
Definition entry_of (f : string * list ascii) : archive_entry :=
  mk_archive_entry (test_metadata (fst f) regular_file (zlen (snd f)) None)
                   base_reader_fn.

(** What a walk over the archive of [files] should list. *)
Definition listing (files : list (string * list ascii))
    : list (string * expected (list ascii)) :=
  map (fun f => (fst f, Ok (snd f))) files.

(** A GNU [L] or [K] record as GNU tar writes it: a header named
    [././@LongLink] whose size counts the text and its final NUL, then
    the text, the NUL and the padding. *)
Definition gnu_record (flag : ascii) (text : string) : list ascii :=
  Fixtures.create_header
    (test_fields "././@LongLink" (Fixtures.octal11 (zlen (bytes text) + 1)) flag "")
  ++ Fixtures.padded (bytes text ++ [NUL]).

(** ** archive_entry.cpp: extraction to the file system *)

(** The calls [extract_to_path] makes on the file system.  Those of
    [<filesystem>] that take an [std::error_code] return the message of
    the error, if there is one; an output stream is good or not after it
    has been opened and after a write.  Nothing is assumed about what the
    calls do. *)
Class FileSystem (F : Type) : Type := {
  fs_parent_path : string -> string;
  fs_create_directories : string -> F -> option string * F;
  fs_open_output : string -> F -> bool * F;
  fs_write : string -> list ascii -> F -> bool * F;
  fs_create_symlink : string -> string -> F -> option string * F;
  fs_create_hard_link : string -> string -> F -> option string * F;
  fs_permissions : string -> Z -> F -> F
}.

Section Extraction.
Context {S : Type} `{!InputStream S} {F : Type} `{!FileSystem F}.
Local Open Scope m_scope.

(** Run a computation of the reader, or a call of the file system, on
    the pair of both. *)
Definition on_reader {A} (m : M (archive_reader S) A) : M (archive_reader S * F) A :=
  fun st => match m (fst st) with
            | Some (res, r') => Some (res, (r', snd st))
            | None => None
            end.

Definition on_fs {A} (call : F -> A * F) : M (archive_reader S * F) A :=
  fun st => Some (Ok (fst (call (snd st))), (fst st, snd (call (snd st)))).

(** [archive_entry::extract_to_path] *)
Definition extract_to_path (fuel : nat) (e : archive_entry) (dest_path : string)
    : M (archive_reader S * F) unit :=
  (* Create parent directories if they don't exist *)
  ec <- on_fs (fs_create_directories (fs_parent_path dest_path)) ;;
  match ec with
  | Some msg => fail (mk_error io_error ("Failed to create directories: " ++ msg))
  | None =>
      match type (metadata_ e) with
      | regular_file | regular_file_old | contiguous_file =>
          (* Extract regular file *)
          good <- on_fs (fs_open_output dest_path) ;;
          if negb good then
            fail (mk_error io_error ("Failed to create output file: " ++ dest_path))
          else
            data <- on_reader (read_data fuel e 0 SIZE_MAX) ;;
            good <- on_fs (fs_write dest_path data) ;;
            if negb good then fail (mk_error io_error "Failed to write file data")
            else ret tt
      | directory =>
          ec <- on_fs (fs_create_directories dest_path) ;;
          match ec with
          | Some msg => fail (mk_error io_error ("Failed to create directory: " ++ msg))
          | None => ret tt
          end
      | symbolic_link =>
          match entry_link_target e with
          | None => fail (mk_error invalid_operation "Symbolic link has no target")
          | Some target =>
              ec <- on_fs (fs_create_symlink target dest_path) ;;
              match ec with
              | Some msg =>
                  fail (mk_error io_error ("Failed to create symbolic link: " ++ msg))
              | None => ret tt
              end
          end
      | hard_link =>
          match entry_link_target e with
          | None => fail (mk_error invalid_operation "Hard link has no target")
          | Some target =>
              ec <- on_fs (fs_create_hard_link target dest_path) ;;
              match ec with
              | Some msg =>
                  fail (mk_error io_error ("Failed to create hard link: " ++ msg))
              | None => ret tt
              end
          end
      | _ => fail (mk_error unsupported_feature
                     "Extraction of this entry type is not supported")
      end ;;;
      (* Set file permissions (best effort); permission errors are ignored *)
      on_fs (fun f => (tt, fs_permissions dest_path (permissions (metadata_ e)) f))
  end.

End Extraction.

(** A file system that accepts every call and records it, for the
    examples; the parent of a path is what stands before its last [/]. *)
Fixpoint after_slash (l : list ascii) : list ascii :=
  match l with
  | [] => []
  | c :: rest => if Ascii.eqb c "/" then rest else after_slash rest
  end.

Definition parent_of (p : string) : string :=
  str (rev (after_slash (rev (bytes p)))).

Inductive fs_call : Type :=
  | call_create_directories (p : string)
  | call_open_output (p : string)
  | call_write (p : string) (data : list ascii)
  | call_create_symlink (target p : string)
  | call_create_hard_link (target p : string)
  | call_permissions (p : string) (perms : Z).

#[export] Instance recording_file_system : FileSystem (list fs_call) := {
  fs_parent_path := parent_of;
  fs_create_directories p log := (None, log ++ [call_create_directories p]);
  fs_open_output p log := (true, log ++ [call_open_output p]);
  fs_write p data log := (true, log ++ [call_write p data]);
  fs_create_symlink target p log := (None, log ++ [call_create_symlink target p]);
  fs_create_hard_link target p log := (None, log ++ [call_create_hard_link target p]);
  fs_permissions p perms log := log ++ [call_permissions p perms]
}.


(** The attribute name a PAX key stands for in
    [extract_extended_attributes]. *)
Definition xattr_name (key : string) : option string :=
  match strip_prefix "SCHILY.xattr." key with
  | Some n => Some n
  | None => strip_prefix "LIBARCHIVE.xattr." key
  end.

(** * Properties *)

(** ** The iterator after an error *)

Section IteratorLatch.
Context {S : Type} `{!InputStream S}.




End IteratorLatch.


(** ** The version field *)

Lemma parse_octal_loop_error fld result found e :
  parse_octal_loop fld result found = Unexpected e ->
  e = mk_error invalid_header "Invalid octal digit"
  \/ e = mk_error invalid_header "Octal value overflow".
Proof.
  revert result found.
  induction fld as [|c rest IH]; intros result found; simpl.
  - discriminate.
  - destruct (Ascii.eqb c NUL || Ascii.eqb c SP).
    + destruct found; simpl; [discriminate | apply IH].
    + destruct ((ord c <? ord "0") || (ord c >? ord "7")).
      * unfold err. intros [= <-]. now left.
      * destruct (result >? Z.shiftr UINT64_MAX 3).
        -- unfold err. intros [= <-]. now right.
        -- apply IH.
Qed.

Lemma parse_octal_error_message fld e :
  parse_octal fld = Unexpected e -> message e <> "Unsupported tar version"%string.
Proof.
  intros H. destruct (parse_octal_loop_error _ _ _ _ H) as [-> | ->]; discriminate.
Qed.

(** The two-byte version field passes the test exactly when it holds "00"
    or a space followed by NUL. *)
Lemma version_field_accepted (a b : ascii) :
  (String.eqb (extract_string [a; b]) "00" || String.eqb (extract_string [a; b]) " ") = true
  <-> [a; b] = ["0"; "0"]%char \/ [a; b] = [SP; NUL].
Proof.
  unfold extract_string, str. cbn [until_nul].
  destruct (Ascii.eqb_spec a NUL) as [-> | Ha].
  - cbn. split; [discriminate | intros [[=] | [=]]].
  - destruct (Ascii.eqb_spec b NUL) as [-> | Hb]; cbn [string_of_list_ascii].
    + rewrite orb_true_iff, !String.eqb_eq. split.
      * intros [[=] | [= ->]]. now right.
      * intros [[=] | [= ->]]. now right.
    + rewrite orb_true_iff, !String.eqb_eq. split.
      * intros [[= -> ->] | [=]]. now left.
      * intros [[= -> ->] | [= _ ->]]; [now left | now contradiction Hb].
Qed.

Lemma hdr_version_two_bytes block :
  length block = 512%nat -> exists a b, hdr_version block = [a; b].
Proof.
  intros Hlen. unfold hdr_version, field.
  assert (Hd : length (drop 263 block) = 249%nat) by (rewrite length_drop; lia).
  destruct (drop 263 block) as [|a [|b rest]]; simpl in Hd; try lia.
  now exists a, b.
Qed.

(** C6 (amended).  For a 512-byte record whose magic is recognized,
    [parse_header] stops with the invalid-header error "Unsupported tar
    version" exactly when the version field is neither "00" nor a space
    followed by NUL; the empty (all NUL) version is among the rejected
    ones. *)
Theorem version_check :
  forall block : list ascii,
    length block = 512%nat ->
    magic_recognized block = true ->
    (parse_header block = Unexpected version_unsupported
     <-> hdr_version block <> ["0"; "0"]%char /\ hdr_version block <> [SP; NUL])
    /\ (hdr_version block = [NUL; NUL] ->
        parse_header block = Unexpected version_unsupported).
Proof.
  intros block Hlen Hmagic.
  destruct (hdr_version_two_bytes block Hlen) as (a & b & Hv).
  pose proof (version_field_accepted a b) as Hacc.
  assert (Hnomagic :
    negb (String.eqb (extract_string (hdr_magic block)) "ustar")
    && negb (is_gnu_tar_magic (extract_string (hdr_magic block))) = false).
  { unfold magic_recognized in Hmagic. simpl in Hmagic.
    destruct (String.eqb _ "ustar"), (is_gnu_tar_magic _); simpl in *; congruence. }
  assert (Hiff : parse_header block = Unexpected version_unsupported
     <-> hdr_version block <> ["0"; "0"]%char /\ hdr_version block <> [SP; NUL]).
  { unfold parse_header. cbv zeta. rewrite Hnomagic, Hv.
    destruct (String.eqb (extract_string [a; b]) "00") eqn:E00;
      destruct (String.eqb (extract_string [a; b]) " ") eqn:Esp; simpl negb; simpl andb.
    4: { split; [intros _ | reflexivity].
         split; intros Heq; rewrite Heq in Hacc;
           (assert (false || false = true) as Hf by (apply Hacc; auto));
           discriminate Hf. }
    all: (assert (Hin : [a; b] = ["0"; "0"]%char \/ [a; b] = [SP; NUL])
            by (apply Hacc; reflexivity));
         split; [| intros [H1 H2]; destruct Hin; contradiction];
         intros Hp; exfalso;
         destruct (parse_octal (hdr_checksum block)) as [stored|e] eqn:Ecs;
         [| injection Hp as ->; now apply (parse_octal_error_message _ _ Ecs)];
         destruct (negb (calculate_checksum block =? stored)); [discriminate Hp|];
         destruct (parse_octal (hdr_mode block)); [|discriminate Hp];
         destruct (parse_octal (hdr_uid block)); [|discriminate Hp];
         destruct (parse_octal (hdr_gid block)); [|discriminate Hp];
         destruct (parse_octal (hdr_size block)); [|discriminate Hp];
         destruct (parse_octal (hdr_mtime block)); [|discriminate Hp];
         match type of Hp with
         | (if ?c then _ else _) = _ => destruct c; [discriminate Hp|]
         end;
         match type of Hp with
         | match ?c with _ => _ end = _ => destruct c; discriminate Hp
         end. }
  split; [exact Hiff|].
  intros Hnul. apply Hiff. rewrite Hnul. split; discriminate.
Qed.

Lemma version_check_witness :
  (parse_header Examples.gnu_version_header = Unexpected version_unsupported
   <-> hdr_version Examples.gnu_version_header <> ["0"; "0"]%char
       /\ hdr_version Examples.gnu_version_header <> [SP; NUL])
  /\ (hdr_version Examples.gnu_version_header = [NUL; NUL] ->
      parse_header Examples.gnu_version_header = Unexpected version_unsupported).
Proof.
  apply (version_check Examples.gnu_version_header).
  - vm_compute. reflexivity.
  - vm_compute. reflexivity.
Defined.

(** C6, as stated, fails: a record with the magic "ustar" and an empty
    version field (two NUL bytes) is rejected with the version error,
    while the same record with version "00" is accepted. *)
Lemma empty_version_rejected :
  length Examples.empty_version_header = 512%nat
  /\ magic_recognized Examples.empty_version_header = true
  /\ hdr_version Examples.empty_version_header = [NUL; NUL]
  /\ parse_header Examples.empty_version_header = Unexpected version_unsupported
  /\ has_value (parse_header (Fixtures.create_header Fixtures.default_fields)) = true.
Proof. vm_compute. repeat split. Qed.

(** ** ACL permissions *)








(** ** The end of the archive *)

Section EndOfArchive.
Context {S : Type} `{!InputStream S}.

Lemma set_stream_twice (s1 s2 : S) (r : archive_reader S) :
  set_stream s2 (set_stream s1 r) = set_stream s2 r.
Proof. reflexivity. Qed.

(** [read_block] in terms of the one [read] it issues. *)
Lemma read_block_spec (r : archive_reader S) :
  read_block r =
  Some (match stream_read BLOCK_SIZE (stream_ r) with
        | (Ok b, s') =>
            if zlen b =? BLOCK_SIZE then (Ok b, set_stream s' r)
            else if (zlen b =? 0) && stream_at_end s'
                 then (Unexpected (mk_error end_of_archive "Unexpected end of archive"),
                       set_stream s' r)
                 else (Unexpected (mk_error corrupt_archive "Incomplete block read"),
                       set_stream s' r)
        | (Unexpected e, s') => (Unexpected e, set_stream s' r)
        end).
Proof.
  unfold read_block, bind, on_stream, read, at_end, fail, ret.
  destruct (stream_read BLOCK_SIZE (stream_ r)) as [[b|e] s']; [|reflexivity].
  destruct (zlen b =? BLOCK_SIZE); simpl; [reflexivity|].
  destruct ((zlen b =? 0) && stream_at_end s'); reflexivity.
Qed.


Lemma read_header_unfold (r r1 : archive_reader S) :
  skip_current_entry_data r = Some (Ok tt, r1) ->
  let r2 := set_counters 0 0 (set_current_entry None r1) in
  read_header r =
  match read_block r2 with
  | Some (Unexpected e, r3) =>
      if error_code_eqb (code e) end_of_archive
      then Some (Ok None, set_finished true r3)
      else Some (Unexpected e, r3)
  | Some (Ok block, r3) =>
      if is_zero_block block then
        match read_block r3 with
        | Some (Ok b2, r4) =>
            if is_zero_block b2 then Some (Ok None, set_finished true r4)
            else Some (Unexpected single_zero_block_error, r4)
        | Some (Unexpected _, r4) => Some (Unexpected single_zero_block_error, r4)
        | None => None
        end
      else match parse_header block with
           | Ok meta => Some (Ok (Some meta), r3)
           | Unexpected e => Some (Unexpected e, r3)
           end
  | None => None
  end.
Proof.
  intros Hskip r2. unfold read_header, bind at 1. rewrite Hskip.
  unfold bind at 1, modify at 1. fold r2.
  unfold bind at 1, try at 1.
  destruct (read_block r2) as [[[block|e] r3]|]; [| |reflexivity].
  - destruct (is_zero_block block); [|unfold bind, lift, ret;
      destruct (parse_header block); reflexivity].
    unfold bind at 1, try at 1.
    destruct (read_block r3) as [[[b2|e2] r4]|]; [| reflexivity | reflexivity].
    destruct (is_zero_block b2); reflexivity.
  - destruct (error_code_eqb (code e) end_of_archive); reflexivity.
Qed.




End EndOfArchive.



(** ** What the steps of [next_entry] leave untouched *)

Section Frames.
Context {S : Type} `{!InputStream S}.
Context {X : Type} (f : archive_reader S -> X).
Local Abbreviation preserves := (preserves f).

Lemma preserves_ret {A} (a : A) : preserves (ret a).
Proof. intros r res r' [= _ <-]. reflexivity. Qed.

Lemma preserves_fail {A} e : preserves (@fail _ A e).
Proof. intros r res r' [= _ <-]. reflexivity. Qed.

Lemma preserves_lift {A} (x : expected A) : preserves (lift x).
Proof. intros r res r' [= _ <-]. reflexivity. Qed.

Lemma preserves_lift_fuel {A} (x : option (expected A)) : preserves (lift_fuel x).
Proof. intros r res r'. unfold lift_fuel. destruct x; [|discriminate].
  intros [= _ <-]. reflexivity. Qed.

Lemma preserves_get : preserves get.
Proof. intros r res r' [= _ <-]. reflexivity. Qed.

Lemma preserves_bind {A B} (m : M _ A) (k : A -> M _ B) :
  preserves m -> (forall a, preserves (k a)) -> preserves (bind m k).
Proof.
  intros Hm Hk r res r'. unfold bind.
  destruct (m r) as [[[a|e] r1]|] eqn:Em; [| |discriminate].
  - intros Hka. rewrite (Hk a _ _ _ Hka). now apply (Hm _ _ _ Em).
  - intros [= _ <-]. now apply (Hm _ _ _ Em).
Qed.

Lemma preserves_try {A} (m : M _ A) : preserves m -> preserves (try m).
Proof.
  intros Hm r res r'. unfold try.
  destruct (m r) as [[x r1]|] eqn:Em; [|discriminate].
  intros [= _ <-]. now apply (Hm _ _ _ Em).
Qed.

Lemma preserves_modify (g : archive_reader S -> archive_reader S) :
  (forall r, f (g r) = f r) -> preserves (modify g).
Proof. intros Hg r res r' [= _ <-]. apply Hg. Qed.

Lemma preserves_on_stream {A} (m : M S A) :
  (forall s r, f (set_stream s r) = f r) -> preserves (on_stream m).
Proof.
  intros Hf r res r'. unfold on_stream.
  destruct (m (stream_ r)) as [[x s']|]; [|discriminate].
  intros [= _ <-]. apply Hf.
Qed.

Lemma preserves_if {A} (b : bool) (m1 m2 : M _ A) :
  preserves m1 -> preserves m2 -> preserves (if b then m1 else m2).
Proof. now destruct b. Qed.

End Frames.

Ltac frame :=
  repeat first
    [ apply preserves_ret | apply preserves_fail | apply preserves_lift
    | apply preserves_lift_fuel
    | apply preserves_get
    | apply preserves_modify; intros; reflexivity
    | apply preserves_on_stream; intros; reflexivity
    | apply preserves_try
    | apply preserves_bind; [|intros]
    | match goal with
      | |- preserves _ (if ?b then _ else _) => destruct b
      | |- preserves _ (match ?x with _ => _ end) => destruct x
      | |- preserves _ (let (_, _) := ?x in _) => destruct x
      end ].

Section ReaderFrames.
Context {S : Type} `{!InputStream S}.
Implicit Types r : archive_reader S.

Lemma read_block_keeps_pax : preserves pending_pax_headers_ (read_block (S := S)).
Proof. unfold read_block. frame. Qed.

Lemma read_header_keeps_pax : preserves pending_pax_headers_ (read_header (S := S)).
Proof. unfold read_header, skip_current_entry_data, skip_padding, read_block. frame. Qed.

Lemma read_header_keeps_gnu : preserves pending_gnu_extensions_ (read_header (S := S)).
Proof. unfold read_header, skip_current_entry_data, skip_padding, read_block. frame. Qed.

Lemma process_gnu_extension_keeps_pax fuel meta :
  preserves pending_pax_headers_ (process_gnu_extension (S := S) fuel meta).
Proof. unfold process_gnu_extension, process_sparse_file, skip_padding. frame. Qed.

Lemma process_pax_header_keeps_gnu meta :
  preserves pending_gnu_extensions_ (process_pax_header (S := S) meta).
Proof. unfold process_pax_header, skip_padding. frame. Qed.

Lemma process_pax_header_global_keeps_pax meta :
  type meta <> pax_extended_header ->
  preserves pending_pax_headers_ (process_pax_header (S := S) meta).
Proof.
  intros Hty. unfold process_pax_header, skip_padding.
  destruct (entry_type_eqb (type meta) pax_extended_header) eqn:E.
  - destruct (type meta); (discriminate E || contradiction).
  - frame.
Qed.

End ReaderFrames.

(** ** The number loop of the sparse 1.0 map never runs out of fuel *)

Lemma skip_map_space_length l : (length (skip_map_space l) <= length l)%nat.
Proof.
  induction l as [|c rest IH]; simpl; [lia|].
  destruct (is_map_space c); simpl; lia.
Qed.

Lemma collect_numbers_eq fuel map_data numbers :
  collect_numbers fuel map_data numbers =
  match skip_map_space map_data with
  | [] => Some (Ok numbers)
  | rest =>
      match decimal_prefix rest with
      | [] => Some (Ok numbers)
      | ds =>
          match from_chars_unsigned UINT64_MAX ds with
          | None => Some (err invalid_header
                            "Invalid number in sparse map data block")
          | Some number =>
              match fuel with
              | O => None
              | Datatypes.S fuel' =>
                  collect_numbers fuel' (drop (length ds) rest) (numbers ++ [number])
              end
          end
      end
  end.
Proof. destruct fuel; reflexivity. Qed.

Lemma collect_numbers_total fuel :
  forall map_data numbers,
    (length map_data <= fuel)%nat ->
    exists res, collect_numbers fuel map_data numbers = Some res.
Proof.
  induction fuel as [|fuel IH]; intros map_data numbers Hlen;
    rewrite collect_numbers_eq;
    pose proof (skip_map_space_length map_data) as Hskip.
  - destruct map_data; [|simpl in Hlen; lia]. simpl. eexists; reflexivity.
  - destruct (skip_map_space map_data) as [|c rest] eqn:Erest;
      [eexists; reflexivity|].
    cbv zeta.
    destruct (decimal_prefix (c :: rest)) as [|d ds] eqn:Eds;
      [eexists; reflexivity|].
    destruct (from_chars_unsigned UINT64_MAX (d :: ds));
      [|eexists; reflexivity].
    apply IH. rewrite length_drop. simpl in *. lia.
Qed.

Lemma sparse_1_0_of_block_total data real_size :
  exists res, sparse_1_0_of_block data real_size = Some res.
Proof.
  unfold sparse_1_0_of_block.
  match goal with
  | |- context [collect_numbers ?f ?l ?a] =>
      destruct (collect_numbers_total f l a (le_n _)) as [[numbers|e] ->]
  end; eexists; reflexivity.
Qed.

Section Emission.
Context {S : Type} `{!InputStream S}.
Implicit Types r : archive_reader S.

Lemma parse_sparse_1_0_data_map_total real_size (s : S) :
  exists res s', parse_sparse_1_0_data_map real_size s = Some (res, s').
Proof.
  unfold parse_sparse_1_0_data_map, bind, read, ret, lift_fuel.
  destruct (stream_read 512 s) as [[block|e] s']; [|eexists _, _; reflexivity].
  destruct (zlen block =? 0); [eexists _, _; reflexivity|].
  destruct (sparse_1_0_of_block_total block real_size) as [res ->].
  eexists _, _; reflexivity.
Qed.

(** [emit_entry] always yields an entry.  Its path and link target are
    those left by the overrides; its size is the real size of the sparse
    descriptor when it has one, else the size left by the overrides. *)
Lemma emit_entry_result meta r :
  exists e r',
    emit_entry meta r = Some (Ok (Some e), r')
    /\ entry_path e = path (overridden meta r)
    /\ entry_link_target e = link_target (overridden meta r)
    /\ entry_size e = match sparse_info (metadata_ e) with
                      | Some sp => real_size sp
                      | None => size (overridden meta r)
                      end
    /\ (sparse_info (metadata_ e) = None ->
        sparse_info (overridden meta r) = None)
    /\ current_entry_ r' = Some e
    /\ current_entry_data_remaining_ r'
       = match sparse_info (metadata_ e) with
         | Some sp => total_data_size sp
         | None => entry_size e
         end.
Proof.
  unfold emit_entry, overridden, entry_path, entry_size, entry_link_target.
  unfold bind at 1, get at 1. unfold bind at 1, modify at 1.
  set (final0 := apply_gnu_extensions meta (pending_gnu_extensions_ r)).
  set (ra := set_pending_gnu gnu_clear r).
  unfold bind at 1.
  (* PAX overrides *)
  assert (Hpax : exists rb,
    (if negb (pax_is_empty (pending_pax_headers_ r))
     then let '(m, armed) := apply_pax_headers (pending_pax_headers_ r) final0 in
          bind (modify (fun r0 => set_pending_pax ∅
                   (if armed then set_needs_sparse_1_0 true r0 else r0)))
               (fun _ => ret m)
     else ret final0) ra
    = Some (Ok (if pax_is_empty (pending_pax_headers_ r) then final0
                else fst (apply_pax_headers (pending_pax_headers_ r) final0)), rb)).
  { destruct (pax_is_empty (pending_pax_headers_ r)); simpl;
      [eexists; reflexivity|].
    destruct (apply_pax_headers (pending_pax_headers_ r) final0) as [m armed].
    simpl. eexists; reflexivity. }
  destruct Hpax as (rb & ->).
  set (final1 := if pax_is_empty (pending_pax_headers_ r) then final0
                 else fst (apply_pax_headers (pending_pax_headers_ r) final0)).
  unfold bind at 1.
  (* pending sparse info of the old format *)
  assert (Hsp : exists final2 rc,
    match pending_sparse_info_ r with
    | Some sp =>
        if is_regular_file final1
        then bind (modify (set_pending_sparse None))
                  (fun _ => ret (set_sparse_info (Some sp) final1))
        else ret final1
    | None => ret final1
    end rb = Some (Ok final2, rc)
    /\ path final2 = path final1 /\ link_target final2 = link_target final1
    /\ size final2 = size final1
    /\ (sparse_info final2 = None -> sparse_info final1 = None)).
  { destruct (pending_sparse_info_ r); [destruct (is_regular_file final1)|];
      eexists _, _; (split; [reflexivity | repeat split]);
      simpl; try tauto; discriminate. }
  destruct Hsp as (final2 & rc & -> & Hp2 & Hl2 & Hs2 & Hn2).
  unfold bind at 1, get at 1. unfold bind at 1.
  (* the sparse 1.0 map in the data block *)
  assert (H10 : exists final3 rd,
    match needs_sparse_1_0_processing_ rc, sparse_info final2 with
    | true, Some sp =>
        bind (try (on_stream (parse_sparse_1_0_data_map (real_size sp))))
          (fun res => bind (modify (set_needs_sparse_1_0 false))
             (fun _ => ret match res with
                           | Ok sm => set_sparse_info (Some sm) final2
                           | Unexpected _ => final2
                           end))
    | _, _ => ret final2
    end rc = Some (Ok final3, rd)
    /\ path final3 = path final2 /\ link_target final3 = link_target final2
    /\ size final3 = size final2
    /\ (sparse_info final3 = None -> sparse_info final2 = None)).
  { destruct (needs_sparse_1_0_processing_ rc);
      [destruct (sparse_info final2) as [sp|] eqn:Esp2|];
      try (eexists _, _; (split; [reflexivity | repeat split]); tauto).
    destruct (parse_sparse_1_0_data_map_total (real_size sp) (stream_ rc))
      as (res & s' & Hmap).
    unfold bind, try, on_stream. rewrite Hmap. simpl.
    destruct res; eexists _, _; (split; [reflexivity | repeat split]);
      simpl; try tauto; try discriminate; congruence. }
  destruct H10 as (final3 & rd & -> & Hp3 & Hl3 & Hs3 & Hn3).
  destruct (sparse_info final3) as [sp|] eqn:Esp; simpl;
    eexists _, _; (split; [reflexivity|]); simpl; rewrite ?Esp; simpl;
    repeat split; try congruence; try discriminate; tauto.
Qed.

End Emission.

(** ** From the first header of a call to the entry it yields *)

Section Chain.
Context {S : Type} `{!InputStream S}.
Implicit Types r : archive_reader S.

Lemma entry_type_eqb_eq a b : entry_type_eqb a b = true <-> a = b.
Proof. destruct a, b; simpl; split; congruence. Qed.

Lemma entry_type_eqb_neq a b : a <> b -> entry_type_eqb a b = false.
Proof.
  intros Hne. destruct (entry_type_eqb a b) eqn:E; [|reflexivity].
  now apply entry_type_eqb_eq in E.
Qed.

Lemma process_gnu_extension_keeps_longname fuel meta :
  type meta <> gnu_longname ->
  preserves (fun r => longname (pending_gnu_extensions_ r))
            (process_gnu_extension (S := S) fuel meta).
Proof.
  intros Hty. unfold process_gnu_extension, is_gnu_longname.
  rewrite (entry_type_eqb_neq _ _ Hty).
  unfold process_sparse_file, skip_padding. frame.
Qed.

Lemma process_gnu_extension_keeps_longlink fuel meta :
  type meta <> gnu_longlink ->
  preserves (fun r => longlink (pending_gnu_extensions_ r))
            (process_gnu_extension (S := S) fuel meta).
Proof.
  intros Hty. unfold process_gnu_extension, is_gnu_longlink.
  rewrite (entry_type_eqb_neq _ _ Hty).
  unfold process_sparse_file, skip_padding. frame.
Qed.

(** One step of [next_entry] on a reader that is not finished. *)
Lemma next_entry_step fuel r meta r1 :
  finished_ r = false ->
  read_header r = Some (Ok (Some meta), r1) ->
  next_entry (Datatypes.S fuel) r =
  if is_gnu_extension meta then
    match process_gnu_extension fuel meta r1 with
    | Some (Ok true, r2) => next_entry fuel r2
    | Some (Ok false, r2) =>
        if is_pax_header meta then
          match process_pax_header meta r2 with
          | Some (Ok true, r3) => next_entry fuel r3
          | Some (Ok false, r3) => emit_entry meta r3
          | Some (Unexpected e, r3) => Some (Unexpected e, r3)
          | None => None
          end
        else emit_entry meta r2
    | Some (Unexpected e, r2) => Some (Unexpected e, r2)
    | None => None
    end
  else if is_pax_header meta then
    match process_pax_header meta r1 with
    | Some (Ok true, r3) => next_entry fuel r3
    | Some (Ok false, r3) => emit_entry meta r3
    | Some (Unexpected e, r3) => Some (Unexpected e, r3)
    | None => None
    end
  else emit_entry meta r1.
Proof.
  intros Hfin Hhdr. cbn [next_entry]. unfold bind at 1, get at 1.
  rewrite Hfin. unfold bind at 1. rewrite Hhdr.
  destruct (is_gnu_extension meta), (is_pax_header meta); unfold bind, ret;
    try reflexivity.
  - destruct (process_gnu_extension fuel meta r1) as [[[[|]|e] r2]|]; try reflexivity.
    destruct (process_pax_header meta r2) as [[[[|]|e] r3]|]; reflexivity.
  - destruct (process_gnu_extension fuel meta r1) as [[[[|]|e] r2]|]; reflexivity.
  - destruct (process_pax_header meta r1) as [[[[|]|e] r3]|]; reflexivity.
Qed.

Lemma next_entry_reaches_emit fuel :
  forall r hs m,
    next_entry_headers fuel r = hs ++ [m] ->
    is_entry_header m = true ->
    exists r3,
      next_entry fuel r = emit_entry m r3
      /\ (Forall (fun h => type h <> pax_extended_header) hs ->
           pending_pax_headers_ r3 = pending_pax_headers_ r)
      /\ (Forall (fun h => type h <> gnu_longname) hs ->
           longname (pending_gnu_extensions_ r3) = longname (pending_gnu_extensions_ r))
      /\ (Forall (fun h => type h <> gnu_longlink) hs ->
           longlink (pending_gnu_extensions_ r3) = longlink (pending_gnu_extensions_ r)).
Proof.
  induction fuel as [|fuel IH]; intros r hs m Hhs Hentry.
  { simpl in Hhs. now destruct hs. }
  cbn [next_entry_headers] in Hhs.
  destruct (finished_ r) eqn:Hfin; [now destruct hs|].
  destruct (read_header r) as [[[[meta|]|e] r1]|] eqn:Hhdr;
    try (now destruct hs).
  rewrite (next_entry_step fuel r meta r1 Hfin Hhdr).
  pose proof (read_header_keeps_pax _ _ _ Hhdr) as Hpax1.
  pose proof (read_header_keeps_gnu _ _ _ Hhdr) as Hgnu1.
  destruct hs as [|h hs'].
  - (* the first header is that of the entry *)
    simpl in Hhs. injection Hhs as -> Hrest.
    unfold is_entry_header in Hentry.
    apply andb_true_iff in Hentry as [Hg Hp].
    apply negb_true_iff in Hg, Hp. rewrite Hg, Hp.
    exists r1. split; [reflexivity|]. repeat split; intros _; congruence.
  - (* the first header is an extension record *)
    simpl in Hhs. injection Hhs as -> Hrest.
    destruct (is_gnu_extension h) eqn:Hg.
    + destruct (process_gnu_extension fuel h r1) as [[[[|]|e] r2]|] eqn:Hproc;
        try (now destruct hs').
      destruct (IH r2 hs' m Hrest Hentry) as (r3 & Hnext & Hpax & Hln & Hll).
      exists r3. split; [exact Hnext|].
      pose proof (process_gnu_extension_keeps_pax _ _ _ _ _ Hproc) as Hpax2.
      repeat split; intros Hall; inversion Hall as [|? ? Hh Hall']; subst.
      * rewrite (Hpax Hall'). congruence.
      * rewrite (Hln Hall').
        rewrite (process_gnu_extension_keeps_longname _ _ Hh _ _ _ Hproc).
        now rewrite Hgnu1.
      * rewrite (Hll Hall').
        rewrite (process_gnu_extension_keeps_longlink _ _ Hh _ _ _ Hproc).
        now rewrite Hgnu1.
    + destruct (is_pax_header h) eqn:Hp; [|now destruct hs'].
      destruct (process_pax_header h r1) as [[[[|]|e] r2]|] eqn:Hproc;
        try (now destruct hs').
      destruct (IH r2 hs' m Hrest Hentry) as (r3 & Hnext & Hpax & Hln & Hll).
      exists r3. split; [exact Hnext|].
      pose proof (process_pax_header_keeps_gnu _ _ _ _ Hproc) as Hgnu2.
      repeat split; intros Hall; inversion Hall as [|? ? Hh Hall']; subst.
      * rewrite (Hpax Hall').
        rewrite (process_pax_header_global_keeps_pax _ Hh _ _ _ Hproc).
        exact Hpax1.
      * rewrite (Hln Hall'). congruence.
      * rewrite (Hll Hall'). congruence.
Qed.

End Chain.

(** ** PAX overrides *)



Lemma apply_pax_headers_no_path pax m :
  pax !! "path"%string = None -> path (fst (apply_pax_headers pax m)) = path m.
Proof.
  intros Hk. unfold apply_pax_headers. rewrite Hk.
  repeat case_match; simplify_eq; reflexivity.
Qed.

Section PaxOverrides.
Context {S : Type} `{!InputStream S}.
Implicit Types r : archive_reader S.




End PaxOverrides.




Section PaxSize.
Context {S : Type} `{!InputStream S}.
Implicit Types r : archive_reader S.


End PaxSize.



(** ** GNU long names and long links *)

(** [pop_trailing_nuls] removes all the NUL bytes at the end and nothing
    else. *)
Lemma pop_trailing_nuls_spec (s : string) :
  (exists k, bytes s = bytes (pop_trailing_nuls s) ++ replicate k NUL)
  /\ last (bytes (pop_trailing_nuls s)) <> Some NUL.
Proof.
  induction s as [|c rest [[k IHk] IHlast]]; simpl.
  - split; [now exists 0%nat | discriminate].
  - destruct (pop_trailing_nuls rest) as [|a t] eqn:Epop.
    + simpl in IHk. destruct (Ascii.eqb_spec c NUL) as [-> | Hc]; simpl.
      * split; [exists (Datatypes.S k); now rewrite IHk | discriminate].
      * split; [exists k; now rewrite IHk | congruence].
    + simpl in *. split; [exists k; now rewrite IHk | exact IHlast].
Qed.

Lemma apply_gnu_extensions_path meta g :
  path (apply_gnu_extensions meta g)
  = if String.eqb (longname g) "" then path meta else longname g.
Proof.
  unfold apply_gnu_extensions, has_longname, has_longlink.
  destruct (String.eqb (longname g) ""), (String.eqb (longlink g) ""); reflexivity.
Qed.

Lemma apply_gnu_extensions_link meta g :
  link_target (apply_gnu_extensions meta g)
  = if String.eqb (longlink g) "" then link_target meta else Some (longlink g).
Proof.
  unfold apply_gnu_extensions, has_longname, has_longlink.
  destruct (String.eqb (longname g) ""), (String.eqb (longlink g) ""); reflexivity.
Qed.

Lemma apply_pax_headers_link pax m :
  link_target (fst (apply_pax_headers pax m)) = link_target m.
Proof. unfold apply_pax_headers. repeat case_match; simplify_eq; reflexivity. Qed.

Section GnuLong.
Context {S : Type} `{!InputStream S}.
Implicit Types r : archive_reader S.

Lemma read_gnu_loop_zero fuel acc (s : S) :
  read_gnu_loop fuel 0 acc s = Some (Ok acc, s).
Proof. destruct fuel; reflexivity. Qed.

(** What [read_gnu_extension_data] returns, in terms of the bytes its
    read loop collects. *)
Lemma read_gnu_extension_data_result fuel n (s s1 s2 : S) payload name :
  read_gnu_loop fuel n [] s = Some (Ok payload, s1) ->
  read_gnu_extension_data fuel n s = Some (Ok name, s2) ->
  name = pop_trailing_nuls (str payload).
Proof.
  intros Hloop. unfold read_gnu_extension_data.
  destruct (n =? 0) eqn:Hn.
  - apply Z.eqb_eq in Hn. subst n. rewrite read_gnu_loop_zero in Hloop.
    injection Hloop as <- _. intros [= <- _]. reflexivity.
  - unfold bind at 1. rewrite Hloop. unfold bind at 1.
    destruct ((if padding_of n >? 0 then skip (padding_of n) else ret ()) s1)
      as [[[[]|e] s3]|]; [|discriminate..].
    intros [= <- _]. reflexivity.
Qed.

Lemma process_gnu_extension_longname fuel ml r1 r2 payload s1 :
  type ml = gnu_longname ->
  read_gnu_loop fuel (size ml) [] (stream_ r1) = Some (Ok payload, s1) ->
  process_gnu_extension fuel ml r1 = Some (Ok true, r2) ->
  pending_gnu_extensions_ r2
  = mk_gnu_extension_data (pop_trailing_nuls (str payload))
                          (longlink (pending_gnu_extensions_ r1)).
Proof.
  intros Hty Hloop. unfold process_gnu_extension, is_gnu_longname.
  rewrite Hty. cbn [entry_type_eqb].
  unfold bind at 1, on_stream at 1.
  destruct (read_gnu_extension_data fuel (size ml) (stream_ r1))
    as [[[name|e] s2]|] eqn:Hread; [|discriminate..].
  rewrite (read_gnu_extension_data_result _ _ _ _ _ _ _ Hloop Hread).
  intros [= <-]. reflexivity.
Qed.

Lemma process_gnu_extension_longlink fuel ml r1 r2 payload s1 :
  type ml = gnu_longlink ->
  read_gnu_loop fuel (size ml) [] (stream_ r1) = Some (Ok payload, s1) ->
  process_gnu_extension fuel ml r1 = Some (Ok true, r2) ->
  pending_gnu_extensions_ r2
  = mk_gnu_extension_data (longname (pending_gnu_extensions_ r1))
                          (pop_trailing_nuls (str payload)).
Proof.
  intros Hty Hloop. unfold process_gnu_extension, is_gnu_longname, is_gnu_longlink.
  rewrite Hty. cbn [entry_type_eqb].
  unfold bind at 1, on_stream at 1.
  destruct (read_gnu_extension_data fuel (size ml) (stream_ r1))
    as [[[name|e] s2]|] eqn:Hread; [|discriminate..].
  rewrite (read_gnu_extension_data_result _ _ _ _ _ _ _ Hloop Hread).
  intros [= <-]. reflexivity.
Qed.

(** C10.  A call of [next_entry] reads a GNU [L] (or [K]) record whose
    read loop collects the bytes [payload]; it then reads further
    extension records, none of the same kind, and reaches the header [m]
    of an entry.  The call yields an entry.  Let [s] be [payload] without
    all its trailing NUL bytes.  For a [K] record the link target of the
    entry is [s], or that of [m] when [s] is empty.  For an [L] record,
    when no PAX [path] record is pending, the path of the entry is [s],
    or that of [m] when [s] is empty. *)
Theorem gnu_long_name_link_applied :
  forall (fuel : nat) (r r1 r2 : archive_reader S) (ml : file_metadata)
         (payload : list ascii) (s1 : S)
         (hs : list file_metadata) (m : file_metadata),
    finished_ r = false ->
    read_header r = Some (Ok (Some ml), r1) ->
    type ml = gnu_longname \/ type ml = gnu_longlink ->
    read_gnu_loop fuel (size ml) [] (stream_ r1) = Some (Ok payload, s1) ->
    process_gnu_extension fuel ml r1 = Some (Ok true, r2) ->
    next_entry_headers fuel r2 = hs ++ [m] ->
    is_entry_header m = true ->
    Forall (fun h => type h <> type ml) hs ->
    let s := pop_trailing_nuls (str payload) in
    (exists k, payload = bytes s ++ replicate k NUL)
    /\ last (bytes s) <> Some NUL
    /\ exists e r',
         next_entry (Datatypes.S fuel) r = Some (Ok (Some e), r')
         /\ (type ml = gnu_longlink ->
             entry_link_target e
             = if String.eqb s "" then link_target m else Some s)
         /\ (type ml = gnu_longname ->
             pending_pax_headers_ r !! "path"%string = None ->
             Forall (fun h => type h <> pax_extended_header) hs ->
             entry_path e = if String.eqb s "" then path m else s).
Proof.
  intros fuel r r1 r2 ml payload s1 hs m
         Hfin Hhdr Hkind Hloop Hproc Hhs Hentry Hsame s.
  destruct (pop_trailing_nuls_spec (str payload)) as [[k Hk] Hlast].
  unfold str, bytes in Hk. rewrite list_ascii_of_string_of_list_ascii in Hk.
  split; [now exists k|]. split; [exact Hlast|].
  rewrite (next_entry_step fuel r ml r1 Hfin Hhdr).
  assert (Hext : is_gnu_extension ml = true).
  { unfold is_gnu_extension, is_gnu_longname, is_gnu_longlink.
    destruct Hkind as [-> | ->]; reflexivity. }
  rewrite Hext, Hproc.
  destruct (next_entry_reaches_emit fuel r2 hs m Hhs Hentry)
    as (r3 & -> & Hpax & Hln & Hll).
  destruct (emit_entry_result m r3) as (e & r' & Hemit & Hp & Hl & _).
  exists e, r'. split; [exact Hemit|]. split.
  - (* long link *)
    intros Hty. rewrite Hl. unfold overridden.
    rewrite Hty in Hsame.
    assert (Hlink : longlink (pending_gnu_extensions_ r3) = s).
    { rewrite (Hll Hsame).
      now rewrite (process_gnu_extension_longlink _ _ _ _ _ _ Hty Hloop Hproc). }
    destruct (pax_is_empty (pending_pax_headers_ r3));
      rewrite ?apply_pax_headers_link, apply_gnu_extensions_link, Hlink;
      reflexivity.
  - (* long name *)
    intros Hty Hnopath Hnox. rewrite Hp. unfold overridden.
    rewrite Hty in Hsame.
    assert (Hname : longname (pending_gnu_extensions_ r3) = s).
    { rewrite (Hln Hsame).
      now rewrite (process_gnu_extension_longname _ _ _ _ _ _ Hty Hloop Hproc). }
    assert (Hpend : pending_pax_headers_ r3 !! "path"%string = None).
    { rewrite (Hpax Hnox).
      rewrite (process_gnu_extension_keeps_pax _ _ _ _ _ Hproc).
      now rewrite (read_header_keeps_pax _ _ _ Hhdr). }
    destruct (pax_is_empty (pending_pax_headers_ r3));
      rewrite ?(apply_pax_headers_no_path _ _ Hpend), apply_gnu_extensions_path, Hname;
      reflexivity.
Qed.

End GnuLong.

Lemma gnu_long_name_link_applied_witness :
  let s := pop_trailing_nuls (str Examples.long_name_payload) in
  (exists k, Examples.long_name_payload = bytes s ++ replicate k NUL)
  /\ last (bytes s) <> Some NUL
  /\ exists e r',
       next_entry 3 (new_reader (open_memory Examples.long_name_archive))
       = Some (Ok (Some e), r')
       /\ (type (Examples.header_at 0 Examples.long_name_archive) = gnu_longlink ->
           entry_link_target e
           = if String.eqb s ""
             then link_target (Examples.header_at 1024 Examples.long_name_archive)
             else Some s)
       /\ (type (Examples.header_at 0 Examples.long_name_archive) = gnu_longname ->
           pending_pax_headers_ (new_reader (open_memory Examples.long_name_archive))
             !! "path"%string = None ->
           Forall (fun h => type h <> pax_extended_header) [] ->
           entry_path e
           = if String.eqb s ""
             then path (Examples.header_at 1024 Examples.long_name_archive)
             else s).
Proof.
  apply (gnu_long_name_link_applied 2
           (new_reader (open_memory Examples.long_name_archive))
           (new_reader (mk_mms Examples.long_name_archive 512))
           (set_pending_gnu (mk_gnu_extension_data "long/name" "")
              (new_reader (mk_mms Examples.long_name_archive 1024)))
           (Examples.header_at 0 Examples.long_name_archive)
           Examples.long_name_payload
           (mk_mms Examples.long_name_archive 524)
           []
           (Examples.header_at 1024 Examples.long_name_archive)).
  - reflexivity.
  - vm_compute. reflexivity.
  - left. vm_compute. reflexivity.
  - vm_compute. reflexivity.
  - vm_compute. reflexivity.
  - vm_compute. reflexivity.
  - vm_compute. reflexivity.
  - constructor.
Defined.

(** ** The sparse 1.0 map in the data block *)


Lemma LF_not_digit : is_decimal_digit LF = false.
Proof. reflexivity. Qed.

Lemma NUL_not_digit : is_decimal_digit NUL = false.
Proof. reflexivity. Qed.

Lemma decimal_prefix_app ds c l :
  forallb is_decimal_digit ds = true -> is_decimal_digit c = false ->
  decimal_prefix (ds ++ c :: l) = ds.
Proof.
  intros Hds Hc. induction ds as [|d ds IH]; simpl in *.
  - now rewrite Hc.
  - apply andb_true_iff in Hds as [Hd Hds]. rewrite Hd. f_equal. now apply IH.
Qed.










Section SparseMap.
Context {S : Type} `{!InputStream S}.


End SparseMap.



(** ** Sparse entries: the padding and the reads *)

(** C2 at a sparse entry.  The entry of [Examples.sparse_archive] stores
    150 bytes, so its payload and padding end at 512 + 150 + 362 = 1024,
    where the header of "after.txt" stands.  The next call of
    [next_entry] skips the 150 bytes and then a padding computed over the
    real size 1100, 436 bytes: it reads a record at 1098 and fails. *)
Lemma sparse_entry_padding_uses_real_size :
  exists e r1,
    next_entry 2 (new_reader (open_memory Examples.sparse_archive))
    = Some (Ok (Some e), r1)
    /\ sparse_info (metadata_ e) = Some Examples.sparse_descriptor
    /\ position_ (stream_ r1) = 512
    /\ total_data_size Examples.sparse_descriptor = 150
    /\ padding_of 150 = 362
    /\ padding_of (real_size Examples.sparse_descriptor) = 436
    /\ path (Examples.header_at 1024 Examples.sparse_archive) = "after.txt"%string
    /\ exists err r2,
         next_entry 2 r1 = Some (Unexpected err, r2)
         /\ code err = invalid_header
         /\ position_ (stream_ r2) = 512 + 150 + 436 + 512.
Proof.
  eexists _, _. split; [vm_compute; reflexivity|].
  repeat (split; [vm_compute; reflexivity|]).
  eexists _, _. split; [vm_compute; reflexivity|].
  split; vm_compute; reflexivity.
Qed.

(** C3 at the same entry.  Reading the first segment from its start
    works; a read that reaches the second segment, alone or as the end of
    a read of the whole file, fails with the unsupported-feature error of
    the base reader, which refuses every physical offset above 0. *)
Lemma sparse_second_segment_read_fails :
  exists e r1,
    next_entry 2 (new_reader (open_memory Examples.sparse_archive))
    = Some (Ok (Some e), r1)
    /\ data_source_ e = sparse_reader_fn Examples.sparse_descriptor
    /\ find_segment Examples.sparse_descriptor 1000 = Some 1
    /\ (exists r', read_data 10 e 0 100 r1 = Some (Ok (replicate 100 "A"%char), r'))
    /\ (exists r', read_data 10 e 1000 50 r1
                   = Some (Unexpected
                             (mk_error unsupported_feature
                                "Streaming mode doesn't support offset reads"), r'))
    /\ (exists r', read_data 10 e 0 1100 r1
                   = Some (Unexpected
                             (mk_error unsupported_feature
                                "Streaming mode doesn't support offset reads"), r')).
Proof.
  eexists _, _. split; [vm_compute; reflexivity|].
  split; [vm_compute; reflexivity|].
  split; [vm_compute; reflexivity|].
  repeat split; eexists; vm_compute; reflexivity.
Qed.

(** ** Memory streams *)

Lemma wrap64_small x : 0 <= x < 2 ^ 64 -> wrap64 x = x.
Proof. intros Hx. unfold wrap64. now apply Z.mod_small. Qed.

Lemma mms_skip_within data pos n :
  0 <= pos -> 0 <= n -> pos + n <= zlen data -> zlen data < 2 ^ 64 ->
  mms_skip n (mk_mms data pos) = (Ok tt, mk_mms data (pos + n)).
Proof.
  intros Hpos Hn Hle Hlen. unfold mms_skip. cbn [position_ data_].
  rewrite wrap64_small by lia.
  destruct (pos + n >? zlen data) eqn:E; [lia | reflexivity].
Qed.

Lemma mms_read_within data pos n :
  0 <= pos -> 0 <= n -> pos + n <= zlen data -> zlen data < 2 ^ 64 ->
  mms_read n (mk_mms data pos)
  = (Ok (ztake n (zdrop pos data)), mk_mms data (pos + n)).
Proof.
  intros Hpos Hn Hle Hlen. unfold mms_read. cbn [position_ data_].
  rewrite (wrap64_small (zlen data - pos)) by lia.
  rewrite Z.min_l by lia. now rewrite wrap64_small by lia.
Qed.

Lemma zlen_ztake_zdrop (data : list ascii) pos n :
  0 <= pos -> 0 <= n -> pos + n <= zlen data -> zlen (ztake n (zdrop pos data)) = n.
Proof.
  intros Hpos Hn Hle. unfold zlen, ztake, zdrop in *.
  rewrite length_take, length_drop. lia.
Qed.

Lemma ztake_zdrop_app (data : list ascii) pos a b :
  0 <= pos -> 0 <= a -> 0 <= b ->
  ztake a (zdrop pos data) ++ ztake b (zdrop (pos + a) data)
  = ztake (a + b) (zdrop pos data).
Proof.
  intros Hpos Ha Hb. unfold ztake, zdrop.
  rewrite !Z2Nat.inj_add by lia. rewrite <- drop_drop.
  apply take_take_drop.
Qed.

(** On a memory stream that holds the record, the read loop of
    [read_gnu_extension_data] collects exactly the [n] payload bytes that
    stand at the position of the stream. *)
Lemma mms_read_gnu_loop fuel :
  forall data pos n acc,
    0 <= pos -> 0 <= n -> pos + n <= zlen data -> zlen data < 2 ^ 64 ->
    n <= 512 * Z.of_nat fuel ->
    read_gnu_loop fuel n acc (mk_mms data pos)
    = Some (Ok (acc ++ ztake n (zdrop pos data)), mk_mms data (pos + n)).
Proof.
  induction fuel as [|fuel IH]; intros data pos n acc Hpos Hn Hle Hlen Hfuel.
  - assert (n = 0) as -> by lia. simpl. unfold ret, ztake. simpl.
    now rewrite app_nil_r, Z.add_0_r.
  - cbn [read_gnu_loop]. destruct (n >? 0) eqn:Hn0.
    2: { assert (n = 0) as -> by lia. unfold ret, ztake. simpl.
         now rewrite app_nil_r, Z.add_0_r. }
    unfold bind, read. cbn [stream_read memory_mapped_input_stream].
    set (to_read := Z.min n BLOCK_SIZE).
    assert (Hto : 0 < to_read <= n /\ (to_read = n \/ to_read = 512))
      by (unfold to_read, BLOCK_SIZE; lia).
    rewrite mms_read_within by lia.
    rewrite zlen_ztake_zdrop by lia.
    destruct (to_read =? 0) eqn:E0; [lia|].
    rewrite wrap64_small by lia.
    rewrite IH by lia.
    rewrite <- app_assoc.
    rewrite (ztake_zdrop_app data pos to_read (n - to_read)) by lia.
    replace (to_read + (n - to_read)) with n by lia.
    replace (pos + to_read + (n - to_read)) with (pos + n) by lia.
    reflexivity.
Qed.

Lemma base_reader_rejects_offsets {S : Type} `{!InputStream S}
    (offset length : Z) (r : archive_reader S) :
  offset > 0 ->
  base_reader offset length r
  = Some (Unexpected (mk_error unsupported_feature
                        "Streaming mode doesn't support offset reads"), r).
Proof.
  intros Hoff. unfold base_reader.
  destruct (offset >? 0) eqn:E; [reflexivity | lia].
Qed.

(** What [skip_current_entry_data] skips on a memory stream: the bytes
    not yet consumed, then the padding of the size the entry reports. *)
Lemma mms_skip_current_entry_data (r : archive_reader memory_mapped_stream) e :
  current_entry_ r = Some e ->
  let pos := position_ (stream_ r) in
  let remaining := current_entry_data_remaining_ r in
  let padding := if entry_size e >? 0 then padding_of (entry_size e) else 0 in
  0 <= pos -> 0 <= remaining ->
  pos + remaining + padding <= zlen (data_ (stream_ r)) ->
  zlen (data_ (stream_ r)) < 2 ^ 64 ->
  exists r',
    skip_current_entry_data r = Some (Ok tt, r')
    /\ stream_ r' = mk_mms (data_ (stream_ r)) (pos + remaining + padding).
Proof.
  intros Hcur pos remaining padding Hpos Hrem Hle Hlen.
  destruct r as [[data p] cur rem cons fin gnu sp pax needs].
  cbn [current_entry_ stream_ position_ data_ current_entry_data_remaining_] in *.
  subst cur pos remaining.
  assert (Hpad : 0 <= padding_of (entry_size e) < 512).
  { unfold padding_of, BLOCK_SIZE. apply Z.mod_pos_bound. lia. }
  unfold skip_current_entry_data, bind at 1, get at 1.
  cbn [current_entry_ current_entry_data_remaining_].
  unfold bind at 1.
  assert (Hfirst : exists r1,
    (if rem >? 0 then on_stream (skip rem) else ret ())
      (mk_archive_reader (mk_mms data p) (Some e) rem cons fin gnu sp pax needs)
    = Some (Ok tt, r1)
    /\ r1 = mk_archive_reader (mk_mms data (p + rem)) (Some e) rem cons fin gnu sp pax needs).
  { destruct (rem >? 0) eqn:E.
    - unfold on_stream, skip. cbn [stream_ stream_skip memory_mapped_input_stream].
      assert (0 <= padding) by (unfold padding; destruct (entry_size e >? 0); lia).
      rewrite mms_skip_within by lia. eexists. split; reflexivity.
    - assert (rem = 0) as -> by lia. rewrite Z.add_0_r.
      eexists. split; reflexivity. }
  destruct Hfirst as (r1 & -> & ->).
  unfold bind at 1. subst padding.
  destruct (entry_size e >? 0) eqn:Esz.
  - unfold skip_padding. destruct (padding_of (entry_size e) >? 0) eqn:Ep.
    + unfold on_stream, skip. cbn [stream_ stream_skip memory_mapped_input_stream].
      rewrite mms_skip_within by lia.
      eexists. split; reflexivity.
    + assert (padding_of (entry_size e) = 0) as -> by lia.
      rewrite Z.add_0_r. eexists. split; reflexivity.
  - rewrite Z.add_0_r. eexists. split; reflexivity.
Qed.

(** * Further properties of the library *)

(** ** The memory stream as a random-access stream *)

Lemma wrap64_range x : 0 <= wrap64 x < 2 ^ 64.
Proof. unfold wrap64. apply Z.mod_pos_bound. lia. Qed.

(** X1.  Whatever [read], [skip] or [seek] is asked to do with an
    argument in the range of [size_t], and whether the call succeeds or
    fails, the position of a memory stream stays inside its data. *)
Theorem mms_position_within_data (s : memory_mapped_stream) (n : Z) :
  mms_wf s -> 0 <= n < 2 ^ 64 ->
  mms_wf (snd (mms_read n s))
  /\ mms_wf (snd (mms_skip n s))
  /\ mms_wf (snd (mms_seek n s)).
Proof.
  intros [Hpos Hlen] Hn. destruct s as [data pos]. cbn [position_ data_] in *.
  unfold mms_wf, mms_read, mms_skip, mms_seek. cbn [position_ data_].
  rewrite (wrap64_small (zlen data - pos)) by lia.
  pose proof (wrap64_range (pos + n)).
  split; [|split].
  - cbn [snd position_ data_]. rewrite wrap64_small by lia. lia.
  - destruct (wrap64 (pos + n) >? zlen data) eqn:E; cbn [snd position_ data_]; lia.
  - destruct (n >? zlen data) eqn:E; cbn [snd position_ data_]; lia.
Qed.

Lemma mms_position_within_data_witness :
  mms_wf (snd (mms_read 100 (mk_mms (bytes "archive") 3)))
  /\ mms_wf (snd (mms_skip 100 (mk_mms (bytes "archive") 3)))
  /\ mms_wf (snd (mms_seek 100 (mk_mms (bytes "archive") 3))).
Proof.
  apply (mms_position_within_data (mk_mms (bytes "archive") 3) 100).
  - unfold mms_wf, zlen. simpl. lia.
  - lia.
Defined.

(** A read returns the bytes between the position and the end of the
    data, at most as many as asked for, and moves the position past them. *)
Lemma mms_read_spec data pos n :
  mms_wf (mk_mms data pos) -> 0 <= n ->
  let k := Z.min n (zlen data - pos) in
  mms_read n (mk_mms data pos) = (Ok (ztake k (zdrop pos data)), mk_mms data (pos + k)).
Proof.
  intros [Hpos Hlen] Hn k. cbn [position_ data_] in *. unfold mms_read.
  cbn [position_ data_]. rewrite (wrap64_small (zlen data - pos)) by lia.
  fold k. rewrite wrap64_small by lia. reflexivity.
Qed.

(** X2.  Reads never fail and compose: a read of [n] bytes followed by a
    read of [m] bytes returns, concatenated, what one read of [n + m]
    bytes returns, and leaves the stream in the same state; this holds
    also when the data ends inside either read. *)
Theorem mms_read_twice (s : memory_mapped_stream) (n m : Z) :
  mms_wf s -> 0 <= n -> 0 <= m ->
  exists d1 d2 s1 s2,
    mms_read n s = (Ok d1, s1)
    /\ mms_read m s1 = (Ok d2, s2)
    /\ mms_read (n + m) s = (Ok (d1 ++ d2), s2).
Proof.
  intros Hwf Hn Hm. destruct s as [data pos].
  pose proof Hwf as [Hpos Hlen]. cbn [position_ data_] in *.
  set (k := Z.min n (zlen data - pos)).
  assert (Hwf1 : mms_wf (mk_mms data (pos + k))).
  { split; cbn [position_ data_]; lia. }
  set (k2 := Z.min m (zlen data - (pos + k))).
  do 4 eexists. split; [apply (mms_read_spec data pos n Hwf Hn)|].
  split; [apply (mms_read_spec data (pos + k) m Hwf1 Hm)|].
  rewrite (mms_read_spec data pos (n + m) Hwf) by lia.
  fold k k2. rewrite ztake_zdrop_app by lia.
  replace (Z.min (n + m) (zlen data - pos)) with (k + k2) by lia.
  now rewrite Z.add_assoc.
Qed.

Lemma mms_read_twice_witness :
  exists d1 d2 s1 s2,
    mms_read 4 (mk_mms (bytes "archive") 1) = (Ok d1, s1)
    /\ mms_read 9 s1 = (Ok d2, s2)
    /\ mms_read (4 + 9) (mk_mms (bytes "archive") 1) = (Ok (d1 ++ d2), s2).
Proof.
  apply (mms_read_twice (mk_mms (bytes "archive") 1) 4 9).
  - unfold mms_wf, zlen. simpl. lia.
  - lia.
  - lia.
Defined.

(** X3.  When [position + n] does not overflow, [skip n] succeeds
    exactly when [n] bytes are left, and then it leaves the stream as a
    read of [n] bytes does.  When fewer bytes are left it fails with an
    I/O error and does not move, whereas a read of [n] bytes moves to the
    end of the data. *)
Theorem mms_skip_is_read_and_drop (s : memory_mapped_stream) (n : Z) :
  mms_wf s -> 0 <= n -> position_ s + n < 2 ^ 64 ->
  if position_ s + n <=? zlen (data_ s)
  then mms_skip n s = (Ok tt, snd (mms_read n s))
  else mms_skip n s = (Unexpected (mk_error io_error "Skip past end of stream"), s)
       /\ snd (mms_read n s) = mk_mms (data_ s) (zlen (data_ s)).
Proof.
  intros Hwf Hn Hno. destruct s as [data pos].
  pose proof Hwf as [Hpos Hlen]. cbn [position_ data_] in *.
  rewrite (mms_read_spec data pos n Hwf Hn). cbn [snd].
  unfold mms_skip. cbn [position_ data_]. rewrite wrap64_small by lia.
  destruct (pos + n <=? zlen data) eqn:E.
  - destruct (pos + n >? zlen data) eqn:E'; [lia|].
    now rewrite Z.min_l by lia.
  - destruct (pos + n >? zlen data) eqn:E'; [|lia].
    split; [reflexivity|]. f_equal. lia.
Qed.

Lemma mms_skip_is_read_and_drop_witness :
  mms_skip 4 (mk_mms (bytes "archive") 1)
  = (Ok tt, snd (mms_read 4 (mk_mms (bytes "archive") 1)))
  /\ mms_skip 9 (mk_mms (bytes "archive") 1)
     = (Unexpected (mk_error io_error "Skip past end of stream"),
        mk_mms (bytes "archive") 1).
Proof.
  split.
  - apply (mms_skip_is_read_and_drop (mk_mms (bytes "archive") 1) 4).
    + unfold mms_wf, zlen. simpl. lia.
    + lia.
    + simpl. lia.
  - apply (mms_skip_is_read_and_drop (mk_mms (bytes "archive") 1) 9).
    + unfold mms_wf, zlen. simpl. lia.
    + lia.
    + simpl. lia.
Defined.

(** X4.  The bound test of [skip] adds in [size_t]: when [position + n]
    passes 2^64 the sum wraps, the test passes and the call succeeds,
    leaving the position before the place where it was. *)
Theorem mms_skip_wraps_around (s : memory_mapped_stream) (n : Z) :
  mms_wf s -> 0 <= n < 2 ^ 64 -> 2 ^ 64 <= position_ s + n ->
  exists p, mms_skip n s = (Ok tt, mk_mms (data_ s) p) /\ 0 <= p < position_ s.
Proof.
  intros [Hpos Hlen] Hn Hover. destruct s as [data pos]. cbn [position_ data_] in *.
  exists (pos + n - 2 ^ 64). split; [|lia].
  unfold mms_skip. cbn [position_ data_].
  assert (Hw : wrap64 (pos + n) = pos + n - 2 ^ 64).
  { unfold wrap64. symmetry. apply (Z.mod_unique (pos + n) (2 ^ 64) 1); lia. }
  rewrite Hw. destruct (pos + n - 2 ^ 64 >? zlen data) eqn:E; [lia | reflexivity].
Qed.

Lemma mms_skip_wraps_around_witness :
  exists p, mms_skip (2 ^ 64 - 2) (mk_mms (bytes "archive") 5)
            = (Ok tt, mk_mms (bytes "archive") p)
            /\ 0 <= p < 5.
Proof.
  apply (mms_skip_wraps_around (mk_mms (bytes "archive") 5) (2 ^ 64 - 2)).
  - unfold mms_wf, zlen. simpl. lia.
  - lia.
  - simpl. lia.
Defined.

(** X5.  [seek p] succeeds exactly when [p] is not past the end of the
    data; the position is then [p], the next read returns the bytes from
    offset [p] on, and [at_end] holds exactly when [p] is the size.  A
    seek past the end is an I/O error and leaves the stream as it was. *)
Theorem mms_seek_then_read (s : memory_mapped_stream) (p n : Z) :
  mms_wf s -> 0 <= p -> 0 <= n ->
  if p <=? zlen (data_ s)
  then exists s1,
         mms_seek p s = (Ok tt, s1)
         /\ mms_position s1 = p
         /\ fst (mms_read n s1)
            = Ok (ztake (Z.min n (zlen (data_ s) - p)) (zdrop p (data_ s)))
         /\ (mms_at_end s1 = true <-> p = zlen (data_ s))
  else mms_seek p s = (Unexpected (mk_error io_error "Seek past end of stream"), s).
Proof.
  intros [Hpos Hlen] Hp Hn. destruct s as [data pos]. cbn [position_ data_] in *.
  unfold mms_seek. cbn [position_ data_].
  destruct (p <=? zlen data) eqn:E.
  - destruct (p >? zlen data) eqn:E'; [lia|].
    eexists. split; [reflexivity|]. split; [reflexivity|]. split.
    + rewrite mms_read_spec by (try split; cbn [position_ data_]; lia). reflexivity.
    + unfold mms_at_end. cbn [position_ data_]. rewrite Z.geb_le. lia.
  - destruct (p >? zlen data) eqn:E'; [reflexivity | lia].
Qed.

Lemma mms_seek_then_read_witness :
  (exists s1,
     mms_seek 4 (mk_mms (bytes "archive") 0) = (Ok tt, s1)
     /\ mms_position s1 = 4
     /\ fst (mms_read 2 s1)
        = Ok (ztake (Z.min 2 (zlen (bytes "archive") - 4)) (zdrop 4 (bytes "archive")))
     /\ (mms_at_end s1 = true <-> 4 = zlen (bytes "archive")))
  /\ mms_seek 8 (mk_mms (bytes "archive") 0)
     = (Unexpected (mk_error io_error "Seek past end of stream"),
        mk_mms (bytes "archive") 0).
Proof.
  split.
  - apply (mms_seek_then_read (mk_mms (bytes "archive") 0) 4 2).
    + unfold mms_wf, zlen. simpl. lia.
    + lia.
    + lia.
  - apply (mms_seek_then_read (mk_mms (bytes "archive") 0) 8 0).
    + unfold mms_wf, zlen. simpl. lia.
    + lia.
    + lia.
Defined.

(** ** Octal fields of the header *)

Lemma lor_shiftl_3 r d : 0 <= r -> 0 <= d < 8 -> Z.lor (Z.shiftl r 3) d = r * 8 + d.
Proof.
  intros Hr Hd. rewrite Z.shiftl_mul_pow2 by lia. change (2 ^ 3) with 8.
  assert (Hland : Z.land (r * 8) d = 0).
  { apply Z.bits_inj'. intros n Hn. rewrite Z.land_spec, Z.bits_0.
    destruct (Z.lt_ge_cases n 3) as [Hlt | Hge].
    - change 8 with (2 ^ 3). now rewrite Z.mul_pow2_bits_low.
    - destruct (Z.eq_dec d 0) as [-> | Hd0]; [now rewrite Z.bits_0, andb_false_r|].
      rewrite (Z.bits_above_log2 d n), andb_false_r; [reflexivity | lia |].
      apply Z.log2_lt_pow2; [lia|]. 
      apply Z.lt_le_trans with (2 ^ 3); [simpl; lia|].
      apply Z.pow_le_mono_r; lia. }
  rewrite <- Z.lxor_lor by exact Hland.
  symmetry. now apply Z.add_nocarry_lxor.
Qed.

Lemma ord_range c : 0 <= ord c < 256.
Proof.
  unfold ord. pose proof (N_ascii_bounded c). lia.
Qed.

Lemma octal_digit_facts c :
  is_octal_digit c = true ->
  Ascii.eqb c NUL = false /\ Ascii.eqb c SP = false
  /\ (ord c <? ord "0") = false /\ (ord c >? ord "7") = false
  /\ 0 <= ord c - ord "0" < 8.
Proof.
  unfold is_octal_digit. intros H. apply andb_true_iff in H as [H1 H2].
  apply Z.leb_le in H1, H2.
  change (ord "0") with 48 in *. change (ord "7") with 55 in *.
  repeat split; try lia.
  - apply Ascii.eqb_neq. intros ->. change (ord NUL) with 0 in *. lia.
  - apply Ascii.eqb_neq. intros ->. change (ord SP) with 32 in *. lia.
Qed.

Lemma octal_fold_lower ds acc :
  0 <= acc -> forallb is_octal_digit ds = true ->
  acc <= fold_left (fun a c => a * 8 + (ord c - ord "0")) ds acc.
Proof.
  revert acc. induction ds as [|c ds IH]; intros acc Hacc Hds; simpl in *; [lia|].
  apply andb_true_iff in Hds as [Hc Hds].
  destruct (octal_digit_facts c Hc) as (_ & _ & _ & _ & Hd).
  specialize (IH (acc * 8 + (ord c - ord "0")) ltac:(lia) Hds). lia.
Qed.

Lemma parse_octal_loop_digits ds tail acc :
  forallb is_octal_digit ds = true ->
  match tail with [] => True | c :: _ => is_field_blank c = true end ->
  0 <= acc < 2 ^ 64 ->
  let v := fold_left (fun a c => a * 8 + (ord c - ord "0")) ds acc in
  parse_octal_loop (ds ++ tail) acc true
  = if v <? 2 ^ 64 then Ok v else err invalid_header "Octal value overflow".
Proof.
  revert acc. induction ds as [|c ds IH]; intros acc Hds Htail Hacc v.
  - simpl in v. subst v. destruct (acc <? 2 ^ 64) eqn:E; [|lia].
    simpl. destruct tail as [|t tail]; [reflexivity|].
    cbn [parse_octal_loop]. unfold is_field_blank in Htail. rewrite Htail. reflexivity.
  - simpl in Hds. apply andb_true_iff in Hds as [Hc Hds].
    destruct (octal_digit_facts c Hc) as (Hn & Hs & Hlo & Hhi & Hd).
    cbn [app parse_octal_loop]. rewrite Hn, Hs, Hlo, Hhi. cbn [orb].
    change (Z.shiftr UINT64_MAX 3) with (2 ^ 61 - 1).
    destruct (acc >? 2 ^ 61 - 1) eqn:Eov.
    + pose proof (octal_fold_lower ds (acc * 8 + (ord c - ord "0")) ltac:(lia) Hds).
      subst v. cbn [fold_left]. 
      destruct (_ <? 2 ^ 64) eqn:E; [lia | reflexivity].
    + rewrite lor_shiftl_3 by lia.
      apply IH; [exact Hds | exact Htail | lia].
Qed.

Lemma parse_octal_loop_blanks blanks rest :
  forallb is_field_blank blanks = true ->
  parse_octal_loop (blanks ++ rest) 0 false = parse_octal_loop rest 0 false.
Proof.
  induction blanks as [|b blanks IH]; intros H; [reflexivity|].
  simpl in H. apply andb_true_iff in H as [Hb H].
  cbn [app parse_octal_loop]. unfold is_field_blank in Hb. rewrite Hb.
  cbn [negb]. now apply IH.
Qed.

(** X6.  [parse_octal] reads a field made of NUL or space bytes, then
    octal digits, then either the end of the field or a NUL or space
    followed by anything: the result is the value of the digits, and what
    follows the terminator is not looked at.  The call fails with "Octal
    value overflow" exactly when that value does not fit 64 bits. *)
Theorem parse_octal_numeral (blanks ds tail : list ascii) :
  forallb is_field_blank blanks = true ->
  ds <> [] -> forallb is_octal_digit ds = true ->
  match tail with [] => True | c :: _ => is_field_blank c = true end ->
  parse_octal (blanks ++ ds ++ tail)
  = if octal_value ds <? 2 ^ 64 then Ok (octal_value ds)
    else err invalid_header "Octal value overflow".
Proof.
  intros Hb Hne Hds Htail. unfold parse_octal.
  rewrite parse_octal_loop_blanks by exact Hb.
  destruct ds as [|c ds]; [congruence|].
  simpl in Hds. apply andb_true_iff in Hds as [Hc Hds].
  destruct (octal_digit_facts c Hc) as (Hn & Hs & Hlo & Hhi & Hd).
  cbn [app parse_octal_loop]. rewrite Hn, Hs, Hlo, Hhi. cbn [orb].
  change (0 >? Z.shiftr UINT64_MAX 3) with false. cbv iota.
  rewrite lor_shiftl_3 by lia.
  rewrite parse_octal_loop_digits by (auto; lia).
  reflexivity.
Qed.

Lemma parse_octal_numeral_witness :
  parse_octal (bytes " 0000644" ++ [NUL] ++ bytes "junk") = Ok 420.
Proof.
  apply (parse_octal_numeral [SP] (bytes "0000644") (NUL :: bytes "junk"));
    [reflexivity | discriminate | reflexivity | reflexivity].
Defined.

(** A field without any digit counts as zero. *)
Lemma parse_octal_blank_field (fld : list ascii) :
  forallb is_field_blank fld = true -> parse_octal fld = Ok 0.
Proof.
  intros H. unfold parse_octal.
  rewrite <- (app_nil_r fld). now rewrite parse_octal_loop_blanks.
Qed.

Lemma parse_octal_loop_range fld acc found v :
  0 <= acc < 2 ^ 64 ->
  parse_octal_loop fld acc found = Ok v -> 0 <= v < 2 ^ 64.
Proof.
  revert acc found. induction fld as [|c fld IH]; intros acc found Hacc.
  - simpl. destruct found; intros [= <-]; lia.
  - cbn [parse_octal_loop].
    destruct (Ascii.eqb c NUL || Ascii.eqb c SP).
    + destruct found; cbn [negb].
      * intros [= <-]; lia.
      * now apply IH.
    + destruct ((ord c <? ord "0") || (ord c >? ord "7")) eqn:Ed; [discriminate|].
      change (Z.shiftr UINT64_MAX 3) with (2 ^ 61 - 1).
      destruct (acc >? 2 ^ 61 - 1) eqn:Eov; [discriminate|].
      apply orb_false_iff in Ed as [E1 E2].
      change (ord "0") with 48 in *. change (ord "7") with 55 in *.
      rewrite lor_shiftl_3 by lia. apply IH. lia.
Qed.

(** X7.  A value returned by [parse_octal] fits a [uint64_t]: the
    overflow test is made before each shift, so the accumulator never
    wraps. *)
Theorem parse_octal_fits_64_bits (fld : list ascii) (v : Z) :
  parse_octal fld = Ok v -> 0 <= v < 2 ^ 64.
Proof. apply parse_octal_loop_range. lia. Qed.

Lemma parse_octal_fits_64_bits_witness : 0 <= 420 < 2 ^ 64.
Proof.
  apply (parse_octal_fits_64_bits (bytes "0000644")). reflexivity.
Defined.

(** ** The header checksum *)

Lemma byte_sum_app a b : byte_sum (a ++ b) = byte_sum a + byte_sum b.
Proof. induction a as [|x a IH]; simpl; [reflexivity|]. unfold byte_sum in *. simpl. rewrite IH. lia. Qed.

Lemma byte_sum_bound l : 0 <= byte_sum l <= 255 * Z.of_nat (length l).
Proof.
  induction l as [|x l IH]; [simpl; unfold byte_sum; simpl; lia|].
  unfold byte_sum in *. cbn [foldr length]. pose proof (ord_range x). lia.
Qed.

Lemma checksum_fold l acc :
  0 <= acc -> acc + 255 * Z.of_nat (length l) < 2 ^ 32 ->
  fold_left (fun sum b => wrap32 (sum + ord b)) l acc = acc + byte_sum l.
Proof.
  revert acc. induction l as [|x l IH]; intros acc Hacc Hb.
  - unfold byte_sum. simpl. lia.
  - cbn [fold_left]. pose proof (ord_range x). cbn [length] in Hb.
    unfold wrap32 at 2. rewrite Z.mod_small by lia.
    rewrite IH by lia. unfold byte_sum. cbn [foldr]. lia.
Qed.

Lemma calculate_checksum_sum block :
  length block = 512%nat ->
  calculate_checksum block
  = byte_sum (take 148 block) + 256 + byte_sum (drop 156 block).
Proof.
  intros Hlen. unfold calculate_checksum.
  rewrite checksum_fold.
  - rewrite !byte_sum_app. change (byte_sum (replicate 8 SP)) with 256. lia.
  - lia.
  - rewrite !length_app, length_take, length_drop, length_replicate, Hlen. simpl. lia.
Qed.

(** X8.  The checksum of a record does not depend on the eight bytes of
    its checksum field, which count as spaces; the sum of a 512-byte
    record lies between 256 and 128776, far from the range where the
    32-bit accumulator would wrap. *)
Theorem calculate_checksum_skips_stored_value (block stored : list ascii) :
  length block = 512%nat -> length stored = 8%nat ->
  calculate_checksum (Fixtures.patch 148 stored block) = calculate_checksum block
  /\ 256 <= calculate_checksum block <= 128776.
Proof.
  intros Hlen Hst. split.
  - unfold calculate_checksum, Fixtures.patch. rewrite Hst. f_equal.
    rewrite take_app_le by (rewrite length_take; lia).
    rewrite take_take. change (148 `min` 148)%nat with 148%nat.
    f_equal. f_equal.
    change (156)%nat with (148 + 8)%nat at 1.
    rewrite <- drop_drop.
    rewrite drop_app_length' by (rewrite length_take; lia).
    rewrite drop_app_length' by lia. reflexivity.
  - rewrite calculate_checksum_sum by exact Hlen.
    pose proof (byte_sum_bound (take 148 block)).
    pose proof (byte_sum_bound (drop 156 block)).
    rewrite length_take in *. rewrite length_drop in *. lia.
Qed.

Lemma calculate_checksum_skips_stored_value_witness :
  calculate_checksum (Fixtures.patch 148 (bytes "garbage!") Examples.gnu_version_header)
  = calculate_checksum Examples.gnu_version_header
  /\ 256 <= calculate_checksum Examples.gnu_version_header <= 128776.
Proof.
  apply (calculate_checksum_skips_stored_value Examples.gnu_version_header (bytes "garbage!"));
    reflexivity.
Defined.

(** ** What [parse_header] accepts *)

Lemma parse_header_ok_checksum block m :
  parse_header block = Ok m ->
  magic_recognized block = true
  /\ parse_octal (hdr_checksum block) = Ok (calculate_checksum block).
Proof.
  unfold parse_header, magic_recognized.
  destruct (String.eqb (extract_string (hdr_magic block)) "ustar");
    destruct (is_gnu_tar_magic (extract_string (hdr_magic block)));
    cbn [negb andb orb]; try discriminate.
  all: destruct (negb (String.eqb _ "00") && negb (String.eqb _ " ")); try discriminate.
  all: destruct (parse_octal (hdr_checksum block)) as [stored|e]; try discriminate.
  all: destruct (calculate_checksum block =? stored) eqn:E; cbn [negb]; try discriminate.
  all: apply Z.eqb_eq in E; subst stored; intros _; split; reflexivity.
Qed.

Lemma byte_sum_insert (l : list ascii) i b b' :
  l !! i = Some b -> byte_sum (<[i := b']> l) = byte_sum l - ord b + ord b'.
Proof.
  revert i. induction l as [|x l IH]; intros i Hi; [discriminate|].
  destruct i as [|i]; simpl in *.
  - injection Hi as ->. unfold byte_sum. simpl. lia.
  - unfold byte_sum in *. simpl. rewrite (IH i Hi). lia.
Qed.

Lemma ord_inj a b : ord a = ord b -> a = b.
Proof.
  unfold ord. intros H. apply N2Z.inj in H.
  rewrite <- (ascii_N_embedding a), <- (ascii_N_embedding b). now rewrite H.
Qed.

Lemma checksum_insert block i b b' :
  length block = 512%nat -> (i < 148 \/ 156 <= i)%nat ->
  block !! i = Some b ->
  calculate_checksum (<[i := b']> block) = calculate_checksum block - ord b + ord b'
  /\ hdr_checksum (<[i := b']> block) = hdr_checksum block.
Proof.
  intros Hlen Hi Hb.
  rewrite !calculate_checksum_sum by (rewrite ?length_insert; exact Hlen).
  unfold hdr_checksum, field.
  destruct Hi as [Hi | Hi].
  - rewrite take_insert_lt by lia.
    rewrite (byte_sum_insert _ _ b) by (rewrite lookup_take_lt by lia; exact Hb).
    rewrite !drop_insert_lt by lia. split; [lia | reflexivity].
  - rewrite take_insert_ge by lia.
    rewrite (drop_insert_ge _ 156) by lia.
    rewrite (byte_sum_insert _ _ b).
    2: { rewrite lookup_drop. rewrite <- Hb. f_equal. lia. }
    rewrite (drop_insert_ge _ 148) by lia.
    rewrite take_insert_ge by lia. split; [lia | reflexivity].
Qed.

(** X9.  A header that [parse_header] accepts is no longer accepted after
    any one of its bytes outside the checksum field has been replaced by
    a different byte: the change moves the computed sum away from the
    stored one (or breaks an earlier test). *)
Theorem parse_header_detects_changed_byte (block : list ascii) (m : file_metadata)
    (i : nat) (b' : ascii) :
  length block = 512%nat ->
  parse_header block = Ok m ->
  (i < 148 \/ 156 <= i < 512)%nat ->
  block !! i <> Some b' ->
  exists e, parse_header (<[i := b']> block) = Unexpected e.
Proof.
  intros Hlen Hok Hi Hne.
  destruct (parse_header (<[i := b']> block)) as [m'|e] eqn:Hok'; [|now exists e].
  exfalso.
  destruct (lookup_lt_is_Some_2 block i ltac:(lia)) as [b Hb].
  destruct (checksum_insert block i b b' Hlen ltac:(lia) Hb) as [Hsum Hfld].
  apply parse_header_ok_checksum in Hok as [_ Hok].
  apply parse_header_ok_checksum in Hok' as [_ Hok'].
  rewrite Hfld, Hok in Hok'. injection Hok' as Heq.
  rewrite Hsum in Heq.
  apply Hne. rewrite Hb. f_equal. apply ord_inj. lia.
Qed.

Lemma parse_header_detects_changed_byte_witness :
  exists e, parse_header (<[0%nat := "T"%char]> Examples.gnu_version_header) = Unexpected e.
Proof.
  apply (parse_header_detects_changed_byte Examples.gnu_version_header
           (Examples.header_at 0 Examples.gnu_version_header) 0 "T"%char).
  - reflexivity.
  - vm_compute. reflexivity.
  - left. lia.
  - vm_compute. discriminate.
Defined.

Lemma sparse_slots_facts offset_of numbytes_of block slots :
  (length (sparse_slots offset_of numbytes_of block slots) <= length slots)%nat
  /\ Forall (fun seg => seg_size seg <> 0)
            (sparse_slots offset_of numbytes_of block slots).
Proof.
  induction slots as [|i slots [IHl IHf]]; cbn [sparse_slots length].
  - split; [lia | constructor].
  - destruct (parse_sparse_octal (offset_of i block)) as [offset|];
      [|split; [simpl; lia | constructor]].
    destruct (parse_sparse_octal (numbytes_of i block)) as [sz|];
      [|split; [simpl; lia | constructor]].
    destruct (sz =? 0) eqn:E; [split; [simpl; lia | constructor]|].
    split; [simpl; lia|]. constructor; [simpl; lia | exact IHf].
Qed.

Lemma entry_type_eqb_true a b : entry_type_eqb a b = true -> a = b.
Proof. destruct a, b; simpl; congruence. Qed.

(** X10.  The metadata of an accepted header: the path is not empty, the
    permissions keep only the twelve mode bits, the owner and group ids
    and the device numbers are truncated to 32 bits, the size fits 64
    bits, device numbers are read only for character and block devices,
    a link target is present only for links and is then not empty, and a
    header alone never carries extended attributes or ACLs. *)
Theorem parse_header_result_in_range (block : list ascii) (m : file_metadata) :
  parse_header block = Ok m ->
  path m <> ""%string
  /\ 0 <= permissions m <= 4095
  /\ 0 <= owner_id m < 2 ^ 32 /\ 0 <= group_id m < 2 ^ 32
  /\ 0 <= size m < 2 ^ 64
  /\ 0 <= device_major m < 2 ^ 32 /\ 0 <= device_minor m < 2 ^ 32
  /\ (is_device m = false -> device_major m = 0 /\ device_minor m = 0)
  /\ (forall target, link_target m = Some target ->
        target <> ""%string /\ (is_symbolic_link m || is_hard_link m = true))
  /\ xattrs m = ∅ /\ access_acl m = [] /\ default_acl m = [].
Proof.
  unfold parse_header.
  destruct (negb (String.eqb (extract_string (hdr_magic block)) "ustar") && _);
    [discriminate|].
  destruct (negb (String.eqb _ "00") && negb (String.eqb _ " ")); [discriminate|].
  destruct (parse_octal (hdr_checksum block)) as [stored|e]; [|discriminate].
  destruct (negb (calculate_checksum block =? stored)); [discriminate|].
  destruct (parse_octal (hdr_mode block)) as [mode|] eqn:Hmode; [|discriminate].
  destruct (parse_octal (hdr_uid block)) as [uid|]; [|discriminate].
  destruct (parse_octal (hdr_gid block)) as [gid|]; [|discriminate].
  destruct (parse_octal (hdr_size block)) as [sz|] eqn:Hsz; [|discriminate].
  destruct (parse_octal (hdr_mtime block)) as [mtime|]; [|discriminate].
  cbv zeta.
  match goal with |- context [String.eqb ?p ""] =>
    destruct (String.eqb p "") eqn:Hpath end; [discriminate|].
  match goal with |- context [match ?mt with Some _ => _ | None => err unsupported_feature _ end] =>
    destruct mt as [ty|] eqn:Hty end; [|discriminate].
  intros [= <-]. cbn [path permissions owner_id group_id size device_major device_minor
                     link_target xattrs access_acl default_acl].
  pose proof (parse_octal_loop_range _ 0 false _ ltac:(lia) Hsz).
  pose proof (parse_octal_loop_range _ 0 false _ ltac:(lia) Hmode) as Hm.
  assert (Hw : forall x, 0 <= wrap32 x < 2 ^ 32)
    by (intros x; unfold wrap32; apply Z.mod_pos_bound; lia).
  split; [now apply String.eqb_neq in Hpath|].
  split.
  { replace (Z.land mode 4095) with (mode mod 2 ^ 12)
      by (symmetry; apply (Z.land_ones mode 12); lia).
    pose proof (Z.mod_pos_bound mode (2 ^ 12) ltac:(lia)). lia. }
  split; [apply Hw|]. split; [apply Hw|]. split; [lia|].
  split; [destruct (entry_type_eqb ty character_device || _); [apply Hw | lia]|].
  split; [destruct (entry_type_eqb ty character_device || _); [apply Hw | lia]|].
  split.
  { unfold is_device, is_character_device, is_block_device. cbn [type].
    intros ->. split; reflexivity. }
  split.
  { intros target. unfold is_symbolic_link, is_hard_link. cbn [type].
    destruct (entry_type_eqb ty symbolic_link || _) eqn:El; cbn [andb]; [|discriminate].
    destruct (String.eqb (extract_string (hdr_linkname block)) "") eqn:En;
      cbn [negb]; [discriminate|].
    intros [= <-]. split; [now apply String.eqb_neq in En | reflexivity]. }
  repeat split.
Qed.

Lemma parse_header_result_in_range_witness :
  let m := Examples.header_at 0 Examples.gnu_version_header in
  path m <> ""%string
  /\ 0 <= permissions m <= 4095
  /\ 0 <= owner_id m < 2 ^ 32 /\ 0 <= group_id m < 2 ^ 32
  /\ 0 <= size m < 2 ^ 64
  /\ 0 <= device_major m < 2 ^ 32 /\ 0 <= device_minor m < 2 ^ 32
  /\ (is_device m = false -> device_major m = 0 /\ device_minor m = 0)
  /\ (forall target, link_target m = Some target ->
        target <> ""%string /\ (is_symbolic_link m || is_hard_link m = true))
  /\ xattrs m = ∅ /\ access_acl m = [] /\ default_acl m = [].
Proof.
  apply (parse_header_result_in_range Examples.gnu_version_header).
  vm_compute. reflexivity.
Defined.

Lemma entry_type_of_char_sound c t :
  entry_type_of_char c = Some t -> to_underlying t = c.
Proof.
  unfold entry_type_of_char. intros H. apply find_some in H as [_ H].
  now apply Ascii.eqb_eq in H.
Qed.

(** The two ways [parse_header] fills the type and the sparse descriptor. *)
Lemma parse_header_sparse_cases (block : list ascii) (m : file_metadata) :
  parse_header block = Ok m ->
  match sparse_info m with
  | Some sp =>
      type m = regular_file
      /\ is_gnu_tar_magic (extract_string (hdr_magic block)) = true
      /\ (hdr_typeflag block = "0"%char \/ hdr_typeflag block = "S"%char)
      /\ parse_old_sparse_header block = Ok sp
      /\ segments sp <> []
      /\ (length (segments sp) <= 4)%nat
      /\ Forall (fun seg => seg_size seg <> 0) (segments sp)
  | None => to_underlying (type m) = hdr_typeflag block
  end.
Proof.
  unfold parse_header.
  destruct (negb (String.eqb (extract_string (hdr_magic block)) "ustar") && _);
    [discriminate|].
  destruct (negb (String.eqb _ "00") && negb (String.eqb _ " ")); [discriminate|].
  destruct (parse_octal (hdr_checksum block)) as [stored|e]; [|discriminate].
  destruct (negb (calculate_checksum block =? stored)); [discriminate|].
  destruct (parse_octal (hdr_mode block)) as [mode|]; [|discriminate].
  destruct (parse_octal (hdr_uid block)) as [uid|]; [|discriminate].
  destruct (parse_octal (hdr_gid block)) as [gid|]; [|discriminate].
  destruct (parse_octal (hdr_size block)) as [sz|]; [|discriminate].
  destruct (parse_octal (hdr_mtime block)) as [mtime|]; [|discriminate].
  cbv zeta.
  match goal with |- context [String.eqb ?p ""] =>
    destruct (String.eqb p "") end; [discriminate|].
  assert (Hplain : forall ty : entry_type,
            entry_type_of_char (hdr_typeflag block) = Some ty ->
            to_underlying ty = hdr_typeflag block)
    by (intros ty; apply entry_type_of_char_sound).
  destruct (parse_old_sparse_header block) as [sr|e] eqn:Hsr; [|discriminate Hsr].
  assert (Hsegs : segments sr = old_sparse_segments block)
    by (unfold parse_old_sparse_header in Hsr; now injection Hsr as <-).
  destruct (is_gnu_tar_magic (extract_string (hdr_magic block))) eqn:Hgnu; cbn [andb].
  2: { destruct (entry_type_of_char (hdr_typeflag block)) as [ty|] eqn:Hty; [|discriminate].
       intros [= <-]. cbn [sparse_info type]. now apply Hplain. }
  destruct (Ascii.eqb (hdr_typeflag block) (to_underlying regular_file)
            || Ascii.eqb (hdr_typeflag block) (to_underlying gnu_sparse)) eqn:Hflag.
  2: { destruct (entry_type_of_char (hdr_typeflag block)) as [ty|] eqn:Hty; [|discriminate].
       intros [= <-]. cbn [sparse_info type]. now apply Hplain. }
  destruct (segments sr) as [|seg segs] eqn:Hsr_segs.
  { destruct (entry_type_of_char (hdr_typeflag block)) as [ty|] eqn:Hty; [|discriminate].
    intros [= <-]. cbn [sparse_info type]. now apply Hplain. }
  intros [= <-]. cbn [sparse_info type value_or].
  split; [reflexivity|]. split; [reflexivity|].
  split.
  { apply orb_true_iff in Hflag as [H|H]; apply Ascii.eqb_eq in H; [left | right]; exact H. }
  split; [reflexivity|].
  split; [rewrite Hsr_segs; discriminate|].
  rewrite Hsr_segs, Hsegs.
  unfold old_sparse_segments.
  destruct (sparse_slots_facts sp_offset sp_numbytes block (seq 0 4)) as [Hl Hf].
  split; [exact Hl | exact Hf].
Qed.

(** X11.  An accepted header carries a sparse descriptor only as a
    regular file: the magic passes [is_gnu_tar_magic], the type flag is
    [0] or [S], and the descriptor is the map of the header overlay, which
    has between one and four segments, none of size zero.  Without a descriptor the
    type is the enumerator of the type flag; so a header that keeps the
    type [gnu_sparse] never has a descriptor. *)
Theorem parse_header_sparse_info (block : list ascii) (m : file_metadata) :
  parse_header block = Ok m ->
  (forall sp, sparse_info m = Some sp ->
     type m = regular_file
     /\ is_gnu_tar_magic (extract_string (hdr_magic block)) = true
     /\ (hdr_typeflag block = "0"%char \/ hdr_typeflag block = "S"%char)
     /\ parse_old_sparse_header block = Ok sp
     /\ (1 <= length (segments sp) <= 4)%nat
     /\ Forall (fun seg => seg_size seg <> 0) (segments sp))
  /\ (sparse_info m = None -> to_underlying (type m) = hdr_typeflag block)
  /\ (type m = gnu_sparse -> sparse_info m = None).
Proof.
  intros Hok. pose proof (parse_header_sparse_cases block m Hok) as H.
  destruct (sparse_info m) as [sp0|].
  - destruct H as (Hty & Hmagic & Hflag & Hold & Hne & Hlen & Hall).
    split; [|split; [discriminate | intros Hs; rewrite Hs in Hty; discriminate]].
    intros sp [= <-]. repeat split; try assumption.
    destruct (segments sp0); [congruence | simpl; lia].
  - split; [discriminate|]. split; [intros _; exact H | reflexivity].
Qed.

Lemma parse_header_sparse_info_witness :
  let m := Examples.header_at 0 Examples.sparse_archive in
  (forall sp, sparse_info m = Some sp ->
     type m = regular_file
     /\ is_gnu_tar_magic (extract_string (hdr_magic Examples.sparse_header)) = true
     /\ (hdr_typeflag Examples.sparse_header = "0"%char
         \/ hdr_typeflag Examples.sparse_header = "S"%char)
     /\ parse_old_sparse_header Examples.sparse_header = Ok sp
     /\ (1 <= length (segments sp) <= 4)%nat
     /\ Forall (fun seg => seg_size seg <> 0) (segments sp))
  /\ (sparse_info m = None -> to_underlying (type m) = hdr_typeflag Examples.sparse_header)
  /\ (type m = gnu_sparse -> sparse_info m = None).
Proof.
  apply (parse_header_sparse_info Examples.sparse_header).
  vm_compute. reflexivity.
Defined.

(** ** Type [S] records in the reader *)

Section SparseRecords.
Context {S : Type} `{!InputStream S}.

Lemma read_header_parses (r r1 : archive_reader S) m :
  read_header r = Some (Ok (Some m), r1) ->
  exists block, parse_header block = Ok m.
Proof.
  unfold read_header, bind at 1.
  destruct (skip_current_entry_data r) as [[[[]|e] ra]|]; [|discriminate..].
  unfold bind at 1, modify at 1. unfold bind at 1, try at 1.
  destruct (read_block _) as [[[block|e] r3]|]; [| |discriminate].
  - destruct (is_zero_block block).
    + unfold bind at 1, try at 1.
      destruct (read_block r3) as [[[b2|e2] r4]|]; [| |discriminate].
      * destruct (is_zero_block b2); unfold bind, modify, ret, fail; discriminate.
      * unfold fail. discriminate.
    + unfold bind, lift, ret. destruct (parse_header block) as [meta|e] eqn:Hp;
        [|discriminate].
      intros [= <- _]. now exists block.
  - destruct (error_code_eqb (code e) end_of_archive);
      unfold bind, modify, ret, fail; discriminate.
Qed.

(** X12.  A header that reaches the reader with the type [gnu_sparse]
    (type flag [S] with an empty map in the header overlay) has no
    sparse descriptor, so [process_sparse_file] gives up before it reads
    anything: [next_entry] fails with "Sparse file entry without sparse
    info" and the stream stays right after the header.  The extension
    records of the old sparse format are therefore never read. *)
Theorem gnu_sparse_record_is_rejected (fuel : nat) (r r1 : archive_reader S)
    (m : file_metadata) :
  finished_ r = false ->
  read_header r = Some (Ok (Some m), r1) ->
  type m = gnu_sparse ->
  sparse_info m = None
  /\ next_entry (Datatypes.S fuel) r
     = Some (Unexpected (mk_error invalid_header "Sparse file entry without sparse info"),
             r1).
Proof.
  intros Hfin Hhdr Hty.
  destruct (read_header_parses r r1 m Hhdr) as [block Hblock].
  assert (Hnone : sparse_info m = None).
  { pose proof (parse_header_sparse_cases block m Hblock) as Hsp.
    destruct (sparse_info m) as [sp|]; [|reflexivity].
    destruct Hsp as [Hreg _]. congruence. }
  split; [exact Hnone|].
  rewrite (next_entry_step fuel r m r1 Hfin Hhdr).
  unfold is_gnu_extension, is_gnu_longname, is_gnu_longlink. rewrite Hty.
  cbn [entry_type_eqb orb].
  unfold process_gnu_extension, is_gnu_longname, is_gnu_longlink. rewrite Hty.
  cbn [entry_type_eqb]. unfold process_sparse_file. rewrite Hnone.
  reflexivity.
Qed.

End SparseRecords.

Lemma gnu_sparse_record_is_rejected_witness :
  let archive := Fixtures.file_header "s.dat" (Fixtures.octal11 0) "S"
                 ++ Fixtures.zero_block ++ Fixtures.zero_block in
  sparse_info (Examples.header_at 0 archive) = None
  /\ next_entry 1 (new_reader (open_memory archive))
     = Some (Unexpected (mk_error invalid_header "Sparse file entry without sparse info"),
             new_reader (mk_mms archive 512)).
Proof.
  intros archive.
  apply (gnu_sparse_record_is_rejected 0 (new_reader (open_memory archive))
           (new_reader (mk_mms archive 512)) (Examples.header_at 0 archive)).
  - reflexivity.
  - vm_compute. reflexivity.
  - vm_compute. reflexivity.
Defined.

(** ** The tolerant octal parser of the sparse maps *)

Lemma octal_run_digits ds post value len :
  forallb is_octal_digit ds = true ->
  match post with [] => True | c :: _ => is_octal_digit c = false end ->
  octal_run (ds ++ post) value len
  = (fold_left (fun v c => wrap64 (v * 8 + (ord c - ord "0"))) ds value,
     len + zlen ds).
Proof.
  revert value len. induction ds as [|c ds IH]; intros value len Hds Hpost.
  - cbn [app fold_left]. change (zlen (@nil ascii)) with 0. rewrite Z.add_0_r.
    destruct post as [|p post]; [reflexivity|]. cbn [octal_run]. now rewrite Hpost.
  - simpl in Hds. apply andb_true_iff in Hds as [Hc Hds].
    cbn [app octal_run fold_left]. rewrite Hc. rewrite IH by assumption.
    f_equal. unfold zlen. cbn [length]. lia.
Qed.

Lemma wrapped_octal_value ds value :
  forallb is_octal_digit ds = true -> 0 <= value ->
  value * 8 ^ zlen ds + 8 ^ zlen ds <= 2 ^ 64 ->
  fold_left (fun v c => wrap64 (v * 8 + (ord c - ord "0"))) ds value
  = fold_left (fun acc c => acc * 8 + (ord c - ord "0")) ds value.
Proof.
  revert value. induction ds as [|c ds IH]; intros value Hds Hv Hb; [reflexivity|].
  simpl in Hds. apply andb_true_iff in Hds as [Hc Hds].
  destruct (octal_digit_facts c Hc) as (_ & _ & _ & _ & Hd).
  cbn [fold_left].
  assert (Hlen : zlen (c :: ds) = zlen ds + 1) by (unfold zlen; cbn [length]; lia).
  rewrite Hlen in Hb. rewrite Z.pow_add_r in Hb by (unfold zlen; lia).
  assert (Hp : 1 <= 8 ^ zlen ds) by (apply Z.pow_le_mono_r with (b := 0); unfold zlen; lia).
  rewrite wrap64_small by nia.
  apply IH; [exact Hds | lia | nia].
Qed.

Lemma parse_sparse_octal_loop_no_digit l bv bl :
  no_octal_digit l -> parse_sparse_octal_loop l bv bl = (bv, bl).
Proof.
  unfold no_octal_digit. revert bv bl. induction l as [|c l IH]; intros bv bl H; [reflexivity|].
  simpl in H. apply andb_true_iff in H as [Hc H]. apply negb_true_iff in Hc.
  cbn [parse_sparse_octal_loop]. rewrite Hc. now apply IH.
Qed.

(** Once a run is the best one, the starts inside it do not replace it. *)
Lemma parse_sparse_octal_loop_inside ds post bv bl :
  forallb is_octal_digit ds = true -> no_octal_digit post ->
  zlen ds <= bl ->
  parse_sparse_octal_loop (ds ++ post) bv bl = (bv, bl).
Proof.
  revert bl. induction ds as [|c ds IH]; intros bl Hds Hpost Hbl.
  - now apply parse_sparse_octal_loop_no_digit.
  - pose proof Hds as Hall. simpl in Hds. apply andb_true_iff in Hds as [Hc Hds].
    change ((c :: ds) ++ post) with (c :: (ds ++ post)).
    cbn [parse_sparse_octal_loop]. rewrite Hc.
    change (c :: ds ++ post) with ((c :: ds) ++ post).
    rewrite (octal_run_digits (c :: ds) post 0 0 Hall).
    2: { destruct post as [|p post]; [exact I|]. unfold no_octal_digit in Hpost.
         simpl in Hpost. apply andb_true_iff in Hpost as [Hp _].
         now apply negb_true_iff in Hp. }
    destruct (0 + zlen (c :: ds) >? bl) eqn:E; [lia|].
    apply IH; [exact Hds | exact Hpost |].
    unfold zlen in *. cbn [length] in Hbl. lia.
Qed.

(** X13.  [parse_sparse_octal] finds a number inside junk: when a field
    holds one run of at most 21 octal digits, with bytes that are not
    octal digits (NUL and spaces included) before and after it, the
    result is the value of the run; a field with no octal digit at all
    has no value. *)
Theorem parse_sparse_octal_embedded_number (pre ds post : list ascii) :
  no_octal_digit pre -> no_octal_digit post ->
  ds <> [] -> forallb is_octal_digit ds = true -> (length ds <= 21)%nat ->
  parse_sparse_octal (pre ++ ds ++ post) = Some (octal_value ds)
  /\ parse_sparse_octal (pre ++ post) = None.
Proof.
  intros Hpre Hpost Hne Hds Hlen. split.
  2: { unfold parse_sparse_octal.
       rewrite parse_sparse_octal_loop_no_digit; [reflexivity|].
       unfold no_octal_digit in *. rewrite forallb_app. now rewrite Hpre, Hpost. }
  unfold parse_sparse_octal.
  assert (Hskip : forall l bv bl,
    parse_sparse_octal_loop (pre ++ l) bv bl = parse_sparse_octal_loop l bv bl).
  { intros l. unfold no_octal_digit in Hpre. clear -Hpre.
    induction pre as [|c pre IH]; intros bv bl; [reflexivity|].
    simpl in Hpre. apply andb_true_iff in Hpre as [Hc Hpre]. apply negb_true_iff in Hc.
    cbn [app parse_sparse_octal_loop]. rewrite Hc. now apply IH. }
  rewrite Hskip.
  destruct ds as [|c ds]; [congruence|].
  pose proof Hds as Hall. simpl in Hds. apply andb_true_iff in Hds as [Hc Hds].
  change ((c :: ds) ++ post) with (c :: (ds ++ post)).
  cbn [parse_sparse_octal_loop]. rewrite Hc.
  change (c :: ds ++ post) with ((c :: ds) ++ post).
  rewrite (octal_run_digits (c :: ds) post 0 0 Hall).
  2: { destruct post as [|p post]; [exact I|]. unfold no_octal_digit in Hpost.
       simpl in Hpost. apply andb_true_iff in Hpost as [Hp _].
       now apply negb_true_iff in Hp. }
  assert (Hpos : (0 + zlen (c :: ds) >? 0) = true) by (apply Z.gtb_lt; unfold zlen; cbn [length]; lia).
  rewrite Hpos.
  rewrite parse_sparse_octal_loop_inside
    by (try assumption; unfold zlen; cbn [length]; lia).
  rewrite Hpos. f_equal.
  apply wrapped_octal_value; [exact Hall | lia |].
  rewrite Z.mul_0_l, Z.add_0_l.
  change (2 ^ 64) with (8 ^ 21 * 2).
  assert (8 ^ zlen (c :: ds) <= 8 ^ 21) by (apply Z.pow_le_mono_r; unfold zlen; lia).
  lia.
Qed.

Lemma parse_sparse_octal_embedded_number_witness :
  parse_sparse_octal ([NUL; SP] ++ bytes "1750" ++ [NUL; "x"%char]) = Some 1000
  /\ parse_sparse_octal ([NUL; SP] ++ [NUL; "x"%char]) = None.
Proof.
  apply (parse_sparse_octal_embedded_number [NUL; SP] (bytes "1750") [NUL; "x"%char]).
  - reflexivity.
  - reflexivity.
  - discriminate.
  - reflexivity.
  - simpl. lia.
Defined.

(** ** The sparse map of the PAX records *)

Lemma split_first_app d a rest :
  forallb (fun c => negb (Ascii.eqb c d)) a = true ->
  split_first d (a ++ d :: rest) = Some (a, rest).
Proof.
  induction a as [|c a IH]; intros H; cbn [app split_first].
  - now rewrite Ascii.eqb_refl.
  - simpl in H. apply andb_true_iff in H as [Hc H]. apply negb_true_iff in Hc.
    rewrite Hc. now rewrite IH.
Qed.

Lemma split_first_none d a :
  forallb (fun c => negb (Ascii.eqb c d)) a = true -> split_first d a = None.
Proof.
  induction a as [|c a IH]; intros H; cbn [split_first]; [reflexivity|].
  simpl in H. apply andb_true_iff in H as [Hc H]. apply negb_true_iff in Hc.
  rewrite Hc. now rewrite IH.
Qed.

Lemma digits_without (d : ascii) ds :
  is_decimal_digit d = false ->
  forallb is_decimal_digit ds = true ->
  forallb (fun c => negb (Ascii.eqb c d)) ds = true.
Proof.
  intros Hd. induction ds as [|c ds IH]; intros H; [reflexivity|].
  simpl in *. apply andb_true_iff in H as [Hc H]. rewrite IH by exact H.
  rewrite andb_true_r. apply negb_true_iff, Ascii.eqb_neq. intros ->. congruence.
Qed.

Lemma decimal_prefix_all ds :
  forallb is_decimal_digit ds = true -> decimal_prefix ds = ds.
Proof.
  induction ds as [|c ds IH]; intros H; [reflexivity|].
  simpl in *. apply andb_true_iff in H as [Hc H]. rewrite Hc. f_equal. now apply IH.
Qed.

Lemma from_chars_number_token ds :
  is_number_token ds -> from_chars_unsigned UINT64_MAX ds = Some (decimal_value ds).
Proof.
  intros (Hne & Hdig & Hmax). unfold from_chars_unsigned.
  rewrite decimal_prefix_all by exact Hdig.
  destruct ds as [|c ds]; [contradiction|].
  destruct (decimal_value (c :: ds) >? UINT64_MAX) eqn:E; [lia | reflexivity].
Qed.

Lemma sparse_map_pairs_render pairs :
  forall fuel segs,
    Forall (fun p => is_number_token (fst p) /\ is_number_token (snd p)) pairs ->
    (length pairs <= fuel)%nat ->
    sparse_map_pairs fuel (render_comma_map pairs) segs
    = Some (Ok (segs ++ map segment_of_pair pairs)).
Proof.
  induction pairs as [|[o s] pairs IH]; intros fuel segs Hall Hfuel.
  - destruct fuel; simpl; now rewrite app_nil_r.
  - inversion Hall as [|? ? [Ho Hs] Hall']; subst. cbn [fst snd] in *.
    destruct fuel as [|fuel]; [simpl in Hfuel; lia|].
    assert (Hcomma : is_decimal_digit "," = false) by reflexivity.
    pose proof Ho as (Hone & Hod & _). pose proof Hs as (Hsne & Hsd & _).
    destruct pairs as [|p pairs].
    + (* the last pair: no comma after the size *)
      cbn [render_comma_map fst snd]. change (bytes ",") with [","%char].
      destruct o as [|o0 o]; [contradiction|].
      cbn [app sparse_map_pairs].
      change (o0 :: o ++ ","%char :: s) with ((o0 :: o) ++ ","%char :: s).
      rewrite split_first_app by (now apply digits_without).
      rewrite (from_chars_number_token _ Ho).
      rewrite split_first_none by (now apply digits_without).
      rewrite (from_chars_number_token _ Hs).
      destruct fuel; simpl; reflexivity.
    + change (render_comma_map ((o, s) :: p :: pairs))
        with (o ++ [","%char] ++ s ++ [","%char] ++ render_comma_map (p :: pairs)).
      set (rest := render_comma_map (p :: pairs)).
      destruct o as [|o0 o]; [contradiction|].
      cbn [app sparse_map_pairs].
      change (o0 :: o ++ ","%char :: s ++ ","%char :: rest)
        with ((o0 :: o) ++ ","%char :: (s ++ ","%char :: rest)).
      rewrite split_first_app by (now apply digits_without).
      rewrite (from_chars_number_token _ Ho).
      rewrite split_first_app by (now apply digits_without).
      rewrite (from_chars_number_token _ Hs).
      subst rest. rewrite IH by (try assumption; simpl in *; lia).
      now rewrite <- app_assoc.
Qed.

Lemma render_comma_map_length pairs :
  Forall (fun p => is_number_token (fst p) /\ is_number_token (snd p)) pairs ->
  (length pairs <= length (render_comma_map pairs))%nat.
Proof.
  induction pairs as [|[o s] pairs IH]; intros Hall; [simpl; lia|].
  inversion Hall as [|? ? [Ho Hs] Hall']; subst.
  destruct Ho as (Hone & _). destruct o as [|o0 o]; [contradiction|].
  specialize (IH Hall').
  destruct pairs as [|p pairs].
  - cbn [render_comma_map fst snd length app]. lia.
  - change (render_comma_map ((o0 :: o, s) :: p :: pairs))
      with ((o0 :: o) ++ [","%char] ++ s ++ [","%char] ++ render_comma_map (p :: pairs)).
    rewrite !length_app. cbn [length] in *. lia.
Qed.

Lemma length_str l : String.length (str l) = length l.
Proof. induction l as [|c l IH]; simpl; [reflexivity | now rewrite IH]. Qed.

(** X14.  [parse_sparse_1_0_header] reads back a map written as
    ["offset,size,offset,size,..."]: with the version records 1 and 0, a
    real-size record and a map record whose numbers are decimal and fit
    64 bits, the descriptor has that real size and exactly the pairs of
    the map as segments, in order. *)
Theorem parse_sparse_1_0_header_round_trip
    (pax_headers : gmap string string) (realsize : list ascii)
    (pairs : list (list ascii * list ascii)) :
  pax_headers !! "GNU.sparse.major"%string = Some "1"%string ->
  pax_headers !! "GNU.sparse.minor"%string = Some "0"%string ->
  pax_headers !! "GNU.sparse.realsize"%string = Some (str realsize) ->
  pax_headers !! "GNU.sparse.map"%string = Some (str (render_comma_map pairs)) ->
  is_number_token realsize ->
  Forall (fun p => is_number_token (fst p) /\ is_number_token (snd p)) pairs ->
  parse_sparse_1_0_header pax_headers
  = Some (Ok (mk_sparse_metadata (decimal_value realsize) (map segment_of_pair pairs))).
Proof.
  intros Hmajor Hminor Hrs Hmap Htok Hall.
  unfold parse_sparse_1_0_header. rewrite Hmajor, Hminor, Hrs, Hmap.
  cbn [String.eqb Ascii.eqb Bool.eqb negb orb].
  unfold from_chars_u64, bytes, str.
  rewrite !list_ascii_of_string_of_list_ascii.
  rewrite (from_chars_number_token _ Htok).
  rewrite sparse_map_pairs_render; [reflexivity | exact Hall |].
  fold (str (render_comma_map pairs)). rewrite length_str.
  now apply render_comma_map_length.
Qed.

Lemma parse_sparse_1_0_header_round_trip_witness :
  parse_sparse_1_0_header
    {[ "GNU.sparse.major"%string := "1"%string;
       "GNU.sparse.minor"%string := "0"%string;
       "GNU.sparse.realsize"%string := "2048"%string;
       "GNU.sparse.map"%string := "0,512,1536,512"%string ]}
  = Some (Ok (mk_sparse_metadata 2048 [mk_sparse_entry 0 512; mk_sparse_entry 1536 512])).
Proof.
  apply (parse_sparse_1_0_header_round_trip _ (bytes "2048") Examples.two_segment_pairs).
  - vm_compute. reflexivity.
  - vm_compute. reflexivity.
  - vm_compute. reflexivity.
  - vm_compute. reflexivity.
  - split; [discriminate | split; [reflexivity | vm_compute; discriminate]].
  - repeat constructor; simpl; try discriminate; vm_compute; discriminate.
Defined.

(** ** PAX records *)

Lemma nth_app_exact {A} (l1 : list A) x l2 d : nth (length l1) (l1 ++ x :: l2) d = x.
Proof. induction l1; simpl; auto. Qed.

Lemma parse_pax_record_render p rest :
  pax_record_ok p ->
  parse_pax_record (render_pax_record p ++ rest)
  = Some (Ok (str (rec_key p), str (rec_value p), zlen (render_pax_record p))).
Proof.
  intros (Htok & Hlen & Hkey). pose proof Htok as (Hne & Hdig & Hmax).
  destruct p as [digits key value]. cbn [rec_length rec_key rec_value] in *.
  unfold render_pax_record in *. cbn [rec_length rec_key rec_value] in *.
  change (bytes "=") with ["="%char] in *.
  set (body := key ++ ["="%char] ++ value ++ [LF]) in *.
  unfold parse_pax_record.
  assert (Hpre : decimal_prefix ((digits ++ [SP] ++ body) ++ rest) = digits).
  { rewrite <- !app_assoc. cbn [app]. now apply decimal_prefix_app. }
  rewrite Hpre.
  assert (Hafter : drop (length digits) ((digits ++ [SP] ++ body) ++ rest)
                   = SP :: body ++ rest).
  { rewrite <- !app_assoc. rewrite drop_app_length. reflexivity. }
  rewrite Hafter.
  destruct digits as [|d0 digits'] eqn:Ed; [contradiction|]. rewrite <- Ed in *.
  change (Ascii.eqb SP SP) with true. cbn [negb].
  rewrite (from_chars_number_token _ Htok). rewrite Hlen.
  set (record := digits ++ [SP] ++ body) in *.
  assert (Hrec : zlen record = zlen digits + 1 + zlen key + 1 + zlen value + 1).
  { unfold record, body, zlen. repeat (rewrite ?length_app; cbn [length]). lia. }
  assert (Hd1 : 1 <= zlen digits) by (rewrite Ed; unfold zlen; cbn [length]; lia).
  assert (Hk0 : 0 <= zlen key) by (unfold zlen; lia).
  assert (Hv0 : 0 <= zlen value) by (unfold zlen; lia).
  destruct (zlen record =? 0) eqn:E0; [lia|].
  assert (Htot : zlen (record ++ rest) = zlen record + zlen rest)
    by (unfold zlen; rewrite length_app; lia).
  assert (Hr0 : 0 <= zlen rest) by (unfold zlen; lia).
  destruct (zlen record >? zlen (record ++ rest)) eqn:E1; [lia|].
  destruct (zlen record <? zlen digits + 1) eqn:E3; [lia|].
  destruct (zlen record >? zlen digits + 1) eqn:E2; [|lia].
  assert (Hlast : nth (Z.to_nat (zlen record - 1)) (record ++ rest) NUL = LF).
  { replace (Z.to_nat (zlen record - 1))
      with (length (digits ++ [SP] ++ key ++ ["="%char] ++ value))
      by (rewrite Hrec; unfold zlen; repeat (rewrite ?length_app; cbn [length]); lia).
    unfold record, body.
    replace (((digits ++ [SP] ++ key ++ ["="%char] ++ value ++ [LF]) ++ rest))
      with ((digits ++ [SP] ++ key ++ ["="%char] ++ value) ++ LF :: rest)
      by (rewrite <- !app_assoc; reflexivity).
    apply nth_app_exact. }
  rewrite Hlast. change (Ascii.eqb LF LF) with true. cbn [andb].
  assert (Hkv : ztake (zlen record - 1 - (zlen digits + 1))
                  (zdrop (zlen digits + 1) (record ++ rest))
                = key ++ "="%char :: value).
  { unfold ztake, zdrop.
    replace (Z.to_nat (zlen digits + 1)) with (length (digits ++ [SP]))
      by (unfold zlen; rewrite length_app; cbn [length]; lia).
    replace (Z.to_nat (zlen record - 1 - (zlen digits + 1)))
      with (length (key ++ "="%char :: value))
      by (rewrite Hrec; unfold zlen; rewrite length_app; cbn [length]; lia).
    unfold record, body.
    replace ((digits ++ [SP] ++ key ++ ["="%char] ++ value ++ [LF]) ++ rest)
      with ((digits ++ [SP]) ++ ((key ++ "="%char :: value) ++ LF :: rest))
      by (rewrite <- !app_assoc; reflexivity).
    rewrite drop_app_length.
    now rewrite take_app_length. }
  rewrite Hkv. rewrite split_first_app by exact Hkey. reflexivity.
Qed.

Lemma parse_pax_loop_render ps :
  forall fuel tail acc,
    Forall pax_record_ok ps ->
    match tail with [] => True | c :: _ => c = NUL end ->
    (length ps <= fuel)%nat ->
    parse_pax_loop fuel (concat (map render_pax_record ps) ++ tail) acc
    = Some (Ok (pax_bindings ps acc)).
Proof.
  induction ps as [|p ps IH]; intros fuel tail acc Hall Htail Hfuel.
  - cbn [map concat app pax_bindings fold_left].
    destruct tail as [|c tail]; [destruct fuel; reflexivity|].
    subst c. destruct fuel; reflexivity.
  - inversion Hall as [|? ? Hp Hall']; subst.
    destruct fuel as [|fuel]; [simpl in Hfuel; lia|].
    cbn [map concat]. rewrite <- app_assoc.
    pose proof (parse_pax_record_render p (concat (map render_pax_record ps) ++ tail) Hp)
      as Hrec.
    destruct Hp as ((Hne & Hdig & _) & _ & _).
    remember (render_pax_record p) as text eqn:Etext.
    assert (Hhead : exists d rest', text = d :: rest' /\ is_decimal_digit d = true).
    { rewrite Etext. unfold render_pax_record.
      destruct (rec_length p) as [|d ds]; [contradiction|].
      simpl in Hdig. apply andb_true_iff in Hdig as [Hd _].
      exists d. eexists. split; [reflexivity | exact Hd]. }
    destruct Hhead as (d & rest' & Hd & Hdd).
    rewrite Hd in *. cbn [app parse_pax_loop].
    assert (Hnn : Ascii.eqb d NUL = false).
    { apply Ascii.eqb_neq. intros ->. discriminate Hdd. }
    rewrite Hnn. cbn [app] in Hrec. rewrite Hrec.
    unfold zdrop, zlen. rewrite Nat2Z.id.
    change (d :: rest' ++ concat (map render_pax_record ps) ++ tail)
      with ((d :: rest') ++ concat (map render_pax_record ps) ++ tail).
    rewrite drop_app_length.
    rewrite IH by (try assumption; simpl in Hfuel; lia).
    reflexivity.
Qed.

Lemma render_pax_records_length ps :
  Forall pax_record_ok ps ->
  (length ps <= length (concat (map render_pax_record ps)))%nat.
Proof.
  induction ps as [|p ps IH]; intros Hall; [simpl; lia|].
  inversion Hall as [|? ? Hp Hall']; subst. specialize (IH Hall').
  cbn [map concat length]. rewrite length_app.
  unfold render_pax_record at 1. rewrite !length_app. cbn [length]. lia.
Qed.

Lemma pax_bindings_lookup ps acc k :
  pax_bindings ps acc !! k
  = match List.find (fun p => String.eqb (str (rec_key p)) k) (rev ps) with
    | Some p => Some (str (rec_value p))
    | None => acc !! k
    end.
Proof.
  induction ps as [|p ps IH] using rev_ind; [reflexivity|].
  unfold pax_bindings in *. rewrite fold_left_app. cbn [fold_left].
  rewrite rev_app_distr. cbn [rev app List.find].
  destruct (String.eqb_spec (str (rec_key p)) k) as [-> | Hne].
  - now rewrite lookup_insert_eq.
  - rewrite lookup_insert_ne by exact Hne. exact IH.
Qed.

(** X15.  [parse_pax_headers] reads back what was written: for records
    [<length> <key>=<value>\n] whose length field counts the whole
    record and whose key has no [=], followed by nothing or by NUL
    padding, the result maps every key to the value of the last record
    with that key; values may hold any byte, newlines and [=] included. *)
Theorem parse_pax_headers_round_trip (ps : list pax_record_text) (tail : list ascii) :
  Forall pax_record_ok ps ->
  match tail with [] => True | c :: _ => c = NUL end ->
  parse_pax_headers (concat (map render_pax_record ps) ++ tail)
  = Some (Ok (pax_bindings ps ∅))
  /\ forall k,
       pax_bindings ps ∅ !! k
       = match List.find (fun p => String.eqb (str (rec_key p)) k) (rev ps) with
         | Some p => Some (str (rec_value p))
         | None => None
         end.
Proof.
  intros Hall Htail. split.
  - unfold parse_pax_headers. apply parse_pax_loop_render; [exact Hall | exact Htail |].
    rewrite length_app. pose proof (render_pax_records_length ps Hall). lia.
  - intros k. rewrite pax_bindings_lookup. now rewrite lookup_empty.
Qed.

Lemma parse_pax_headers_round_trip_witness :
  let ps := [mk_pax_record_text (bytes "11") (bytes "size") (bytes "42");
             mk_pax_record_text (bytes "12") (bytes "path") (bytes "big");
             mk_pax_record_text (bytes "11") (bytes "size") (bytes "43")] in
  parse_pax_headers (concat (map render_pax_record ps) ++ [NUL; NUL])
  = Some (Ok (pax_bindings ps ∅))
  /\ forall k,
       pax_bindings ps ∅ !! k
       = match List.find (fun p => String.eqb (str (rec_key p)) k) (rev ps) with
         | Some p => Some (str (rec_value p))
         | None => None
         end.
Proof.
  intros ps. apply (parse_pax_headers_round_trip ps [NUL; NUL]).
  - repeat constructor; simpl; try discriminate; vm_compute; discriminate.
  - reflexivity.
Defined.






(** ** Extended attributes *)

Lemma strip_prefix_Some p s rest :
  strip_prefix p s = Some rest <-> s = (p ++ rest)%string.
Proof.
  revert s. induction p as [|a p IH]; intros s; simpl.
  - split; [now intros [= ->] | now intros ->].
  - destruct s as [|b s]; [split; discriminate|].
    destruct (Ascii.eqb_spec a b) as [-> | Hne].
    + rewrite IH. split; [now intros -> | now intros [= ->]].
    + split; [discriminate | intros [= -> _]; contradiction].
Qed.

Lemma ascii_compare_N a b :
  Ascii.compare a b = N.compare (N_of_ascii a) (N_of_ascii b).
Proof. reflexivity. Qed.

Lemma string_compare_trans_le s1 :
  forall s2 s3,
    String.compare s1 s2 <> Gt -> String.compare s2 s3 <> Gt ->
    String.compare s1 s3 <> Gt.
Proof.
  induction s1 as [|a s1 IH]; intros s2 s3 H12 H23.
  - destruct s3; discriminate.
  - destruct s2 as [|b s2]; [now contradiction H12|].
    destruct s3 as [|c s3]; [cbn in H23; now contradiction H23|].
    cbn [String.compare] in *. rewrite !ascii_compare_N in *.
    destruct (N.compare_spec (N_of_ascii a) (N_of_ascii b)) as [Hab|Hab|Hab];
      destruct (N.compare_spec (N_of_ascii b) (N_of_ascii c)) as [Hbc|Hbc|Hbc];
      try (now contradiction H12); try (now contradiction H23).
    + rewrite Hab, Hbc in *. rewrite N.compare_refl. now apply (IH s2 s3).
    + assert (Hac : (N_of_ascii a < N_of_ascii c)%N) by lia.
      apply N.compare_lt_iff in Hac. rewrite Hac. discriminate.
    + assert (Hac : (N_of_ascii a < N_of_ascii c)%N) by lia.
      apply N.compare_lt_iff in Hac. rewrite Hac. discriminate.
    + assert (Hac : (N_of_ascii a < N_of_ascii c)%N) by lia.
      apply N.compare_lt_iff in Hac. rewrite Hac. discriminate.
Qed.

Lemma string_leb_compare s1 s2 :
  String.leb s1 s2 = true <-> String.compare s1 s2 <> Gt.
Proof. unfold String.leb. destruct (String.compare s1 s2); split; congruence. Qed.

Lemma key_le_trans : Transitive key_le.
Proof.
  intros a b c. unfold key_le. rewrite !string_leb_compare.
  apply string_compare_trans_le.
Qed.

Lemma key_le_total : Total key_le.
Proof. intros a b. unfold key_le. apply String.leb_total. Qed.

Lemma in_key_order_spec (headers : gmap string string) :
  (forall k v, (k, v) ∈ in_key_order headers <-> headers !! k = Some v)
  /\ NoDup (map fst (in_key_order headers))
  /\ StronglySorted key_le (in_key_order headers).
Proof.
  unfold in_key_order. split; [|split].
  - intros k v. rewrite merge_sort_Permutation. apply elem_of_map_to_list.
  - assert (Hp : map fst (merge_sort key_le (map_to_list headers))
                 ≡ₚ map fst (map_to_list headers))
      by (apply Permutation_map, merge_sort_Permutation).
    rewrite Hp. apply (NoDup_fst_map_to_list headers).
  - apply (@StronglySorted_merge_sort _ key_le _ key_le_trans key_le_total).
Qed.

Lemma store_xattr_lookup result kv name :
  store_xattr result kv !! name
  = if decide (xattr_name (fst kv) = Some name) then Some (snd kv) else result !! name.
Proof.
  unfold store_xattr, xattr_name.
  destruct (strip_prefix "SCHILY.xattr." (fst kv)) as [n|].
  - destruct (decide (Some n = Some name)) as [[= ->]|Hne].
    + apply lookup_insert_eq.
    + apply lookup_insert_ne. congruence.
  - destruct (strip_prefix "LIBARCHIVE.xattr." (fst kv)) as [n|].
    + destruct (decide (Some n = Some name)) as [[= ->]|Hne].
      * apply lookup_insert_eq.
      * apply lookup_insert_ne. congruence.
    + destruct (decide (None = Some name)); [discriminate | reflexivity].
Qed.

Lemma fold_store_xattr_other l : forall acc name,
  Forall (fun kv => xattr_name (fst kv) <> Some name) l ->
  fold_left store_xattr l acc !! name = acc !! name.
Proof.
  induction l as [|kv l IH]; intros acc name Hall; [reflexivity|].
  apply Forall_cons in Hall as [Hkv Hall]. cbn [fold_left].
  rewrite (IH _ _ Hall), store_xattr_lookup.
  destruct (decide (xattr_name (fst kv) = Some name)); [contradiction | reflexivity].
Qed.

Lemma fold_store_xattr_last l1 kv l2 acc name :
  xattr_name (fst kv) = Some name ->
  Forall (fun kv' => xattr_name (fst kv') <> Some name) l2 ->
  fold_left store_xattr (l1 ++ kv :: l2) acc !! name = Some (snd kv).
Proof.
  intros Hkv Hall. rewrite fold_left_app. cbn [fold_left].
  rewrite (fold_store_xattr_other _ _ _ Hall), store_xattr_lookup.
  destruct (decide (xattr_name (fst kv) = Some name)); [reflexivity | contradiction].
Qed.

Lemma xattr_name_cases key name :
  xattr_name key = Some name ->
  key = ("SCHILY.xattr." ++ name)%string \/ key = ("LIBARCHIVE.xattr." ++ name)%string.
Proof.
  unfold xattr_name.
  destruct (strip_prefix "SCHILY.xattr." key) as [n|] eqn:E.
  - intros [= ->]. left. now apply strip_prefix_Some.
  - intros H. right. now apply strip_prefix_Some.
Qed.

Lemma xattr_name_schily name : xattr_name ("SCHILY.xattr." ++ name) = Some name.
Proof.
  unfold xattr_name.
  now rewrite (proj2 (strip_prefix_Some "SCHILY.xattr." _ name) eq_refl).
Qed.

Lemma xattr_name_libarchive name :
  xattr_name ("LIBARCHIVE.xattr." ++ name) = Some name.
Proof.
  unfold xattr_name.
  rewrite (proj2 (strip_prefix_Some "LIBARCHIVE.xattr." _ name) eq_refl).
  reflexivity.
Qed.

(** X17.  The extended attributes of an entry: the attribute [name] is
    the value of the PAX key [SCHILY.xattr.name] when that key is
    present, else the value of [LIBARCHIVE.xattr.name], else absent.  The
    loop visits the keys in the order of the [std::map], where every
    [LIBARCHIVE] key stands before every [SCHILY] key, so that the
    assignment for the [SCHILY] key is the later one. *)
Theorem extract_extended_attributes_lookup (headers : gmap string string)
    (name : string) :
  extract_extended_attributes headers !! name
  = match headers !! ("SCHILY.xattr." ++ name)%string with
    | Some v => Some v
    | None => headers !! ("LIBARCHIVE.xattr." ++ name)%string
    end.
Proof.
  unfold extract_extended_attributes.
  destruct (in_key_order_spec headers) as (Hin & Hnodup & Hsorted).
  set (l := in_key_order headers) in *.
  destruct (headers !! ("SCHILY.xattr." ++ name)%string) as [v|] eqn:Hs.
  - (* the SCHILY key is visited after the LIBARCHIVE key *)
    apply Hin in Hs. apply list_elem_of_split in Hs as (l1 & l2 & Hl).
    rewrite Hl in *.
    apply (fold_store_xattr_last l1 (_, v) l2); [apply xattr_name_schily|].
    apply StronglySorted_app_1_r in Hsorted.
    apply StronglySorted_inv in Hsorted as [_ Hafter].
    rewrite map_app in Hnodup. apply NoDup_app in Hnodup as (_ & _ & Hnodup).
    cbn [map fst] in Hnodup. apply NoDup_cons in Hnodup as [Hnotin _].
    rewrite Forall_forall in *. intros [k' v'] Hk' Hname. cbn [fst] in Hname.
    apply xattr_name_cases in Hname as [-> | ->].
    + apply Hnotin. apply list_elem_of_fmap. exists (("SCHILY.xattr." ++ name)%string, v').
      split; [reflexivity | exact Hk'].
    + specialize (Hafter _ Hk'). unfold key_le in Hafter. cbn in Hafter.
      discriminate Hafter.
  - destruct (headers !! ("LIBARCHIVE.xattr." ++ name)%string) as [v|] eqn:Hlib.
    + apply Hin in Hlib. apply list_elem_of_split in Hlib as (l1 & l2 & Hl).
      rewrite Hl in *.
      apply (fold_store_xattr_last l1 (_, v) l2); [apply xattr_name_libarchive|].
      rewrite map_app in Hnodup. apply NoDup_app in Hnodup as (_ & _ & Hnodup).
      cbn [map fst] in Hnodup. apply NoDup_cons in Hnodup as [Hnotin _].
      rewrite Forall_forall. intros [k' v'] Hk' Hname. cbn [fst] in Hname.
      apply xattr_name_cases in Hname as [-> | ->].
      * assert (Hmem : (("SCHILY.xattr." ++ name)%string, v') ∈ l).
        { rewrite Hl. apply elem_of_app. right. now right. }
        rewrite <- Hl in Hin. apply Hin in Hmem. congruence.
      * apply Hnotin. apply list_elem_of_fmap.
        exists (("LIBARCHIVE.xattr." ++ name)%string, v').
        split; [reflexivity | exact Hk'].
    + rewrite fold_store_xattr_other; [apply lookup_empty|].
      rewrite Forall_forall. intros [k' v'] Hk' Hname. cbn [fst] in Hname.
      apply Hin in Hk'.
      apply xattr_name_cases in Hname as [-> | ->]; congruence.
Qed.

(** ** The end of the archive is final *)

Section EndLatch.
Context {S : Type} `{!InputStream S}.

Lemma read_header_end (r r1 : archive_reader S) :
  read_header r = Some (Ok None, r1) -> finished_ r1 = true.
Proof.
  unfold read_header, bind at 1.
  destruct (skip_current_entry_data r) as [[[[]|e] ra]|]; [|discriminate..].
  unfold bind at 1, modify at 1. unfold bind at 1, try at 1.
  destruct (read_block _) as [[[block|e] r3]|]; [| |discriminate].
  - destruct (is_zero_block block).
    + unfold bind at 1, try at 1.
      destruct (read_block r3) as [[[b2|e2] r4]|]; [| |discriminate].
      * destruct (is_zero_block b2); unfold bind, modify, ret, fail;
          [intros [= <-]; reflexivity | discriminate].
      * unfold fail. discriminate.
    + unfold bind, lift, ret. destruct (parse_header block); discriminate.
  - destruct (error_code_eqb (code e) end_of_archive);
      unfold bind, modify, ret, fail; [intros [= <-]; reflexivity | discriminate].
Qed.

Lemma next_entry_finished (fuel : nat) (r : archive_reader S) :
  finished_ r = true -> next_entry (Datatypes.S fuel) r = Some (Ok None, r).
Proof.
  intros Hfin. cbn [next_entry]. unfold bind, get. now rewrite Hfin.
Qed.

Lemma next_entry_end_finished (fuel : nat) :
  forall r r' : archive_reader S,
    next_entry fuel r = Some (Ok None, r') -> finished_ r' = true.
Proof.
  induction fuel as [|fuel IH]; intros r r'; [discriminate|].
  destruct (finished_ r) eqn:Hfin.
  { rewrite next_entry_finished by exact Hfin. now intros [= <-]. }
  destruct (read_header r) as [[[[meta|]|e] r1]|] eqn:Hhdr.
  - rewrite (next_entry_step fuel r meta r1 Hfin Hhdr).
    assert (Hemit : forall ra, emit_entry meta ra = Some (Ok None, r') -> finished_ r' = true).
    { intros ra H. destruct (emit_entry_result meta ra) as (e & rb & He & _). congruence. }
    destruct (is_gnu_extension meta).
    + destruct (process_gnu_extension fuel meta r1) as [[[[|]|e] r2]|]; try discriminate.
      * apply IH.
      * destruct (is_pax_header meta); [|apply Hemit].
        destruct (process_pax_header meta r2) as [[[[|]|e] r3]|]; try discriminate;
          [apply IH | apply Hemit].
    + destruct (is_pax_header meta); [|apply Hemit].
      destruct (process_pax_header meta r1) as [[[[|]|e] r3]|]; try discriminate;
        [apply IH | apply Hemit].
  - cbn [next_entry]. unfold bind at 1, get at 1. rewrite Hfin. unfold bind at 1.
    rewrite Hhdr. unfold ret. intros [= <-]. now apply (read_header_end r).
  - cbn [next_entry]. unfold bind at 1, get at 1. rewrite Hfin. unfold bind at 1.
    rewrite Hhdr. discriminate.
  - cbn [next_entry]. unfold bind at 1, get at 1. rewrite Hfin. unfold bind at 1.
    rewrite Hhdr. discriminate.
Qed.

(** X18.  Once [next_entry] has reported the end of the archive, the
    reader is marked finished, and every further call reports the end
    again without touching the reader or its stream. *)
Theorem next_entry_end_is_final (fuel : nat) (r r' : archive_reader S) :
  next_entry fuel r = Some (Ok None, r') ->
  finished_ r' = true
  /\ forall fuel', next_entry (Datatypes.S fuel') r' = Some (Ok None, r').
Proof.
  intros H. pose proof (next_entry_end_finished fuel r r' H) as Hfin.
  split; [exact Hfin|]. intros fuel'. now apply next_entry_finished.
Qed.

End EndLatch.

Lemma next_entry_end_is_final_witness :
  let r' := set_finished true (new_reader (mk_mms Examples.terminator_only 1024)) in
  finished_ r' = true
  /\ forall fuel', next_entry (Datatypes.S fuel') r' = Some (Ok None, r').
Proof.
  intros r'.
  apply (next_entry_end_is_final 1 (new_reader (open_memory Examples.terminator_only)) r').
  vm_compute. reflexivity.
Defined.

(** ** Reading the payload of a plain entry from a memory stream *)

Lemma base_reader_first_read (r : mreader) length :
  let pos := position_ (stream_ r) in
  let remaining := current_entry_data_remaining_ r in
  let data := data_ (stream_ r) in
  in_payload data (pos + remaining) r ->
  current_entry_data_consumed_ r = 0 ->
  0 <= length ->
  let k := Z.min length remaining in
  base_reader 0 length r
  = Some (Ok (ztake k (zdrop pos data)),
          set_counters (remaining - k) k (set_stream (mk_mms data (pos + k)) r)).
Proof.
  intros pos remaining data (Hd & Hc & Hr & Hp & Hsum & Hend & Hlen) Hcons Hl k.
  subst pos remaining data.
  destruct r as [[data pos] cur rem cons fin gnu sp pax needs].
  cbn [stream_ position_ data_ current_entry_data_remaining_
       current_entry_data_consumed_] in *. subst cons.
  unfold base_reader. cbn [Z.gtb Z.compare].
  unfold bind at 1, get at 1. cbn [current_entry_data_consumed_ Z.ltb Z.compare].
  change (wrap64 (0 - 0)) with 0. cbn [Z.gtb Z.compare].
  unfold bind at 1, ret at 1. unfold bind at 1, get at 1.
  cbn [current_entry_data_remaining_]. fold k.
  destruct (k =? 0) eqn:Ek.
  - apply Z.eqb_eq in Ek. rewrite Ek. unfold ret, ztake, set_counters, set_stream.
    cbn. rewrite Z.add_0_r, Z.sub_0_r. reflexivity.
  - unfold bind at 1, on_stream, read.
    cbn [stream_ stream_read memory_mapped_input_stream].
    rewrite mms_read_within by lia.
    unfold bind, modify, ret, set_counters, set_stream.
    cbn [stream_ current_entry_ current_entry_data_remaining_
         current_entry_data_consumed_ finished_ pending_gnu_extensions_
         pending_sparse_info_ pending_pax_headers_ needs_sparse_1_0_processing_].
    rewrite zlen_ztake_zdrop by lia.
    rewrite !wrap64_small by lia. rewrite Z.add_0_l. reflexivity.
Qed.




Lemma base_reader_keeps_payload (r : mreader) offset length data data_end :
  in_payload data data_end r -> 0 <= length ->
  exists res r',
    base_reader offset length r = Some (res, r')
    /\ in_payload data data_end r'
    /\ current_entry_ r' = current_entry_ r.
Proof.
  intros Hin Hl. pose proof Hin as (Hd & Hc & Hr & Hp & Hsum & Hend & Hlen).
  destruct (offset >? 0) eqn:Eo.
  { unfold base_reader. rewrite Eo. eexists _, r. split; [reflexivity|]. now split. }
  destruct (offset <? current_entry_data_consumed_ r) eqn:Ec.
  { unfold base_reader. rewrite Eo. unfold bind, get. rewrite Ec.
    eexists _, r. split; [reflexivity|]. now split. }
  assert (offset = 0) as -> by lia.
  assert (Hc0 : current_entry_data_consumed_ r = 0) by lia.
  rewrite <- Hsum, <- Hd in Hin.
  rewrite (base_reader_first_read r length Hin Hc0 Hl).
  eexists _, _. split; [reflexivity|]. split; [|reflexivity].
  unfold in_payload, set_counters, set_stream.
  cbn [stream_ data_ position_ current_entry_data_remaining_ current_entry_data_consumed_].
  repeat split; try lia. exact Hd.
Qed.

Lemma read_requests_keep_payload fuel e reqs :
  forall (r : mreader) data data_end,
    data_source_ e = base_reader_fn ->
    in_payload data data_end r ->
    Forall (fun req => 0 <= snd req) reqs ->
    exists r',
      read_requests fuel e reqs r = Some (Ok tt, r')
      /\ in_payload data data_end r'
      /\ current_entry_ r' = current_entry_ r.
Proof.
  induction reqs as [|[offset length] reqs IH]; intros r data data_end Hsrc Hin Hall.
  - exists r. split; [reflexivity|]. split; [assumption | reflexivity].
  - inversion Hall as [|? ? Hl Hall']; subst. cbn [snd] in Hl.
    cbn [read_requests fst snd].
    assert (Hread : exists res r1,
      read_data fuel e offset length r = Some (res, r1)
      /\ in_payload data data_end r1 /\ current_entry_ r1 = current_entry_ r).
    { unfold read_data. destruct (negb (is_regular_file (metadata_ e))).
      - eexists _, r. split; [reflexivity|]. now split.
      - rewrite Hsrc. now apply base_reader_keeps_payload. }
    destruct Hread as (res & r1 & Hread & Hin1 & Hcur1).
    unfold bind at 1, try. rewrite Hread.
    destruct (IH r1 data data_end Hsrc Hin1 Hall') as (r' & Hrest & Hin' & Hcur').
    exists r'. split; [exact Hrest|]. split; [exact Hin' | congruence].
Qed.

Lemma padding_of_aligns n :
  0 <= padding_of n < 512 /\ (n + padding_of n) mod 512 = 0.
Proof.
  unfold padding_of, BLOCK_SIZE.
  pose proof (Z.mod_pos_bound n 512 ltac:(lia)) as Hn.
  split; [apply Z.mod_pos_bound; lia|].
  destruct (Z.eq_dec (n mod 512) 0) as [H0 | Hne].
  - rewrite H0. change ((512 - 0) mod 512) with 0. now rewrite Z.add_0_r.
  - rewrite (Z.mod_small (512 - n mod 512)) by lia.
    rewrite (Z.div_mod n 512) at 1 by lia.
    replace (512 * (n / 512) + n mod 512 + (512 - n mod 512))
      with ((n / 512 + 1) * 512) by lia.
    apply Z.mod_mul. lia.
Qed.

(** X20.  Whatever reads the caller issued on a plain entry, and whether
    they succeeded, skipping the entry leaves the stream right after the
    stored bytes and their padding, a whole number of 512-byte records
    after the start of the payload. *)
Theorem plain_entry_is_skipped_exactly (fuel : nat) (r : mreader)
    (e : archive_entry) (reqs : list (Z * Z)) :
  let pos := position_ (stream_ r) in
  let data := data_ (stream_ r) in
  let stored := entry_size e in
  let padding := if stored >? 0 then padding_of stored else 0 in
  current_entry_ r = Some e ->
  data_source_ e = base_reader_fn ->
  current_entry_data_remaining_ r = stored ->
  current_entry_data_consumed_ r = 0 ->
  0 <= pos -> 0 <= stored ->
  pos + stored + padding <= zlen data -> zlen data < 2 ^ 64 ->
  Forall (fun req => 0 <= snd req) reqs ->
  exists r1 r2,
    read_requests fuel e reqs r = Some (Ok tt, r1)
    /\ skip_current_entry_data r1 = Some (Ok tt, r2)
    /\ stream_ r2 = mk_mms data (pos + stored + padding)
    /\ (stored + padding) mod 512 = 0.
Proof.
  intros pos data stored padding Hcur Hsrc Hrem Hcons Hpos Hst Hfit Hlen Hall.
  assert (Hpad : 0 <= padding /\ (stored + padding) mod 512 = 0).
  { subst padding. destruct (stored >? 0) eqn:E.
    - destruct (padding_of_aligns stored). split; [lia | assumption].
    - assert (stored = 0) as -> by lia. split; [lia | reflexivity]. }
  assert (Hin : in_payload data (pos + stored) r).
  { unfold in_payload. fold pos data. rewrite Hrem, Hcons. repeat split; lia. }
  destruct (read_requests_keep_payload fuel e reqs r data (pos + stored) Hsrc Hin Hall)
    as (r1 & Hreads & (Hd1 & Hc1 & Hr1 & Hp1 & Hsum1 & _) & Hcur1).
  rewrite Hcur in Hcur1.
  destruct (mms_skip_current_entry_data r1 e Hcur1) as (r2 & Hskip & Hstream).
  - exact Hp1.
  - exact Hr1.
  - fold stored padding. rewrite Hsum1, Hd1. exact Hfit.
  - rewrite Hd1. exact Hlen.
  - exists r1, r2. split; [exact Hreads|]. split; [exact Hskip|].
    split; [|apply Hpad].
    rewrite Hstream. fold stored padding. rewrite Hsum1, Hd1. reflexivity.
Qed.

Lemma plain_entry_is_skipped_exactly_witness :
  let data := Fixtures.padded (bytes "hello world") in
  let e := mk_archive_entry (set_size 11 Examples.empty_metadata) base_reader_fn in
  let r : mreader :=
    mk_archive_reader (mk_mms data 0) (Some e) 11 0 false gnu_clear None ∅ false in
  exists r1 r2,
    read_requests 0 e [(0, 5); (5, 3); (0, 100)] r = Some (Ok tt, r1)
    /\ skip_current_entry_data r1 = Some (Ok tt, r2)
    /\ stream_ r2 = mk_mms data (0 + 11 + 501)
    /\ (11 + 501) mod 512 = 0.
Proof.
  intros data e r.
  apply (plain_entry_is_skipped_exactly 0 r e [(0, 5); (5, 3); (0, 100)]).
  - reflexivity.
  - reflexivity.
  - reflexivity.
  - reflexivity.
  - vm_compute. discriminate.
  - vm_compute. discriminate.
  - vm_compute. discriminate.
  - vm_compute. reflexivity.
  - repeat constructor; simpl; lia.
Defined.

(** ** GNU extension payloads on a memory stream *)




(** ** Reading a sparse entry *)

(** X22.  A read of a sparse entry that lies inside one hole (it starts
    outside every segment and ends before the next segment and before
    the real size) and asks for no more than a vector can hold returns
    zero bytes only, as many as asked for up to the real size, and does
    not touch the reader or its stream. *)
Theorem sparse_hole_reads_zeros {S : Type} `{!InputStream S} (fuel : nat)
    (sp : sparse_metadata) (offset length : Z) (r : archive_reader S) :
  let n := Z.min length (real_size sp - offset) in
  let next_start := next_segment_start (segments sp) offset (real_size sp) in
  0 <= offset < real_size sp -> real_size sp < 2 ^ 64 -> 0 <= length ->
  n <= VECTOR_MAX_SIZE ->
  find_segment sp offset = None ->
  offset + n <= next_start < 2 ^ 64 ->
  sparse_reader (Datatypes.S fuel) sp offset length r
  = Some (Ok (replicate (Z.to_nat n) NUL), r).
Proof.
  intros n next_start Hoff Hrs Hlen Hmax Hfind Hnext.
  unfold sparse_reader.
  destruct (offset >=? real_size sp) eqn:E; [apply Z.geb_le in E; lia|].
  rewrite wrap64_small by lia. cbv zeta. fold n.
  destruct (n >? VECTOR_MAX_SIZE) eqn:Emax; [lia|].
  cbn [sparse_read_loop].
  destruct (n >? 0) eqn:En.
  2: { assert (n = 0) as -> by lia. reflexivity. }
  rewrite Hfind. cbv zeta. fold next_start.
  rewrite (wrap64_small (next_start - offset)) by lia.
  rewrite (Z.min_l n (next_start - offset)) by lia.
  rewrite Emax. change (zlen (@nil ascii)) with 0. rewrite Z.add_0_l, Emax.
  rewrite Z.sub_diag. change (wrap64 0) with 0.
  destruct fuel; reflexivity.
Qed.

Lemma sparse_hole_reads_zeros_witness :
  sparse_reader 1 Examples.sparse_descriptor 100 900
    (new_reader (open_memory Examples.sparse_archive))
  = Some (Ok (replicate 900 NUL), new_reader (open_memory Examples.sparse_archive)).
Proof.
  apply (sparse_hole_reads_zeros 0 Examples.sparse_descriptor 100 900);
    try reflexivity; try (vm_compute; discriminate); simpl; lia.
Defined.

Lemma base_reader_at_end (data : list ascii) cur rem fin gnu psp pax needs to_read :
  let r := mk_archive_reader (mk_mms data (zlen data)) cur rem 0 fin gnu psp pax needs in
  zlen data < 2 ^ 64 -> 0 < rem < 2 ^ 64 -> 0 < to_read ->
  base_reader 0 to_read r = Some (Ok [], r).
Proof.
  intros r Hlen Hrem Hto.
  unfold base_reader, r. cbn [Z.gtb Z.compare].
  unfold bind at 1, get at 1. cbn [current_entry_data_consumed_ Z.ltb Z.compare].
  change (wrap64 (0 - 0)) with 0. cbn [Z.gtb Z.compare].
  unfold bind at 1, ret at 1. unfold bind at 1, get at 1.
  cbn [current_entry_data_remaining_].
  destruct (Z.min to_read rem =? 0) eqn:Ez; [lia|].
  unfold bind at 1, on_stream, read.
  cbn [stream_ stream_read memory_mapped_input_stream].
  unfold mms_read. cbn [position_ data_].
  rewrite Z.sub_diag. change (wrap64 0) with 0.
  rewrite (Z.min_r (Z.min to_read rem) 0) by lia.
  change (ztake 0 (zdrop (zlen data) data)) with (@nil ascii).
  rewrite Z.add_0_r. rewrite (wrap64_small (zlen data)) by (unfold zlen in *; lia).
  unfold bind, modify, ret, set_counters, set_stream.
  cbn [stream_ current_entry_ current_entry_data_remaining_
       current_entry_data_consumed_ finished_ pending_gnu_extensions_
       pending_sparse_info_ pending_pax_headers_ needs_sparse_1_0_processing_].
  change (zlen (@nil ascii)) with 0.
  rewrite Z.sub_0_r, Z.add_0_r. rewrite (wrap64_small rem) by lia.
  reflexivity.
Qed.

Lemma sparse_read_loop_stuck (fuel : nat) :
  forall (data : list ascii) cur rem fin gnu psp pax needs sp seg rest remaining acc,
    let r := mk_archive_reader (mk_mms data (zlen data)) cur rem 0 fin gnu psp pax needs in
    segments sp = seg :: rest ->
    0 <= seg_offset seg -> 0 < seg_size seg -> seg_offset seg + seg_size seg < 2 ^ 64 ->
    zlen data < 2 ^ 64 ->
    0 < rem < 2 ^ 64 ->
    0 < remaining < 2 ^ 64 ->
    sparse_read_loop fuel sp (seg_offset seg) remaining acc r = None.
Proof.
  induction fuel as [|fuel IH];
    intros data cur rem fin gnu psp pax needs sp seg rest remaining acc r
           Hsegs Hso Hss Hsum Hlen Hrem Hremaining.
  - cbn [sparse_read_loop]. destruct (remaining >? 0) eqn:E; [reflexivity | lia].
  - cbn [sparse_read_loop]. destruct (remaining >? 0) eqn:E; [|lia].
    assert (Hfind : find_segment sp (seg_offset seg) = Some 0).
    { unfold find_segment. rewrite Hsegs. cbn [find_segment_from].
      rewrite wrap64_small by lia.
      assert ((seg_offset seg >=? seg_offset seg) = true) as ->
        by (apply Z.geb_le; lia).
      cbn [andb].
      destruct (seg_offset seg <? seg_offset seg + seg_size seg) eqn:E2; [reflexivity | lia]. }
    rewrite Hfind. cbv zeta. rewrite Hsegs.
    change (Z.to_nat 0) with 0%nat. cbn [nth].
    rewrite Z.sub_diag. change (wrap64 0) with 0. rewrite Z.sub_0_r.
    rewrite (wrap64_small (seg_size seg)) by lia.
    unfold sparse_data_offset_before, ztake. change (Z.to_nat 0) with 0%nat.
    cbn [take fold_left].
    change (wrap64 (0 + 0)) with 0.
    set (to_read := Z.min remaining (seg_size seg)).
    assert (Hto : 0 < to_read) by (unfold to_read; lia).
    unfold bind. unfold r. rewrite base_reader_at_end by assumption.
    change (zlen (@nil ascii)) with 0.
    destruct (zlen acc + 0 >? VECTOR_MAX_SIZE); [reflexivity|].
    rewrite Z.add_0_r, Z.sub_0_r, app_nil_r.
    rewrite (wrap64_small (seg_offset seg)) by lia.
    rewrite (wrap64_small remaining) by lia.
    now apply (IH data cur rem fin gnu psp pax needs sp seg rest).
Qed.

(** X23.  When the archive ends right before the stored bytes of a
    sparse entry, reading the entry from the start of its first segment
    never returns: the stream gives no byte, the base reader returns an
    empty span without an error, and the loop of the sparse reader runs
    again with the same offset and the same remaining length.  In the
    model every amount of fuel is used up.  (A read so long that the
    result buffer cannot be reserved throws instead, and returns nothing
    either.) *)
Theorem sparse_read_of_truncated_data_never_returns (r : mreader)
    (sp : sparse_metadata) (seg : sparse_entry) (rest : list sparse_entry)
    (length : Z) :
  segments sp = seg :: rest ->
  0 <= seg_offset seg -> 0 < seg_size seg ->
  seg_offset seg + seg_size seg < 2 ^ 64 ->
  seg_offset seg < real_size sp < 2 ^ 64 ->
  0 < length ->
  mms_wf (stream_ r) -> mms_at_end (stream_ r) = true ->
  current_entry_data_consumed_ r = 0 ->
  0 < current_entry_data_remaining_ r < 2 ^ 64 ->
  forall fuel, sparse_reader fuel sp (seg_offset seg) length r = None.
Proof.
  intros Hsegs Hso Hss Hsum Hrs Hlen [Hpos Hdata] Hend Hcons Hrem fuel.
  destruct r as [[data pos] cur rem cons fin gnu psp pax needs].
  cbn [stream_ position_ data_ current_entry_data_remaining_
       current_entry_data_consumed_] in *. subst cons.
  unfold mms_at_end in Hend. cbn [position_ data_] in Hend. apply Z.geb_le in Hend.
  assert (pos = zlen data) as -> by lia.
  unfold sparse_reader.
  destruct (seg_offset seg >=? real_size sp) eqn:E; [apply Z.geb_le in E; lia|].
  rewrite wrap64_small by lia. cbv zeta.
  destruct (Z.min length (real_size sp - seg_offset seg) >? VECTOR_MAX_SIZE);
    [reflexivity|].
  apply (sparse_read_loop_stuck fuel data cur rem fin gnu psp pax needs sp seg rest);
    try assumption; lia.
Qed.

Lemma sparse_read_of_truncated_data_never_returns_witness :
  sparse_reader 1000 Examples.sparse_descriptor 0 100
    (mk_archive_reader (mk_mms Examples.sparse_header 512) None 150 0 false
                       gnu_clear None ∅ false)
  = None.
Proof.
  refine (sparse_read_of_truncated_data_never_returns
            (mk_archive_reader (mk_mms Examples.sparse_header 512) None 150 0 false
                               gnu_clear None ∅ false)
            Examples.sparse_descriptor (mk_sparse_entry 0 100) [mk_sparse_entry 1000 50] 100
            _ _ _ _ _ _ _ _ _ _ 1000%nat).
  - reflexivity.
  - simpl. lia.
  - simpl. lia.
  - simpl. lia.
  - simpl. lia.
  - lia.
  - vm_compute. repeat split; discriminate.
  - reflexivity.
  - reflexivity.
  - simpl. lia.
Defined.

(** ** Headers written field by field *)

Section BuiltHeaders.
Import Fixtures.

Lemma length_strncpy n src : length (strncpy n src) = n.
Proof.
  unfold strncpy. rewrite length_take, length_app, length_replicate. lia.
Qed.

Lemma length_patch off new block :
  (off + length new <= length block)%nat ->
  length (patch off new block) = length block.
Proof.
  intros H. unfold patch. rewrite !length_app, length_take, length_drop. lia.
Qed.

Lemma length_patch_512 off new block :
  length block = 512%nat -> (off + length new <= 512)%nat ->
  length (patch off new block) = 512%nat.
Proof. intros Hb H. rewrite length_patch; lia. Qed.

(** A field that a patch does not touch. *)
Lemma field_patch_other o l off new block :
  (off + length new <= length block)%nat ->
  (o + l <= off \/ off + length new <= o)%nat ->
  field o l (patch off new block) = field o l block.
Proof.
  intros Hfit Hdisj. unfold field, patch.
  destruct Hdisj as [Hbefore | Hafter].
  - rewrite drop_app_le by (rewrite length_take; lia).
    rewrite take_app_le by (rewrite length_drop, length_take; lia).
    rewrite <- (take_drop off block) at 2.
    rewrite drop_app_le by (rewrite length_take; lia).
    rewrite take_app_le by (rewrite length_drop, length_take; lia).
    reflexivity.
  - rewrite app_assoc.
    rewrite drop_app_ge by (rewrite length_app, length_take; lia).
    rewrite length_app, length_take, drop_drop.
    f_equal. f_equal. lia.
Qed.

(** The field that a patch writes. *)
Lemma field_patch_same off new block :
  (off + length new <= length block)%nat ->
  field off (length new) (patch off new block) = new.
Proof.
  intros Hfit. unfold field, patch.
  rewrite drop_app_length' by (rewrite length_take; lia).
  now rewrite take_app_length.
Qed.

Lemma nth_patch_other i off new block d :
  (off + length new <= length block)%nat ->
  (i < off \/ off + length new <= i)%nat ->
  nth i (patch off new block) d = nth i block d.
Proof.
  intros Hfit Hdisj. unfold patch.
  destruct Hdisj as [Hbefore | Hafter].
  - rewrite app_nth1 by (rewrite length_take; lia).
    rewrite <- (take_drop off block) at 2.
    now rewrite app_nth1 by (rewrite length_take; lia).
  - rewrite app_assoc.
    rewrite app_nth2 by (rewrite length_app, length_take; lia).
    rewrite length_app, length_take.
    rewrite nth_skipn. f_equal. lia.
Qed.

Lemma nth_patch_same off (c : ascii) block d :
  (off + 1 <= length block)%nat ->
  nth off (patch off [c] block) d = c.
Proof.
  intros Hfit. unfold patch.
  rewrite app_nth2 by (rewrite length_take; lia).
  rewrite length_take. replace (off - off `min` length block)%nat with 0%nat by lia.
  reflexivity.
Qed.

Lemma field_patch_other_512 o l off new block :
  length block = 512%nat -> (off + length new <= 512)%nat ->
  (o + l <= off \/ off + length new <= o)%nat ->
  field o l (patch off new block) = field o l block.
Proof. intros Hb Hfit Hd. apply field_patch_other; lia. Qed.

Lemma field_patch_same_512 off n new block :
  length block = 512%nat -> length new = n -> (off + n <= 512)%nat ->
  field off n (patch off new block) = new.
Proof. intros Hb <- Hfit. apply field_patch_same. lia. Qed.

Lemma nth_patch_other_512 i off new block d :
  length block = 512%nat -> (off + length new <= 512)%nat ->
  (i < off \/ off + length new <= i)%nat ->
  nth i (patch off new block) d = nth i block d.
Proof. intros Hb Hfit Hd. apply nth_patch_other; lia. Qed.

Ltac block_len :=
  repeat (apply length_patch_512; [| rewrite ?length_strncpy; cbn [length]; lia]);
  apply length_replicate.

Ltac field_side :=
  first [ block_len | apply length_strncpy | (rewrite ?length_strncpy; cbn [length]; lia) ].

Ltac skip_patches :=
  repeat (rewrite field_patch_other_512 by field_side).

Lemma raw_header_length f : length (raw_header f) = 512%nat.
Proof. unfold raw_header. block_len. Qed.

Lemma raw_header_fields f :
  let b := raw_header f in
  hdr_name b = strncpy 100 (f_name f)
  /\ hdr_mode b = strncpy 8 (f_mode f)
  /\ hdr_uid b = strncpy 8 (f_uid f)
  /\ hdr_gid b = strncpy 8 (f_gid f)
  /\ hdr_size b = strncpy 12 (f_size f)
  /\ hdr_mtime b = strncpy 12 (f_mtime f)
  /\ hdr_typeflag b = f_typeflag f
  /\ hdr_linkname b = strncpy 100 (f_linkname f)
  /\ hdr_magic b = strncpy 6 (f_magic f)
  /\ hdr_version b = strncpy 2 (f_version f)
  /\ hdr_uname b = strncpy 32 (f_uname f)
  /\ hdr_gname b = strncpy 32 (f_gname f)
  /\ hdr_devmajor b = replicate 8 NUL
  /\ hdr_devminor b = replicate 8 NUL
  /\ hdr_prefix b = strncpy 155 (f_prefix f).
Proof.
  intros b. subst b. unfold raw_header.
  unfold hdr_name, hdr_mode, hdr_uid, hdr_gid, hdr_size, hdr_mtime, hdr_linkname,
    hdr_magic, hdr_version, hdr_uname, hdr_gname, hdr_devmajor, hdr_devminor, hdr_prefix,
    hdr_typeflag.
  repeat split.
  all: try (skip_patches; rewrite field_patch_same_512 by field_side; reflexivity).
  - repeat (rewrite nth_patch_other_512 by field_side).
    apply nth_patch_same. 
    replace (length _) with 512%nat by (symmetry; block_len). lia.
  - skip_patches. reflexivity.
  - skip_patches. reflexivity.
Qed.

Lemma length_octal_digits n v : length (octal_digits n v) = n.
Proof.
  revert v. induction n as [|n IH]; intros v; [reflexivity|].
  cbn [octal_digits]. rewrite length_app, IH. simpl. lia.
Qed.

Lemma ord_chr z : 0 <= z < 256 -> ord (chr z) = z.
Proof.
  intros Hz. unfold ord, chr. rewrite Z.mod_small by lia.
  rewrite N_ascii_embedding by lia. lia.
Qed.

Lemma octal_digits_are_octal n v : forallb is_octal_digit (octal_digits n v) = true.
Proof.
  revert v. induction n as [|n IH]; intros v; [reflexivity|].
  cbn [octal_digits]. rewrite forallb_app, IH. cbn [forallb andb].
  rewrite andb_true_r. unfold is_octal_digit.
  pose proof (Z.mod_pos_bound v 8 ltac:(lia)).
  change (ord "0") with 48. change (ord "7") with 55.
  rewrite ord_chr by lia.
  apply andb_true_iff. split; apply Z.leb_le; lia.
Qed.

Lemma octal_value_app ds c :
  octal_value (ds ++ [c]) = octal_value ds * 8 + (ord c - ord "0").
Proof. unfold octal_value. now rewrite fold_left_app. Qed.

Lemma octal_value_digits n v : 0 <= v -> octal_value (octal_digits n v) = v mod 8 ^ Z.of_nat n.
Proof.
  revert v. induction n as [|n IH]; intros v Hv.
  - cbn. now rewrite Z.mod_1_r.
  - cbn [octal_digits]. rewrite octal_value_app.
    rewrite IH by (apply Z.div_pos; lia).
    pose proof (Z.mod_pos_bound v 8 ltac:(lia)).
    change (ord "0") with 48. rewrite ord_chr by lia.
    rewrite Nat2Z.inj_succ, Z.pow_succ_r by lia.
    rewrite Z.rem_mul_r by lia.
    lia.
Qed.

(** A field that starts with octal digits and goes on with a NUL or a
    space, or ends after the digits. *)
Lemma parse_octal_digits ds tail :
  ds <> [] -> forallb is_octal_digit ds = true ->
  match tail with [] => True | c :: _ => is_field_blank c = true end ->
  octal_value ds < 2 ^ 64 ->
  parse_octal (ds ++ tail) = Ok (octal_value ds).
Proof.
  intros Hne Hds Htail Hv. unfold parse_octal.
  destruct ds as [|c ds]; [congruence|].
  simpl in Hds. apply andb_true_iff in Hds as [Hc Hds].
  destruct (octal_digit_facts c Hc) as (Hn & Hs & Hlo & Hhi & Hd).
  cbn [app parse_octal_loop]. rewrite Hn, Hs, Hlo, Hhi. cbn [orb].
  change (0 >? Z.shiftr UINT64_MAX 3) with false. cbv iota.
  rewrite lor_shiftl_3 by lia.
  rewrite parse_octal_loop_digits by (auto; lia).
  fold (octal_value (c :: ds)) in *.
  unfold octal_value in *. cbn [fold_left] in *.
  destruct (_ <? 2 ^ 64) eqn:E; [reflexivity | lia].
Qed.

Lemma calculate_checksum_patch block stored :
  length block = 512%nat -> length stored = 8%nat ->
  calculate_checksum (patch 148 stored block) = calculate_checksum block.
Proof.
  intros Hlen Hst.
  unfold calculate_checksum, patch. rewrite Hst. f_equal.
  rewrite take_app_le by (rewrite length_take; lia).
  rewrite take_take. change (148 `min` 148)%nat with 148%nat.
  f_equal. f_equal.
  change (156)%nat with (148 + 8)%nat at 1.
  rewrite <- drop_drop.
  rewrite drop_app_length' by (rewrite length_take; lia).
  rewrite drop_app_length' by lia. reflexivity.
Qed.

Lemma create_header_checksum f :
  let b := create_header f in
  length b = 512%nat
  /\ parse_octal (hdr_checksum b) = Ok (calculate_checksum b).
Proof.
  intros b. subst b. unfold create_header, with_checksum.
  pose proof (raw_header_length f) as Hlen.
  set (raw := raw_header f) in *.
  assert (Hst : length (octal_digits 6 (calculate_checksum raw) ++ [SP; NUL]) = 8%nat).
  { rewrite length_app, length_octal_digits. reflexivity. }
  split; [rewrite length_patch; [exact Hlen | lia]|].
  rewrite calculate_checksum_patch by assumption.
  unfold hdr_checksum. rewrite field_patch_same_512 by (try assumption; lia).
  pose proof (calculate_checksum_sum raw Hlen) as Hsum.
  pose proof (byte_sum_bound (take 148 raw)) as H1.
  pose proof (byte_sum_bound (drop 156 raw)) as H2.
  rewrite length_take in H1. rewrite length_drop in H2.
  assert (Hval : octal_value (octal_digits 6 (calculate_checksum raw))
                 = calculate_checksum raw).
  { rewrite octal_value_digits by lia. change (8 ^ Z.of_nat 6) with 262144.
    apply Z.mod_small. lia. }
  rewrite parse_octal_digits.
  - now rewrite Hval.
  - destruct (octal_digits 6 _) eqn:E; [|discriminate].
    apply (f_equal (@length ascii)) in E. rewrite length_octal_digits in E. discriminate.
  - apply octal_digits_are_octal.
  - reflexivity.
  - rewrite Hval. lia.
Qed.

Lemma until_nul_app_nul l rest :
  forallb (fun c => negb (Ascii.eqb c NUL)) l = true ->
  until_nul (l ++ NUL :: rest) = l.
Proof.
  induction l as [|c l IH]; intros H; [reflexivity|].
  simpl in H. apply andb_true_iff in H as [Hc H]. apply negb_true_iff in Hc.
  cbn [app until_nul]. rewrite Hc. f_equal. now apply IH.
Qed.

Lemma until_nul_no_nul l :
  forallb (fun c => negb (Ascii.eqb c NUL)) l = true -> until_nul l = l.
Proof.
  induction l as [|c l IH]; intros H; [reflexivity|].
  simpl in H. apply andb_true_iff in H as [Hc H]. apply negb_true_iff in Hc.
  cbn [until_nul]. rewrite Hc. f_equal. now apply IH.
Qed.

Lemma str_bytes s : str (bytes s) = s.
Proof. apply string_of_list_ascii_of_string. Qed.

Lemma bytes_str l : bytes (str l) = l.
Proof. apply list_ascii_of_string_of_list_ascii. Qed.

Lemma extract_string_strncpy k s :
  c_string s -> (String.length s <= k)%nat ->
  extract_string (strncpy k s) = s.
Proof.
  intros Hc Hlen. unfold extract_string, strncpy.
  rewrite <- (str_bytes s) in Hlen. rewrite length_str in Hlen.
  destruct (Nat.eq_dec (length (bytes s)) k) as [Heq | Hne].
  - rewrite take_app_length' by (symmetry; exact Heq). rewrite until_nul_no_nul by exact Hc.
    apply str_bytes.
  - rewrite take_app_ge by lia.
    destruct (k - length (bytes s))%nat as [|m] eqn:Em; [lia|].
    destruct k as [|k']; [lia|].
    rewrite take_replicate. 
    replace (S m `min` S k')%nat with (S m) by lia.
    cbn [replicate]. rewrite until_nul_app_nul by exact Hc. apply str_bytes.
Qed.

Lemma create_header_fields f :
  let b := create_header f in
  hdr_name b = strncpy 100 (f_name f)
  /\ hdr_mode b = strncpy 8 (f_mode f)
  /\ hdr_uid b = strncpy 8 (f_uid f)
  /\ hdr_gid b = strncpy 8 (f_gid f)
  /\ hdr_size b = strncpy 12 (f_size f)
  /\ hdr_mtime b = strncpy 12 (f_mtime f)
  /\ hdr_typeflag b = f_typeflag f
  /\ hdr_linkname b = strncpy 100 (f_linkname f)
  /\ hdr_magic b = strncpy 6 (f_magic f)
  /\ hdr_version b = strncpy 2 (f_version f)
  /\ hdr_uname b = strncpy 32 (f_uname f)
  /\ hdr_gname b = strncpy 32 (f_gname f)
  /\ hdr_devmajor b = replicate 8 NUL
  /\ hdr_devminor b = replicate 8 NUL
  /\ hdr_prefix b = strncpy 155 (f_prefix f).
Proof.
  intros b. subst b. unfold create_header, with_checksum.
  pose proof (raw_header_length f) as Hlen.
  pose proof (raw_header_fields f) as Hraw. cbv zeta in Hraw.
  set (raw := raw_header f) in *.
  assert (Hst : length (octal_digits 6 (calculate_checksum raw) ++ [SP; NUL]) = 8%nat).
  { rewrite length_app, length_octal_digits. reflexivity. }
  unfold hdr_name, hdr_mode, hdr_uid, hdr_gid, hdr_size, hdr_mtime, hdr_linkname,
    hdr_magic, hdr_version, hdr_uname, hdr_gname, hdr_devmajor, hdr_devminor, hdr_prefix,
    hdr_typeflag in *.
  rewrite !field_patch_other_512 by (try assumption; lia).
  rewrite nth_patch_other_512 by (try assumption; lia).
  exact Hraw.
Qed.

Lemma field_patch_inside i l off new block :
  (off + length new <= length block)%nat -> (i + l <= length new)%nat ->
  field (off + i) l (patch off new block) = field i l new.
Proof.
  intros Hfit Hin. unfold field, patch.
  rewrite <- drop_drop.
  rewrite drop_app_length' by (rewrite length_take; lia).
  rewrite drop_app_le by lia.
  rewrite take_app_le by (rewrite length_drop; lia).
  reflexivity.
Qed.

(** With an empty prefix the bytes of the sparse overlay are all NUL. *)
Lemma create_header_no_sparse_map f :
  f_prefix f = ""%string -> old_sparse_segments (create_header f) = [].
Proof.
  intros Hp. unfold old_sparse_segments.
  assert (Hslot : sp_offset 0 (create_header f) = replicate 12 NUL).
  { unfold sp_offset, create_header, with_checksum.
    pose proof (raw_header_length f) as Hlen.
    rewrite field_patch_other_512;
      [| exact Hlen
       | rewrite length_app, length_octal_digits; simpl; lia
       | rewrite length_app, length_octal_digits; simpl; lia].
    unfold raw_header. skip_patches.
    change (384 + 24 * 0)%nat with (345 + 39)%nat.
    rewrite field_patch_inside
      by (rewrite ?length_strncpy, ?length_replicate; lia).
    rewrite Hp. reflexivity. }
  cbn [seq sparse_slots]. rewrite Hslot. reflexivity.
Qed.

Lemma forallb_field {p : ascii -> bool} o l b :
  forallb p b = true -> forallb p (field o l b) = true.
Proof.
  intros H. unfold field. rewrite forallb_forall in *.
  intros x Hx. apply H.
  apply list_elem_of_In. apply list_elem_of_In in Hx.
  apply elem_of_take in Hx as (i & Hi & _). rewrite lookup_drop in Hi.
  now apply list_elem_of_lookup_2 in Hi.
Qed.

Lemma test_header_not_zero f :
  f_magic f = "ustar"%string -> is_zero_block (create_header f) = false.
Proof.
  intros Hm. destruct (is_zero_block (create_header f)) eqn:E; [|reflexivity].
  unfold is_zero_block in E.
  pose proof (forallb_field 257 6 _ E) as Hf. fold (hdr_magic (create_header f)) in Hf.
  destruct (create_header_fields f) as (_ & _ & _ & _ & _ & _ & _ & _ & Hmagic & _).
  cbv zeta in Hmagic. rewrite Hmagic, Hm in Hf. discriminate Hf.
Qed.

Lemma length_create_header f : length (create_header f) = 512%nat.
Proof. now destruct (create_header_checksum f). Qed.

Lemma strncpy_octal11 n :
  strncpy 12 (octal11 n) = octal_digits 11 n ++ [NUL].
Proof.
  unfold strncpy, octal11. rewrite bytes_str.
  rewrite take_app_ge by (rewrite length_octal_digits; lia).
  rewrite length_octal_digits. reflexivity.
Qed.

(** The header of the tests, with a name, a size, a type flag and a link
    name of one's own, parses to the metadata it was written from. *)
Lemma parse_test_header (name linkname : string) (n : Z) (flag : ascii)
    (ty : entry_type) :
  name <> ""%string -> c_string name -> (String.length name <= 100)%nat ->
  c_string linkname -> (String.length linkname <= 100)%nat ->
  0 <= n < 8 ^ 11 ->
  entry_type_of_char flag = Some ty ->
  parse_header (create_header (test_fields name (octal11 n) flag linkname))
  = Ok (test_metadata name ty n
          (if (entry_type_eqb ty symbolic_link || entry_type_eqb ty hard_link)
              && negb (String.eqb linkname "")
           then Some linkname else None)).
Proof.
  intros Hne Hcn Hln Hcl Hll Hn Hty.
  set (f := test_fields name (octal11 n) flag linkname).
  destruct (create_header_checksum f) as [Hlen Hsum].
  destruct (create_header_fields f)
    as (Hname & Hmode & Huid & Hgid & Hsize & Hmtime & Hflag & Hlink & Hmagic
        & Hversion & Huname & Hgname & Hmajor & Hminor & Hprefix).
  cbv zeta in *. set (b := create_header f) in *.
  unfold parse_header.
  rewrite Hmagic, Hversion, Hsum, Hmode, Huid, Hgid, Hsize, Hmtime, Hprefix, Hname,
    Hflag, Hmajor, Hminor, Hlink, Huname, Hgname.
  cbn [f test_fields f_name f_mode f_uid f_gid f_size f_mtime f_typeflag f_linkname
       f_magic f_version f_uname f_gname f_prefix].
  change (extract_string (strncpy 6 "ustar")) with "ustar"%string.
  change (extract_string (strncpy 2 "00")) with "00"%string.
  change (String.eqb "ustar" "ustar") with true.
  change (is_gnu_tar_magic "ustar") with true.
  change (String.eqb "00" "00") with true.
  cbn [negb andb].
  rewrite Z.eqb_refl. cbn [negb].
  change (parse_octal (strncpy 8 "0000644")) with (Ok 420).
  change (parse_octal (strncpy 8 "0001000")) with (Ok 512).
  change (parse_octal (strncpy 12 "14371573624")) with (Ok 1676081044).
  rewrite strncpy_octal11.
  assert (Hval : octal_value (octal_digits 11 n) = n).
  { rewrite octal_value_digits by lia. apply Z.mod_small. lia. }
  rewrite parse_octal_digits.
  2: { destruct (octal_digits 11 n) eqn:E; [|discriminate].
       apply (f_equal (@length ascii)) in E. rewrite length_octal_digits in E. discriminate. }
  2: apply octal_digits_are_octal.
  2: reflexivity.
  2: { rewrite Hval. lia. }
  rewrite Hval.
  rewrite !extract_string_strncpy by first [assumption | reflexivity | (simpl; lia)].
  change (String.eqb "" "") with true. cbn [negb].
  assert (Hnm : String.eqb name "" = false) by (now apply String.eqb_neq).
  rewrite Hnm.
  assert (Hsparse : parse_old_sparse_header b
                    = Ok (mk_sparse_metadata
                            match parse_sparse_octal (sp_realsize b) with
                            | Some r => r
                            | None => 0
                            end [])).
  { unfold parse_old_sparse_header. unfold b. rewrite create_header_no_sparse_map by reflexivity.
    reflexivity. }
  rewrite Hsparse. cbn [segments].
  change (parse_octal (replicate 8 NUL)) with (Ok 0).
  cbn [value_or]. change (wrap32 0) with 0. change (wrap32 512) with 512.
  change (Z.land 420 4095) with 420.
  destruct (Ascii.eqb flag (to_underlying regular_file)
            || Ascii.eqb flag (to_underlying gnu_sparse));
    rewrite Hty;
    destruct (entry_type_eqb ty character_device || entry_type_eqb ty block_device);
    reflexivity.
Qed.

(** X24.  A header written as the tests write it (the fields copied to
    their offsets, the checksum stored as six octal digits, a space and a
    NUL) is a record of 512 bytes, is not taken for an end-of-archive
    record, and is read back by [parse_header]: the name (1 to 100 bytes),
    the size (up to eleven octal digits), the type of the flag, the mode,
    the ids and the names; the link name is kept for symbolic and hard
    links only, and only when it is not empty. *)
Theorem test_header_is_read_back (name linkname : string) (n : Z) (flag : ascii)
    (ty : entry_type) :
  name <> ""%string -> c_string name -> (String.length name <= 100)%nat ->
  c_string linkname -> (String.length linkname <= 100)%nat ->
  0 <= n < 8 ^ 11 ->
  entry_type_of_char flag = Some ty ->
  let block := create_header (test_fields name (octal11 n) flag linkname) in
  length block = 512%nat
  /\ is_zero_block block = false
  /\ parse_header block
     = Ok (test_metadata name ty n
             (if (entry_type_eqb ty symbolic_link || entry_type_eqb ty hard_link)
                 && negb (String.eqb linkname "")
              then Some linkname else None)).
Proof.
  intros Hne Hcn Hln Hcl Hll Hn Hty block.
  split; [apply length_create_header|].
  split; [now apply test_header_not_zero|].
  now apply parse_test_header.
Qed.

End BuiltHeaders.

Lemma test_header_is_read_back_witness :
  let block := Fixtures.create_header
                 (test_fields "link" (Fixtures.octal11 0) "2" "target/of/link") in
  length block = 512%nat
  /\ is_zero_block block = false
  /\ parse_header block
     = Ok (test_metadata "link" symbolic_link 0 (Some "target/of/link"%string)).
Proof.
  apply (test_header_is_read_back "link" "target/of/link" 0 "2" symbolic_link).
  - discriminate.
  - reflexivity.
  - simpl. lia.
  - reflexivity.
  - simpl. lia.
  - lia.
  - reflexivity.
Defined.

(** ** Archives of plain files *)

Section PlainArchives.
Import Fixtures.

Lemma zlen_app {A} (a b : list A) : zlen (a ++ b) = zlen a + zlen b.
Proof. unfold zlen. rewrite length_app. lia. Qed.

Lemma zlen_padded content :
  zlen (padded content) = zlen content + padding_of (zlen content).
Proof.
  unfold padded. rewrite zlen_app. unfold zlen at 2. rewrite length_replicate.
  destruct (padding_of_aligns (zlen content)) as [H _]. lia.
Qed.

Lemma ztake_zdrop_middle (pre mid post : list ascii) :
  ztake (zlen mid) (zdrop (zlen pre) (pre ++ mid ++ post)) = mid.
Proof.
  unfold ztake, zdrop, zlen. rewrite !Nat2Z.id.
  rewrite drop_app_length. now rewrite take_app_length.
Qed.

(** The header of a file record parses to the metadata of the file. *)
Lemma parse_file_header f :
  valid_file f ->
  parse_header (create_header (test_fields (fst f) (octal11 (zlen (snd f))) "0" ""))
  = Ok (test_metadata (fst f) regular_file (zlen (snd f)) None).
Proof.
  intros (Hne & Hc & Hl & Hsz).
  apply (parse_test_header (fst f) "" (zlen (snd f)) "0" regular_file);
    try assumption; try reflexivity.
  - simpl. lia.
  - unfold zlen in *. lia.
Qed.

Lemma next_entry_at_file (fuel : nat) A pre f rest (r : mreader) :
  A = pre ++ file_record (fst f) (snd f) ++ rest ->
  zlen A < 2 ^ 64 -> valid_file f ->
  between_records A (zlen pre) r ->
  next_entry (Datatypes.S fuel) r
  = Some (Ok (Some (entry_of f)),
          clean (mk_mms A (zlen pre + 512)) (Some (entry_of f)) (zlen (snd f)) 0 false).
Proof.
  intros HA Hlen Hvalid [Hfin Hskip].
  set (header := create_header (test_fields (fst f) (octal11 (zlen (snd f))) "0" "")).
  assert (Hh : zlen header = 512) by (unfold zlen, header; now rewrite length_create_header).
  assert (HA' : A = pre ++ header ++ (padded (snd f) ++ rest)).
  { rewrite HA. unfold file_record. fold header. now rewrite <- app_assoc. }
  assert (Hfit : zlen pre + 512 <= zlen A).
  { rewrite HA', !zlen_app, Hh. unfold zlen. lia. }
  assert (Hpre : 0 <= zlen pre) by (unfold zlen; lia).
  assert (Hhdr : read_header r
                 = Some (Ok (Some (test_metadata (fst f) regular_file (zlen (snd f)) None)),
                         clean (mk_mms A (zlen pre + 512)) None 0 0 false)).
  { rewrite (read_header_unfold r _ Hskip).
    rewrite read_block_spec.
    cbn [clean set_counters set_current_entry stream_ current_entry_
         current_entry_data_remaining_ current_entry_data_consumed_ finished_
         pending_gnu_extensions_ pending_sparse_info_ pending_pax_headers_
         needs_sparse_1_0_processing_ stream_read memory_mapped_input_stream].
    change BLOCK_SIZE with 512.
    rewrite mms_read_within by lia.
    replace (ztake 512 (zdrop (zlen pre) A)) with header
      by (rewrite <- Hh, HA'; symmetry; apply ztake_zdrop_middle).
    rewrite Hh, Z.eqb_refl.
    unfold header at 1. rewrite test_header_not_zero by reflexivity.
    fold header. unfold header. rewrite parse_file_header by exact Hvalid.
    reflexivity. }
  rewrite (next_entry_step fuel r _ _ Hfin Hhdr).
  reflexivity.
Qed.

Lemma read_file_data (fuel : nat) A pre f rest :
  A = pre ++ file_record (fst f) (snd f) ++ rest ->
  zlen A < 2 ^ 64 ->
  read_data fuel (entry_of f) 0 SIZE_MAX
    (clean (mk_mms A (zlen pre + 512)) (Some (entry_of f)) (zlen (snd f)) 0 false)
  = Some (Ok (snd f),
          clean (mk_mms A (zlen pre + 512 + zlen (snd f))) (Some (entry_of f))
                0 (zlen (snd f)) false).
Proof.
  intros HA Hlen.
  set (header := create_header (test_fields (fst f) (octal11 (zlen (snd f))) "0" "")).
  assert (Hh : zlen header = 512) by (unfold zlen, header; now rewrite length_create_header).
  assert (HA' : A = (pre ++ header) ++ snd f
                    ++ (replicate (Z.to_nat (padding_of (zlen (snd f)))) NUL ++ rest)).
  { rewrite HA. unfold file_record, padded. fold header. now rewrite <- !app_assoc. }
  assert (Hc : 0 <= zlen (snd f)) by (unfold zlen; lia).
  assert (Hpre : 0 <= zlen pre) by (unfold zlen; lia).
  assert (Hfit : zlen pre + 512 + zlen (snd f) <= zlen A).
  { rewrite HA', !zlen_app, Hh. unfold zlen. lia. }
  unfold read_data. cbn [entry_of metadata_ data_source_ test_metadata is_regular_file
                         type entry_type_eqb orb negb].
  rewrite base_reader_first_read.
  - cbn [clean stream_ position_ data_ current_entry_data_remaining_].
    assert (Hs : 0 <= SIZE_MAX) by (unfold SIZE_MAX; lia).
    assert (Hmin : Z.min SIZE_MAX (zlen (snd f)) = zlen (snd f)).
    { apply Z.min_r. unfold SIZE_MAX. unfold zlen in *. lia. }
    rewrite Hmin, Z.sub_diag.
    replace (ztake (zlen (snd f)) (zdrop (zlen pre + 512) A)) with (snd f).
    + reflexivity.
    + rewrite <- Hh, <- zlen_app. rewrite HA' at 1. symmetry. apply ztake_zdrop_middle.
  - unfold in_payload.
    cbn [clean stream_ position_ data_ current_entry_data_remaining_
         current_entry_data_consumed_].
    repeat split; try lia.
  - reflexivity.
  - unfold SIZE_MAX. lia.
Qed.

Lemma between_after_file A pre f rest :
  A = pre ++ file_record (fst f) (snd f) ++ rest ->
  zlen A < 2 ^ 64 ->
  between_records A (zlen (pre ++ file_record (fst f) (snd f)))
    (clean (mk_mms A (zlen pre + 512 + zlen (snd f))) (Some (entry_of f))
           0 (zlen (snd f)) false).
Proof.
  intros HA Hlen. split; [reflexivity|].
  set (header := create_header (test_fields (fst f) (octal11 (zlen (snd f))) "0" "")).
  assert (Hh : zlen header = 512) by (unfold zlen, header; now rewrite length_create_header).
  assert (Hc : 0 <= zlen (snd f)) by (unfold zlen; lia).
  assert (Hpre : 0 <= zlen pre) by (unfold zlen; lia).
  destruct (padding_of_aligns (zlen (snd f))) as [Hpad _].
  assert (Hrec : zlen (pre ++ file_record (fst f) (snd f))
                 = zlen pre + 512 + zlen (snd f) + padding_of (zlen (snd f))).
  { unfold file_record. fold header. rewrite !zlen_app, Hh, zlen_padded. lia. }
  assert (Hfit : zlen pre + 512 + zlen (snd f) + padding_of (zlen (snd f)) <= zlen A).
  { rewrite <- Hrec. rewrite HA. rewrite app_assoc, (zlen_app _ rest). unfold zlen. lia. }
  rewrite Hrec.
  unfold skip_current_entry_data, bind at 1, get at 1.
  cbn [clean current_entry_ current_entry_data_remaining_ entry_of entry_size
       metadata_ test_metadata size Z.gtb Z.compare].
  unfold bind at 1, ret at 1. unfold bind at 1.
  destruct (zlen (snd f) >? 0) eqn:Esz.
  - unfold skip_padding.
    destruct (padding_of (zlen (snd f)) >? 0) eqn:Ep.
    + unfold on_stream, skip. cbn [clean stream_ stream_skip memory_mapped_input_stream].
      rewrite mms_skip_within by lia. reflexivity.
    + assert (padding_of (zlen (snd f)) = 0) as -> by lia.
      rewrite Z.add_0_r. reflexivity.
  - assert (Hz : zlen (snd f) = 0) by lia. rewrite Hz.
    change (padding_of 0) with 0. rewrite !Z.add_0_r. reflexivity.
Qed.

Lemma next_entry_at_end (fuel : nat) A pre (r : mreader) :
  A = pre ++ zero_block ++ zero_block ->
  zlen A < 2 ^ 64 ->
  between_records A (zlen pre) r ->
  next_entry (Datatypes.S fuel) r
  = Some (Ok None, clean (mk_mms A (zlen pre + 1024)) None 0 0 true).
Proof.
  intros HA Hlen [Hfin Hskip].
  assert (Hpre : 0 <= zlen pre) by (unfold zlen; lia).
  assert (Hz : zlen zero_block = 512) by reflexivity.
  assert (Hfit : zlen pre + 1024 <= zlen A).
  { rewrite HA, !zlen_app, Hz. lia. }
  cbn [next_entry]. unfold bind at 1, get at 1. rewrite Hfin. unfold bind at 1.
  rewrite (read_header_unfold r _ Hskip).
  rewrite read_block_spec.
  cbn [clean set_counters set_current_entry stream_ current_entry_
       current_entry_data_remaining_ current_entry_data_consumed_ finished_
       pending_gnu_extensions_ pending_sparse_info_ pending_pax_headers_
       needs_sparse_1_0_processing_ stream_read memory_mapped_input_stream].
  change BLOCK_SIZE with 512.
  rewrite mms_read_within by lia.
  replace (ztake 512 (zdrop (zlen pre) A)) with zero_block
    by (rewrite <- Hz, HA; symmetry; apply ztake_zdrop_middle).
  rewrite Hz, Z.eqb_refl.
  change (is_zero_block zero_block) with true. cbv iota.
  rewrite read_block_spec.
  cbn [set_stream stream_ current_entry_
       current_entry_data_remaining_ current_entry_data_consumed_ finished_
       pending_gnu_extensions_ pending_sparse_info_ pending_pax_headers_
       needs_sparse_1_0_processing_ stream_read memory_mapped_input_stream].
  change BLOCK_SIZE with 512.
  rewrite mms_read_within by lia.
  replace (ztake 512 (zdrop (zlen pre + 512) A)) with zero_block.
  2: { rewrite HA.
       replace (pre ++ zero_block ++ zero_block)
         with ((pre ++ zero_block) ++ zero_block ++ [])
         by (now rewrite app_nil_r, <- app_assoc).
       replace (zlen pre + 512) with (zlen (pre ++ zero_block))
         by (rewrite zlen_app, Hz; lia).
       symmetry. exact (ztake_zdrop_middle (pre ++ zero_block) zero_block []). }
  rewrite Hz, Z.eqb_refl.
  change (is_zero_block zero_block) with true. cbv iota.
  replace (zlen pre + 512 + 512) with (zlen pre + 1024) by lia.
  reflexivity.
Qed.

Lemma archive_of_cons f rest :
  archive_of (f :: rest) = file_record (fst f) (snd f) ++ archive_of rest.
Proof. unfold archive_of. cbn [map concat]. now rewrite <- app_assoc. Qed.

Lemma walk_from_entry (this : positive) A rest :
  forall pre f fuel,
    A = pre ++ archive_of (f :: rest) ->
    zlen A < 2 ^ 64 ->
    Forall valid_file rest ->
    (length rest < fuel)%nat ->
    for_each_entry fuel (mk_iterator (Some this) (Some (entry_of f)) false)
      (clean (mk_mms A (zlen pre + 512)) (Some (entry_of f)) (zlen (snd f)) 0 false)
    = Some (Ok (listing (f :: rest), false), clean (mk_mms A (zlen A)) None 0 0 true).
Proof.
  induction rest as [|g rest IH]; intros pre f fuel HA Hlen Hvalid Hfuel.
  - destruct fuel as [|fuel]; [lia|].
    rewrite archive_of_cons in HA.
    cbn [for_each_entry current_]. 
    change (iterator_eq (mk_iterator (Some this) (Some (entry_of f)) false) end_iterator)
      with false. cbv iota.
    unfold bind at 1, try.
    rewrite (read_file_data _ A pre f (archive_of []) HA Hlen).
    unfold bind at 1, run_iterator, iterator_increment. cbn [reader_ error_occurred_].
    rewrite (next_entry_at_end fuel A (pre ++ file_record (fst f) (snd f))).
    + replace (zlen (pre ++ file_record f.1 f.2) + 1024) with (zlen A)
        by (rewrite HA, app_assoc, (zlen_app _ (archive_of [])); reflexivity).
      destruct fuel; reflexivity.
    + rewrite HA. unfold archive_of. cbn [map concat app]. now rewrite <- app_assoc.
    + exact Hlen.
    + apply (between_after_file A pre f (archive_of []) HA Hlen).
  - destruct fuel as [|fuel]; [simpl in Hfuel; lia|].
    apply Forall_cons in Hvalid as [Hg Hrest].
    rewrite archive_of_cons in HA.
    cbn [for_each_entry current_].
    change (iterator_eq (mk_iterator (Some this) (Some (entry_of f)) false) end_iterator)
      with false. cbv iota.
    unfold bind at 1, try.
    rewrite (read_file_data _ A pre f (archive_of (g :: rest)) HA Hlen).
    unfold bind at 1, run_iterator, iterator_increment. cbn [reader_ error_occurred_].
    assert (HA2 : pre ++ file_record f.1 f.2 ++ archive_of (g :: rest)
                  = (pre ++ file_record f.1 f.2) ++ archive_of (g :: rest))
      by (now rewrite <- app_assoc).
    rewrite (next_entry_at_file fuel A (pre ++ file_record (fst f) (snd f)) g
               (archive_of rest)).
    + unfold bind at 1.
      rewrite (IH (pre ++ file_record (fst f) (snd f)) g fuel);
        [reflexivity | | exact Hlen | exact Hrest | simpl in Hfuel; lia].
      rewrite HA at 1. exact HA2.
    + rewrite HA at 1. rewrite HA2. now rewrite archive_of_cons.
    + exact Hlen.
    + exact Hg.
    + apply (between_after_file A pre f (archive_of (g :: rest)) HA Hlen).
Qed.

(** X25.  An archive of plain files is read back.  For files with names
    of 1 to 100 bytes and sizes that fit the size field, written one
    after the other as a header, the content and the padding, and ended
    by two zero records, the range-for loop over the reader with a body
    that reads the whole data lists exactly those files, each with its
    name and its content, in order; the iterator ends without an error
    and the reader is finished, at the end of the data. *)
Theorem archive_of_files_is_read_back (this : positive)
    (files : list (string * list ascii)) (fuel : nat) :
  Forall valid_file files ->
  zlen (archive_of files) < 2 ^ 64 ->
  (length files < fuel)%nat ->
  let A := archive_of files in
  walk_archive fuel this (new_reader (open_memory A))
  = Some (Ok (listing files, false), clean (mk_mms A (zlen A)) None 0 0 true).
Proof.
  intros Hvalid Hlen Hfuel A.
  assert (Hstart : between_records A (zlen (@nil ascii)) (new_reader (open_memory A))).
  { split; reflexivity. }
  destruct fuel as [|fuel]; [lia|].
  unfold walk_archive, bind at 1, run_iterator, begin, iterator_increment.
  cbn [reader_ error_occurred_].
  destruct files as [|f rest].
  - rewrite (next_entry_at_end fuel A [] (new_reader (open_memory A)));
      [| reflexivity | exact Hlen | exact Hstart].
    reflexivity.
  - apply Forall_cons in Hvalid as [Hf Hrest].
    rewrite (next_entry_at_file fuel A [] f (archive_of rest) (new_reader (open_memory A)));
      [| unfold A; now rewrite archive_of_cons | exact Hlen | exact Hf | exact Hstart].
    apply (walk_from_entry this A rest [] f (Datatypes.S fuel));
      [reflexivity | exact Hlen | exact Hrest | simpl in Hfuel; lia].
Qed.

End PlainArchives.

Lemma archive_of_files_is_read_back_witness :
  let files := [("a.txt"%string, bytes "hello"); ("empty"%string, [])] in
  let A := archive_of files in
  walk_archive 3 1%positive (new_reader (open_memory A))
  = Some (Ok (listing files, false), clean (mk_mms A (zlen A)) None 0 0 true).
Proof.
  intros files.
  apply (archive_of_files_is_read_back 1%positive files 3).
  - repeat constructor; simpl; try discriminate; try lia; vm_compute; reflexivity.
  - vm_compute. reflexivity.
  - simpl. lia.
Defined.

(** ** Long names on a memory stream *)

Section LongNames.
Import Fixtures.

Lemma pop_trailing_nuls_c_string (s : string) (k : nat) :
  c_string s -> pop_trailing_nuls (str (bytes s ++ replicate k NUL)) = s.
Proof.
  unfold c_string. induction s as [|c rest IH]; intros Hc.
  - cbn [bytes list_ascii_of_string app]. induction k as [|k IHk]; [reflexivity|].
    cbn [replicate str string_of_list_ascii pop_trailing_nuls].
    unfold str in IHk. rewrite IHk. reflexivity.
  - cbn [bytes list_ascii_of_string forallb] in Hc.
    apply andb_true_iff in Hc as [Hc Hrest].
    cbn [bytes list_ascii_of_string app str string_of_list_ascii pop_trailing_nuls].
    unfold str, bytes in IH. rewrite (IH Hrest).
    destruct rest; [|reflexivity].
    destruct (Ascii.eqb c NUL); [discriminate | reflexivity].
Qed.

(** A header record at the place where the reader expects one. *)
Lemma read_header_at_record A pre header rest (r r0 : mreader) m :
  A = pre ++ header ++ rest -> zlen header = 512 -> zlen A < 2 ^ 64 ->
  is_zero_block header = false -> parse_header header = Ok m ->
  skip_current_entry_data r = Some (Ok tt, r0) ->
  stream_ r0 = mk_mms A (zlen pre) ->
  read_header r
  = Some (Ok (Some m),
          set_stream (mk_mms A (zlen pre + 512))
                     (set_counters 0 0 (set_current_entry None r0))).
Proof.
  intros HA Hh Hlen Hnz Hparse Hskip Hstream.
  assert (Hpre : 0 <= zlen pre) by (unfold zlen; lia).
  assert (Hfit : zlen pre + 512 <= zlen A).
  { rewrite HA, !zlen_app, Hh. unfold zlen. lia. }
  rewrite (read_header_unfold r _ Hskip).
  rewrite read_block_spec.
  destruct r0 as [s0 cur rem cons fin gnu sp pax needs].
  cbn [stream_] in Hstream. subst s0.
  cbn [set_counters set_current_entry stream_ current_entry_
       current_entry_data_remaining_ current_entry_data_consumed_ finished_
       pending_gnu_extensions_ pending_sparse_info_ pending_pax_headers_
       needs_sparse_1_0_processing_ stream_read memory_mapped_input_stream].
  change BLOCK_SIZE with 512.
  rewrite mms_read_within by lia.
  replace (ztake 512 (zdrop (zlen pre) A)) with header
    by (rewrite <- Hh, HA; symmetry; apply ztake_zdrop_middle).
  rewrite Hh, Z.eqb_refl, Hnz, Hparse.
  reflexivity.
Qed.

(** The whole payload of a plain entry, read in one call. *)
Lemma read_entry_payload (fuel : nat) A pre content rest (e : archive_entry) :
  A = pre ++ content ++ rest -> zlen A < 2 ^ 64 ->
  is_regular_file (metadata_ e) = true -> data_source_ e = base_reader_fn ->
  read_data fuel e 0 SIZE_MAX
    (clean (mk_mms A (zlen pre)) (Some e) (zlen content) 0 false)
  = Some (Ok content,
          clean (mk_mms A (zlen pre + zlen content)) (Some e) 0 (zlen content) false).
Proof.
  intros HA Hlen Hreg Hsrc.
  assert (Hc : 0 <= zlen content) by (unfold zlen; lia).
  assert (Hpre : 0 <= zlen pre) by (unfold zlen; lia).
  assert (Hfit : zlen pre + zlen content <= zlen A).
  { rewrite HA, !zlen_app. unfold zlen. lia. }
  unfold read_data. rewrite Hreg, Hsrc. cbn [negb].
  rewrite base_reader_first_read.
  - cbn [clean stream_ position_ data_ current_entry_data_remaining_].
    assert (Hmin : Z.min SIZE_MAX (zlen content) = zlen content).
    { apply Z.min_r. unfold SIZE_MAX. lia. }
    rewrite Hmin, Z.sub_diag.
    replace (ztake (zlen content) (zdrop (zlen pre) A)) with content
      by (rewrite HA; symmetry; apply ztake_zdrop_middle).
    reflexivity.
  - unfold in_payload.
    cbn [clean stream_ position_ data_ current_entry_data_remaining_
         current_entry_data_consumed_].
    repeat split; lia.
  - reflexivity.
  - unfold SIZE_MAX. lia.
Qed.

Lemma zlen_nonneg {A} (l : list A) : 0 <= zlen l.
Proof. unfold zlen. lia. Qed.

Lemma zlen_create_header f : zlen (create_header f) = 512.
Proof. unfold zlen. now rewrite length_create_header. Qed.

Lemma zlen_gnu_record flag text :
  zlen (gnu_record flag text)
  = 512 + (zlen (bytes text) + 1) + padding_of (zlen (bytes text) + 1).
Proof.
  unfold gnu_record. rewrite zlen_app, zlen_create_header, zlen_padded, zlen_app.
  change (zlen [NUL]) with 1. lia.
Qed.

(** What [process_gnu_extension] does with an [L] record on a memory
    stream that holds the text, its NUL and the padding. *)
Lemma process_longname_record (fuel : nat) A pre text rest (ml : file_metadata) :
  A = pre ++ padded (bytes text ++ [NUL]) ++ rest -> zlen A < 2 ^ 64 ->
  c_string text ->
  type ml = gnu_longname -> size ml = zlen (bytes text) + 1 ->
  zlen (bytes text) + 1 <= 512 * Z.of_nat fuel ->
  process_gnu_extension fuel ml (clean (mk_mms A (zlen pre)) None 0 0 false)
  = Some (Ok true,
          mk_archive_reader
            (mk_mms A (zlen pre + (zlen (bytes text) + 1)
                       + padding_of (zlen (bytes text) + 1)))
            None 0 0 false (mk_gnu_extension_data text "") None ∅ false).
Proof.
  intros HA Hlen Hc Hty Hsz Hfuel.
  set (n := zlen (bytes text) + 1) in *.
  assert (Hn : 0 < n) by (unfold n; pose proof (zlen_nonneg (bytes text)); lia).
  assert (Hpre : 0 <= zlen pre) by apply zlen_nonneg.
  destruct (padding_of_aligns n) as [Hpad _].
  assert (Hpay : zlen (bytes text ++ [NUL]) = n) by (rewrite zlen_app; reflexivity).
  assert (Hfit : zlen pre + n + padding_of n <= zlen A).
  { rewrite HA, !zlen_app, zlen_padded, Hpay. pose proof (zlen_nonneg rest). lia. }
  unfold process_gnu_extension, is_gnu_longname. rewrite Hty. cbn [entry_type_eqb].
  unfold bind at 1, on_stream at 1. cbn [clean stream_]. rewrite Hsz.
  unfold read_gnu_extension_data.
  destruct (n =? 0) eqn:E0; [lia|].
  unfold bind at 1.
  rewrite mms_read_gnu_loop by lia.
  cbn [app].
  replace (ztake n (zdrop (zlen pre) A)) with (bytes text ++ [NUL]).
  2: { rewrite <- Hpay, HA. unfold padded. rewrite <- app_assoc.
       symmetry. apply ztake_zdrop_middle. }
  change [NUL] with (replicate 1 NUL).
  rewrite (pop_trailing_nuls_c_string text 1 Hc).
  destruct (padding_of n >? 0) eqn:Ep.
  - unfold bind at 1, skip. cbn [stream_skip memory_mapped_input_stream].
    rewrite mms_skip_within by lia. reflexivity.
  - assert (padding_of n = 0) as -> by lia. rewrite Z.add_0_r. reflexivity.
Qed.

(** X26.  A file stored under a GNU long name is read back under that
    name.  Where the reader expects a record, an [L] record (a header
    named [././@LongLink] whose size counts the name and its NUL, the
    name, the NUL and the padding) followed by the record of a plain file
    makes [next_entry] yield one entry: its path is the long name, of any
    length that fits the size field, its other metadata are those of the
    header of the file, and the stream stands at the content, which
    [read_data()] then returns. *)
Theorem gnu_long_name_is_read_back (fuel : nat) (A pre rest : list ascii)
    (name : string) (f : string * list ascii) (r : mreader) :
  A = pre ++ gnu_record "L" name ++ file_record (fst f) (snd f) ++ rest ->
  zlen A < 2 ^ 64 ->
  name <> ""%string -> c_string name -> zlen (bytes name) + 1 < 8 ^ 11 ->
  valid_file f ->
  between_records A (zlen pre) r ->
  zlen (bytes name) + 1 <= 512 * Z.of_nat fuel ->
  let e := entry_of (name, snd f) in
  let q := zlen pre + zlen (gnu_record "L" name) + 512 in
  next_entry (Datatypes.S fuel) r
  = Some (Ok (Some e), clean (mk_mms A q) (Some e) (zlen (snd f)) 0 false)
  /\ read_data fuel e 0 SIZE_MAX (clean (mk_mms A q) (Some e) (zlen (snd f)) 0 false)
     = Some (Ok (snd f),
             clean (mk_mms A (q + zlen (snd f))) (Some e) 0 (zlen (snd f)) false).
Proof.
  intros HA Hlen Hne Hc Hsz Hvalid [Hfin Hskip] Hfuel e q.
  set (n := zlen (bytes name) + 1) in *.
  assert (Hn : 0 < n) by (unfold n; pose proof (zlen_nonneg (bytes name)); lia).
  set (lheader := create_header (test_fields "././@LongLink" (octal11 n) "L" "")).
  set (fheader := create_header (test_fields (fst f) (octal11 (zlen (snd f))) "0" "")).
  set (ml := test_metadata "././@LongLink" gnu_longname n None).
  assert (Hq : q = zlen (pre ++ gnu_record "L" name) + 512)
    by (unfold q; rewrite zlen_app; reflexivity).
  (* the header of the extension record *)
  assert (Hl : read_header r
               = Some (Ok (Some ml), clean (mk_mms A (zlen pre + 512)) None 0 0 false)).
  { rewrite (read_header_at_record A pre lheader
               (padded (bytes name ++ [NUL]) ++ file_record (fst f) (snd f) ++ rest)
               r (clean (mk_mms A (zlen pre)) (current_entry_ r) 0 0 false) ml);
      [reflexivity | | | exact Hlen | | | exact Hskip | reflexivity].
    - rewrite HA. unfold gnu_record. fold n lheader. now rewrite <- app_assoc.
    - apply zlen_create_header.
    - apply test_header_not_zero. reflexivity.
    - apply (parse_test_header "././@LongLink" "" n "L" gnu_longname);
        [discriminate | reflexivity | simpl; lia | reflexivity | simpl; lia
        | lia | reflexivity]. }
  split.
  - rewrite (next_entry_step fuel r ml _ Hfin Hl).
    change (is_gnu_extension ml) with true. cbv iota.
    assert (Hlh : zlen (pre ++ lheader) = zlen pre + 512)
      by (rewrite zlen_app; unfold lheader; now rewrite zlen_create_header).
    rewrite <- Hlh.
    rewrite (process_longname_record fuel A (pre ++ lheader) name
               (file_record (fst f) (snd f) ++ rest) ml);
      [| | exact Hlen | exact Hc | reflexivity | reflexivity | exact Hfuel].
    2: { rewrite HA. unfold gnu_record. fold n lheader. now rewrite <- !app_assoc. }
    destruct fuel as [|fuel]; [lia|].
    fold n.
    set (r2 := mk_archive_reader _ None 0 0 false (mk_gnu_extension_data name "") None ∅ false).
    assert (Hpos : zlen (pre ++ lheader) + n + padding_of n
                   = zlen (pre ++ gnu_record "L" name)).
    { rewrite !zlen_app, zlen_gnu_record. unfold lheader.
      rewrite zlen_create_header. fold n. lia. }
    assert (Hf : read_header r2
                 = Some (Ok (Some (test_metadata (fst f) regular_file (zlen (snd f)) None)),
                         set_stream (mk_mms A q) r2)).
    { rewrite (read_header_at_record A (pre ++ gnu_record "L" name) fheader
                 (padded (snd f) ++ rest) r2 r2
                 (test_metadata (fst f) regular_file (zlen (snd f)) None)).
      - rewrite Hq. reflexivity.
      - rewrite HA. unfold file_record. fold fheader. now rewrite <- !app_assoc.
      - apply zlen_create_header.
      - exact Hlen.
      - apply test_header_not_zero. reflexivity.
      - apply parse_file_header. exact Hvalid.
      - reflexivity.
      - unfold r2. cbn [stream_]. now rewrite Hpos. }
    rewrite (next_entry_step fuel r2 _ _ eq_refl Hf).
    destruct name as [|c name']; [contradiction|].
    reflexivity.
  - assert (Hq2 : q = zlen (pre ++ gnu_record "L" name ++ fheader)).
    { unfold q. rewrite !zlen_app. unfold fheader. rewrite zlen_create_header. lia. }
    rewrite Hq2.
    apply (read_entry_payload fuel A (pre ++ gnu_record "L" name ++ fheader) (snd f)
             (replicate (Z.to_nat (padding_of (zlen (snd f)))) NUL ++ rest) e);
      [| exact Hlen | reflexivity | reflexivity].
    rewrite HA. unfold file_record, padded. fold fheader. now rewrite <- !app_assoc.
Qed.

Lemma gnu_long_name_is_read_back_witness :
  let name := "a/very/long/path/that/does/not/fit/the/hundred/bytes/of/the/name/field/of/a/header/record/of/an/archive.txt"%string in
  let A := gnu_record "L" name ++ file_record "short.txt" (bytes "hello")
           ++ zero_block ++ zero_block in
  let e := entry_of (name, bytes "hello") in
  next_entry 2 (new_reader (open_memory A))
  = Some (Ok (Some e), clean (mk_mms A 1536) (Some e) 5 0 false)
  /\ read_data 1 e 0 SIZE_MAX (clean (mk_mms A 1536) (Some e) 5 0 false)
     = Some (Ok (bytes "hello"), clean (mk_mms A 1541) (Some e) 0 5 false).
Proof.
  intros name A e.
  apply (gnu_long_name_is_read_back 1 A [] (zero_block ++ zero_block) name
           ("short.txt"%string, bytes "hello") (new_reader (open_memory A))).
  - reflexivity.
  - vm_compute. reflexivity.
  - discriminate.
  - reflexivity.
  - vm_compute. reflexivity.
  - repeat split; try discriminate; try reflexivity. simpl. lia.
  - split; reflexivity.
  - vm_compute. discriminate.
Defined.

End LongNames.

(** ** Extraction *)

Section ExtractionFacts.
Context {S : Type} `{!InputStream S} {F : Type} `{!FileSystem F}.

(** For a regular file only the file branch of the [switch] matters. *)
Lemma extract_regular_file (fuel : nat) (e : archive_entry) (dest_path : string) :
  is_regular_file (metadata_ e) = true ->
  extract_to_path fuel e dest_path
  = bind (on_fs (fs_create_directories (fs_parent_path dest_path))) (fun ec =>
    match ec with
    | Some msg => fail (mk_error io_error ("Failed to create directories: " ++ msg))
    | None =>
        bind
          (bind (on_fs (fs_open_output dest_path)) (fun good =>
           if negb good then
             fail (mk_error io_error ("Failed to create output file: " ++ dest_path))
           else
             bind (on_reader (read_data fuel e 0 SIZE_MAX)) (fun data =>
             bind (on_fs (fs_write dest_path data)) (fun good =>
             if negb good then fail (mk_error io_error "Failed to write file data")
             else ret tt))))
          (fun _ => on_fs (fun f =>
             (tt, fs_permissions dest_path (permissions (metadata_ e)) f)))
    end).
Proof.
  intros Hreg. unfold extract_to_path, is_regular_file in *.
  destruct (type (metadata_ e)); try discriminate Hreg; reflexivity.
Qed.

(** X27.  An entry of type contiguous file (type flag [7]) is never
    extracted.  [extract_to_path] takes the branch of the regular files,
    creates the parent directories and opens the output file, and then
    [read_data()] refuses the entry because it is not a regular file: the
    call fails with "Entry is not a regular file", the reader is
    untouched, and the file system is left as the opening of the output
    file left it: nothing is written and no permission is set.  (When
    the directories or the file cannot be created, the call fails with
    that I/O error.) *)
Theorem contiguous_file_is_never_extracted (fuel : nat) (e : archive_entry)
    (dest_path : string) (r : archive_reader S) (f : F) :
  type (metadata_ e) = contiguous_file ->
  let dirs := fs_create_directories (fs_parent_path dest_path) f in
  let opened := fs_open_output dest_path (snd dirs) in
  extract_to_path fuel e dest_path (r, f)
  = match fst dirs with
    | Some msg =>
        Some (Unexpected (mk_error io_error ("Failed to create directories: " ++ msg)),
              (r, snd dirs))
    | None =>
        Some (Unexpected
                (if fst opened
                 then mk_error invalid_operation "Entry is not a regular file"
                 else mk_error io_error ("Failed to create output file: " ++ dest_path)),
              (r, snd opened))
    end.
Proof.
  intros Hty dirs opened.
  unfold extract_to_path, bind at 1, on_fs at 1. cbn [fst snd]. fold dirs.
  destruct (fst dirs) as [msg|]; [reflexivity|].
  rewrite Hty. unfold bind at 1. unfold bind at 1, on_fs at 1. cbn [fst snd]. fold opened.
  destruct (fst opened); cbn [negb]; [|reflexivity].
  unfold bind at 1, on_reader, read_data, is_regular_file. rewrite Hty. reflexivity.
Qed.

End ExtractionFacts.

Lemma contiguous_file_is_never_extracted_witness :
  let e := mk_archive_entry (test_metadata "data.bin" contiguous_file 5 None)
                            base_reader_fn in
  let r := clean (mk_mms (bytes "hello") 0) (Some e) 5 0 false in
  extract_to_path 1 e "out/data.bin" (r, [])
  = Some (Unexpected (mk_error invalid_operation "Entry is not a regular file"),
          (r, [call_create_directories "out"; call_open_output "out/data.bin"])).
Proof.
  intros e r.
  exact (contiguous_file_is_never_extracted 1 e "out/data.bin" r [] eq_refl).
Defined.

Section ExtractionOfStreams.
Context {F : Type} `{!FileSystem F}.

(** X28.  An entry is extracted once.  For a regular file in streaming
    mode whose payload is in the data, when the file system accepts the
    calls, [extract_to_path] creates the parent directories, opens the
    output file, writes the whole payload in one call, sets the
    permissions and returns.  A second extraction of the same entry, to
    any path, fails with "Cannot seek backwards in streaming mode" after
    it has created the directories and opened its output file: nothing is
    written to that file. *)
Theorem extraction_reads_the_payload_once (fuel : nat) (r : mreader)
    (e : archive_entry) (dest_path again : string) (f f1 f2 f3 f5 f6 : F) :
  let pos := position_ (stream_ r) in
  let remaining := current_entry_data_remaining_ r in
  let data := data_ (stream_ r) in
  let payload := ztake remaining (zdrop pos data) in
  let f4 := fs_permissions dest_path (permissions (metadata_ e)) f3 in
  in_payload data (pos + remaining) r ->
  current_entry_data_consumed_ r = 0 -> 0 < remaining ->
  is_regular_file (metadata_ e) = true -> data_source_ e = base_reader_fn ->
  fs_create_directories (fs_parent_path dest_path) f = (None, f1) ->
  fs_open_output dest_path f1 = (true, f2) ->
  fs_write dest_path payload f2 = (true, f3) ->
  fs_create_directories (fs_parent_path again) f4 = (None, f5) ->
  fs_open_output again f5 = (true, f6) ->
  exists r1,
    extract_to_path fuel e dest_path (r, f) = Some (Ok tt, (r1, f4))
    /\ extract_to_path fuel e again (r1, f4)
       = Some (Unexpected (mk_error invalid_operation
                             "Cannot seek backwards in streaming mode"),
               (r1, f6)).
Proof.
  intros pos remaining data payload f4 Hin Hcons Hrem Hreg Hsrc Hd Ho Hw Hd2 Ho2.
  pose proof (base_reader_first_read r SIZE_MAX Hin Hcons ltac:(unfold SIZE_MAX; lia))
    as Hread.
  cbv zeta in Hread. fold pos remaining data in Hread.
  assert (Hmin : Z.min SIZE_MAX remaining = remaining).
  { destruct Hin as (_ & _ & _ & Hp & _ & Hle & Hlt). fold pos remaining in Hp, Hle.
    apply Z.min_r. unfold SIZE_MAX. fold data in Hle, Hlt. lia. }
  rewrite Hmin in Hread. fold payload in Hread.
  set (r1 := set_counters (remaining - remaining) remaining
               (set_stream (mk_mms data (pos + remaining)) r)) in Hread.
  exists r1. split.
  - rewrite (extract_regular_file fuel e dest_path Hreg).
    unfold bind at 1, on_fs at 1. cbn [fst snd]. rewrite Hd. cbn [fst snd].
    unfold bind at 1. unfold bind at 1, on_fs at 1. cbn [fst snd].
    rewrite Ho. cbn [fst snd negb].
    unfold bind at 1, on_reader at 1. cbn [fst snd].
    unfold read_data. rewrite Hreg, Hsrc. cbn [negb]. rewrite Hread.
    unfold bind at 1, on_fs at 1. cbn [fst snd]. rewrite Hw. cbn [fst snd negb].
    reflexivity.
  - rewrite (extract_regular_file fuel e again Hreg).
    unfold bind at 1, on_fs at 1. cbn [fst snd]. rewrite Hd2. cbn [fst snd].
    unfold bind at 1. unfold bind at 1, on_fs at 1. cbn [fst snd].
    rewrite Ho2. cbn [fst snd negb].
    unfold bind at 1, on_reader at 1. cbn [fst snd].
    unfold read_data. rewrite Hreg, Hsrc. cbn [negb].
    unfold base_reader. cbn [Z.gtb Z.compare]. unfold bind at 1, get at 1.
    assert (Hc1 : current_entry_data_consumed_ r1 = remaining) by reflexivity.
    rewrite Hc1. destruct (0 <? remaining) eqn:E; [reflexivity | lia].
Qed.

End ExtractionOfStreams.

Lemma extraction_reads_the_payload_once_witness :
  let e := entry_of ("a.txt"%string, bytes "hello") in
  let r := clean (mk_mms (bytes "hello") 0) (Some e) 5 0 false in
  let log := [call_create_directories "out"; call_open_output "out/a.txt";
              call_write "out/a.txt" (bytes "hello");
              call_permissions "out/a.txt" 420] in
  exists r1,
    extract_to_path 1 e "out/a.txt" (r, []) = Some (Ok tt, (r1, log))
    /\ extract_to_path 1 e "out/a.txt" (r1, log)
       = Some (Unexpected (mk_error invalid_operation
                             "Cannot seek backwards in streaming mode"),
               (r1, log ++ [call_create_directories "out";
                            call_open_output "out/a.txt"])).
Proof.
  intros e r log.
  refine (extraction_reads_the_payload_once 1 r e "out/a.txt" "out/a.txt"
            [] _ _ _ _ _ _ _ _ _ _ eq_refl eq_refl eq_refl eq_refl eq_refl).
  - vm_compute. repeat split; discriminate.
  - reflexivity.
  - vm_compute. reflexivity.
  - reflexivity.
  - reflexivity.
Defined.

(** ** The prefix field and the sparse overlay *)

Lemma field_of_field (a l o L : nat) (block : list ascii) :
  (a + l <= L)%nat -> field a l (field o L block) = field (o + a) l block.
Proof.
  intros H. unfold field.
  rewrite skipn_firstn_comm, take_take, drop_drop.
  f_equal. lia.
Qed.

(** Every magic that [parse_header] accepts passes [is_gnu_tar_magic]. *)
Lemma accepted_magic_is_gnu (block : list ascii) (m : file_metadata) :
  parse_header block = Ok m ->
  is_gnu_tar_magic (extract_string (hdr_magic block)) = true.
Proof.
  unfold parse_header, is_gnu_tar_magic.
  destruct (String.eqb (extract_string (hdr_magic block)) "ustar");
    [intros _; apply orb_true_r|].
  destruct (String.eqb (extract_string (hdr_magic block)) "ustar ");
    [reflexivity | discriminate].
Qed.

(** The sparse descriptor of an accepted header with type flag [0]. *)
Lemma parse_header_regular_sparse (block : list ascii) (m : file_metadata) :
  parse_header block = Ok m -> hdr_typeflag block = "0"%char ->
  sparse_info m
  = match old_sparse_segments block with
    | [] => None
    | _ :: _ =>
        match parse_old_sparse_header block with
        | Ok sr => Some sr
        | Unexpected _ => None
        end
    end.
Proof.
  intros Hok Hflag. pose proof (accepted_magic_is_gnu block m Hok) as Hgnu.
  revert Hok. unfold parse_header. rewrite Hgnu, Hflag.
  destruct (negb (String.eqb (extract_string (hdr_magic block)) "ustar") && _);
    [discriminate|].
  destruct (negb (String.eqb _ "00") && negb (String.eqb _ " ")); [discriminate|].
  destruct (parse_octal (hdr_checksum block)) as [stored|e]; [|discriminate].
  destruct (negb (calculate_checksum block =? stored)); [discriminate|].
  destruct (parse_octal (hdr_mode block)) as [mode|]; [|discriminate].
  destruct (parse_octal (hdr_uid block)) as [uid|]; [|discriminate].
  destruct (parse_octal (hdr_gid block)) as [gid|]; [|discriminate].
  destruct (parse_octal (hdr_size block)) as [sz|]; [|discriminate].
  destruct (parse_octal (hdr_mtime block)) as [mtime|]; [|discriminate].
  cbv zeta.
  match goal with |- context [String.eqb ?p ""] =>
    destruct (String.eqb p "") end; [discriminate|].
  change (Ascii.eqb "0" (to_underlying regular_file)) with true. cbn [andb orb].
  unfold parse_old_sparse_header. cbn [segments].
  destruct (old_sparse_segments block) as [|seg segs]; intros [= <-]; reflexivity.
Qed.

(** X29.  Which headers with type flag [0] are taken for sparse files.
    Every magic that [parse_header] accepts passes [is_gnu_tar_magic],
    the POSIX one included, and the first slot of the sparse overlay lies
    inside the prefix field: its offset is bytes 39 to 50 of the prefix
    and its size bytes 51 to 62.  So an accepted header with type flag [0]
    carries a sparse descriptor exactly when both windows of its prefix
    hold an octal digit and the number of the second is not zero; the
    first segment of the descriptor is made of the two numbers. *)
Theorem prefix_is_read_as_sparse_map (block : list ascii) (m : file_metadata) :
  parse_header block = Ok m -> hdr_typeflag block = "0"%char ->
  match parse_sparse_octal (field 39 12 (hdr_prefix block)),
        parse_sparse_octal (field 51 12 (hdr_prefix block)) with
  | Some offset, Some sz =>
      if sz =? 0 then sparse_info m = None
      else type m = regular_file
           /\ exists sp, sparse_info m = Some sp
                /\ head (segments sp) = Some (mk_sparse_entry offset sz)
  | _, _ => sparse_info m = None
  end.
Proof.
  intros Hok Hflag.
  pose proof (parse_header_regular_sparse block m Hok Hflag) as Hsp.
  pose proof (parse_header_sparse_cases block m Hok) as Hcases.
  unfold hdr_prefix. rewrite !field_of_field by lia.
  change (field (345 + 39) 12 block) with (sp_offset 0 block).
  change (field (345 + 51) 12 block) with (sp_numbytes 0 block).
  unfold parse_old_sparse_header, old_sparse_segments in Hsp.
  cbn [seq sparse_slots] in Hsp.
  destruct (parse_sparse_octal (sp_offset 0 block)) as [offset|]; [|exact Hsp].
  destruct (parse_sparse_octal (sp_numbytes 0 block)) as [sz|]; [|exact Hsp].
  destruct (sz =? 0); [exact Hsp|].
  rewrite Hsp in Hcases. destruct Hcases as (Hty & _).
  split; [exact Hty|].
  eexists. split; [exact Hsp|]. reflexivity.
Qed.

Lemma prefix_is_read_as_sparse_map_witness :
  let block :=
    Fixtures.create_header
      (Fixtures.mk_fields "report.txt" "0000644" "0001000" "0001000" "00000000012"
         "14371573624" "0" "" "ustar" "00" "testuser" "testgroup"
         "srv/backups/customer-data/eu-west/tenant-4217/2024-06-30/daily/incremental") in
  exists m,
    parse_header block = Ok m
    /\ type m = regular_file
    /\ exists sp, sparse_info m = Some sp
         /\ head (segments sp) = Some (mk_sparse_entry 2191 6).
Proof.
  intros block.
  pose (m := value_or (parse_header block) Examples.empty_metadata).
  assert (H : parse_header block = Ok m) by (vm_compute; reflexivity).
  exists m. split; [exact H|].
  pose proof (prefix_is_read_as_sparse_map block m H eq_refl) as T.
  vm_compute in T. vm_compute. exact T.
Defined.

(** ** Sparse files with one segment *)

(** One round of the loop of the sparse reader inside a hole. *)
Lemma sparse_read_loop_hole {S : Type} `{!InputStream S} (fuel : nat)
    (sp : sparse_metadata) (current remaining : Z) (acc : list ascii)
    (r : archive_reader S) :
  0 < remaining -> find_segment sp current = None ->
  let next_start := next_segment_start (segments sp) current (real_size sp) in
  let to_fill := Z.min remaining (wrap64 (next_start - current)) in
  0 <= to_fill -> zlen acc + to_fill <= VECTOR_MAX_SIZE ->
  sparse_read_loop (Datatypes.S fuel) sp current remaining acc r
  = sparse_read_loop fuel sp (wrap64 (current + to_fill)) (wrap64 (remaining - to_fill))
      (acc ++ replicate (Z.to_nat to_fill) NUL) r.
Proof.
  intros Hrem Hfind next_start to_fill Hfill Hmax. cbn [sparse_read_loop].
  destruct (remaining >? 0) eqn:E; [|lia]. rewrite Hfind. cbv zeta.
  fold next_start. fold to_fill.
  pose proof (zlen_nonneg acc) as Hacc.
  destruct (to_fill >? VECTOR_MAX_SIZE) eqn:E1; [lia|].
  destruct (zlen acc + to_fill >? VECTOR_MAX_SIZE) eqn:E2; [lia|].
  reflexivity.
Qed.

Lemma sparse_read_loop_done {S : Type} `{!InputStream S} (fuel : nat)
    (sp : sparse_metadata) (current : Z) (acc : list ascii) (r : archive_reader S) :
  sparse_read_loop fuel sp current 0 acc r = Some (Ok acc, r).
Proof. destruct fuel; reflexivity. Qed.

Lemma zlen_replicate {A} (n : Z) (x : A) : 0 <= n -> zlen (replicate (Z.to_nat n) x) = n.
Proof. intros Hn. unfold zlen. rewrite length_replicate. lia. Qed.

(** X30.  A sparse file with one data segment, and a real size that a
    vector can hold, is read back whole.  On a memory stream that holds
    the stored bytes, with nothing of the entry consumed yet,
    [read_data()] returns the zeros of the hole before the segment, the
    stored bytes, and the zeros up to the real size; the stream then
    stands after the stored bytes. *)
Theorem one_segment_sparse_file_is_read_back (fuel : nat) (r : mreader)
    (e : archive_entry) (sp : sparse_metadata) (seg : sparse_entry) :
  let pos := position_ (stream_ r) in
  let data := data_ (stream_ r) in
  let stored := ztake (seg_size seg) (zdrop pos data) in
  is_regular_file (metadata_ e) = true -> data_source_ e = sparse_reader_fn sp ->
  segments sp = [seg] ->
  0 <= seg_offset seg -> 0 < seg_size seg ->
  seg_offset seg + seg_size seg <= real_size sp <= VECTOR_MAX_SIZE ->
  in_payload data (pos + current_entry_data_remaining_ r) r ->
  current_entry_data_remaining_ r = seg_size seg ->
  current_entry_data_consumed_ r = 0 ->
  read_data (3 + fuel) e 0 SIZE_MAX r
  = Some (Ok (replicate (Z.to_nat (seg_offset seg)) NUL ++ stored
              ++ replicate (Z.to_nat (real_size sp - seg_offset seg - seg_size seg)) NUL),
          set_counters 0 (seg_size seg)
            (set_stream (mk_mms data (pos + seg_size seg)) r)).
Proof.
  intros pos data stored Hreg Hsrc Hsegs Ho Hs HR Hin Hrem Hcons.
  set (o := seg_offset seg) in *. set (s := seg_size seg) in *.
  set (R := real_size sp) in *.
  assert (Hmax : VECTOR_MAX_SIZE < 2 ^ 64) by (unfold VECTOR_MAX_SIZE; lia).
  unfold read_data. rewrite Hreg, Hsrc. cbn [negb].
  unfold sparse_reader. fold R.
  destruct (0 >=? R) eqn:E0; [apply Z.geb_le in E0; lia|].
  rewrite Z.sub_0_r, (wrap64_small R) by lia. cbv zeta.
  rewrite (Z.min_r SIZE_MAX R) by (unfold SIZE_MAX; lia).
  destruct (R >? VECTOR_MAX_SIZE) eqn:ER; [lia|].
  assert (Hst : zlen stored = s).
  { destruct Hin as (_ & _ & _ & Hp & Hsum & Hle & _).
    fold pos in Hp, Hsum. rewrite Hrem in Hsum, Hle. fold s data in Hsum, Hle.
    unfold stored. apply zlen_ztake_zdrop; lia. }
  (* the segment round, from any accumulator *)
  assert (Hseg : forall fuel' remaining acc,
            s <= remaining < 2 ^ 64 -> zlen acc + s <= VECTOR_MAX_SIZE ->
            sparse_read_loop (Datatypes.S fuel') sp o remaining acc r
            = sparse_read_loop fuel' sp (o + s) (remaining - s) (acc ++ stored)
                (set_counters 0 s (set_stream (mk_mms data (pos + s)) r))).
  { intros fuel' remaining acc Hremaining Hfits. cbn [sparse_read_loop].
    destruct (remaining >? 0) eqn:E; [|lia].
    assert (Hfind : find_segment sp o = Some 0).
    { unfold find_segment. rewrite Hsegs. cbn [find_segment_from]. fold o s.
      rewrite wrap64_small by lia.
      assert ((o >=? o) = true) as -> by (apply Z.geb_le; lia).
      cbn [andb]. destruct (o <? o + s) eqn:E2; [reflexivity | lia]. }
    rewrite Hfind. cbv zeta. rewrite Hsegs.
    change (Z.to_nat 0) with 0%nat. cbn [nth]. fold o s.
    rewrite Z.sub_diag. change (wrap64 0) with 0. rewrite Z.sub_0_r.
    rewrite (wrap64_small s) by lia.
    unfold sparse_data_offset_before, ztake. change (Z.to_nat 0) with 0%nat.
    cbn [take fold_left]. change (wrap64 (0 + 0)) with 0.
    rewrite (Z.min_r remaining s) by lia.
    unfold bind.
    rewrite (base_reader_first_read r s Hin Hcons ltac:(lia)).
    fold pos data. rewrite Hrem. rewrite (Z.min_l s s) by lia.
    fold stored. rewrite Z.sub_diag. rewrite Hst.
    destruct (zlen acc + s >? VECTOR_MAX_SIZE) eqn:E3; [lia|].
    rewrite (wrap64_small (o + s)) by lia.
    rewrite (wrap64_small (remaining - s)) by lia.
    reflexivity. }
  (* the hole after the segment *)
  assert (Htail : forall fuel' acc r',
            zlen acc + (R - o - s) <= VECTOR_MAX_SIZE ->
            sparse_read_loop (1 + fuel') sp (o + s) (R - (o + s)) acc r'
            = Some (Ok (acc ++ replicate (Z.to_nat (R - o - s)) NUL), r')).
  { intros fuel' acc r' Hfits.
    destruct (Z.eq_dec (R - (o + s)) 0) as [Hz | Hnz].
    - rewrite Hz. replace (R - o - s) with 0 by lia.
      rewrite sparse_read_loop_done. cbn [Z.to_nat replicate]. now rewrite app_nil_r.
    - change (1 + fuel')%nat with (Datatypes.S fuel').
      assert (Hnext : next_segment_start (segments sp) (o + s) (real_size sp) = R).
      { rewrite Hsegs. cbn [next_segment_start]. fold o.
        destruct (o >? o + s) eqn:E; [lia | reflexivity]. }
      rewrite sparse_read_loop_hole; rewrite ?Hnext;
        rewrite ?(wrap64_small (R - (o + s))) by lia; rewrite ?Z.min_id.
      + rewrite Z.sub_diag. change (wrap64 0) with 0.
        rewrite sparse_read_loop_done.
        replace (R - o - s) with (R - (o + s)) by (clear; lia). reflexivity.
      + lia.
      + unfold find_segment. rewrite Hsegs. cbn [find_segment_from]. fold o s.
        rewrite wrap64_small by lia.
        destruct (o + s <? o + s) eqn:E; [lia|]. now rewrite andb_false_r.
      + lia.
      + lia. }
  assert (Hfrom : forall fuel' acc,
            zlen acc + (R - o) <= VECTOR_MAX_SIZE ->
            sparse_read_loop (Datatypes.S (1 + fuel')) sp o (R - o) acc r
            = Some (Ok (acc ++ stored ++ replicate (Z.to_nat (R - o - s)) NUL),
                    set_counters 0 s (set_stream (mk_mms data (pos + s)) r))).
  { intros fuel' acc Hfits. pose proof (zlen_nonneg acc) as Hacc.
    rewrite Hseg by lia.
    assert (Hsub : R - o - s = R - (o + s)) by (clear; lia).
    rewrite Hsub at 1. rewrite Htail by (rewrite zlen_app, Hst; lia).
    now rewrite <- app_assoc. }
  destruct (Z.eq_dec o 0) as [Hz | Hnz].
  - (* the segment starts the file *)
    replace (sparse_read_loop (3 + fuel) sp 0 R [] r)
      with (sparse_read_loop (Datatypes.S (1 + Datatypes.S fuel)) sp o (R - o) [] r)
      by (rewrite Hz, Z.sub_0_r; reflexivity).
    rewrite Hfrom by (change (zlen (@nil ascii)) with 0; lia).
    replace (Z.to_nat o) with 0%nat by (rewrite Hz; reflexivity). reflexivity.
  - (* a hole first *)
    change (3 + fuel)%nat with (Datatypes.S (Datatypes.S (1 + fuel))).
    assert (Hnext : next_segment_start (segments sp) 0 (real_size sp) = o).
    { rewrite Hsegs. cbn [next_segment_start]. fold o.
      destruct (o >? 0) eqn:E; [reflexivity | lia]. }
    rewrite sparse_read_loop_hole; rewrite ?Hnext;
      rewrite ?Z.sub_0_r, ?(wrap64_small o) by lia; rewrite ?(Z.min_r R o) by lia.
    + rewrite Z.add_0_l, (wrap64_small o), (wrap64_small (R - o)) by lia.
      rewrite Hfrom by (rewrite zlen_app, zlen_replicate by lia;
                        change (zlen (@nil ascii)) with 0; lia).
      reflexivity.
    + lia.
    + unfold find_segment. rewrite Hsegs. cbn [find_segment_from]. fold o s.
      destruct (0 >=? o) eqn:E; [apply Z.geb_le in E; lia | reflexivity].
    + lia.
    + change (zlen (@nil ascii)) with 0. lia.
Qed.

Lemma one_segment_sparse_file_is_read_back_witness :
  let sp := mk_sparse_metadata 12 [mk_sparse_entry 4 5] in
  let e := mk_archive_entry
             (set_sparse_info (Some sp) (test_metadata "holes.bin" regular_file 12 None))
             (sparse_reader_fn sp) in
  let r := clean (mk_mms (bytes "hello") 0) (Some e) 5 0 false in
  read_data 3 e 0 SIZE_MAX r
  = Some (Ok (replicate 4 NUL ++ bytes "hello" ++ replicate 3 NUL),
          clean (mk_mms (bytes "hello") 5) (Some e) 0 5 false).
Proof.
  intros sp e r.
  apply (one_segment_sparse_file_is_read_back 0 r e sp (mk_sparse_entry 4 5)).
  - reflexivity.
  - reflexivity.
  - reflexivity.
  - simpl. lia.
  - simpl. lia.
  - vm_compute. split; discriminate.
  - vm_compute. repeat split; discriminate.
  - reflexivity.
  - reflexivity.
Defined.
